(** * KlattSyn: the cascade/parallel formant synthesizer of [src/Klatt.ts]

    A shallow embedding of the synthesis engine (filters, noise and glottal
    sources, the period scheduler, the frame-parameter binder, both filter
    branches and the generator) together with the properties of it that the
    specification states.

    Layout: JavaScript numbers as an interface that IEEE binary64
    implements, a state-and-exception monad, the program, then the
    theorems. *)

From Stdlib Require Import ZArith QArith List Bool Lia.
From Stdlib Require Import Floats.PrimFloat Floats.SpecFloat Floats.FloatOps.
From Stdlib Require Import Floats.FloatAxioms.
Import ListNotations.

Set Implicit Arguments.

(* ================================================================== *)
(** * JavaScript numbers *)

(** The result of ECMAScript's ToIntegerOrInfinity. *)
Inductive IntOrInf : Type :=
| NegInfinity
| Int (z : Z)
| PosInfinity.

(** What the program needs of the JavaScript [number] type: literals, the
    arithmetic and comparison operators, [isNaN], [isFinite] and the [Math]
    functions it calls.  [x ** y] is [Math_pow x y]. *)
Class JsNumber : Type := {
  num : Type;
  lit : Q -> num;
  NaN : num;
  add : num -> num -> num;
  sub : num -> num -> num;
  mul : num -> num -> num;
  div : num -> num -> num;
  neg : num -> num;
  ltb : num -> num -> bool;
  leb : num -> num -> bool;
  eqb : num -> num -> bool;
  isNaN : num -> bool;
  isFinite : num -> bool;
  Math_round : num -> num;
  Math_sqrt : num -> num;
  Math_cos : num -> num;
  Math_sin : num -> num;
  Math_exp : num -> num;
  Math_pow : num -> num -> num;
  Math_PI : num;
  ToIntegerOrInfinity : num -> IntOrInf
}.

Declare Scope js_scope.
Delimit Scope js_scope with js.
Bind Scope js_scope with num.
Arguments lit {JsNumber} q%_Q.
Notation "x + y" := (add x y) : js_scope.
Notation "x - y" := (sub x y) : js_scope.
Notation "x * y" := (mul x y) : js_scope.
Notation "x / y" := (div x y) : js_scope.
Notation "- x" := (neg x) : js_scope.
Notation "x ** y" := (Math_pow x y) (at level 30, right associativity) : js_scope.
Notation "x <? y" := (ltb x y) : js_scope.
Notation "x <=? y" := (leb x y) : js_scope.
Notation "x >? y" := (ltb y x) : js_scope.
Notation "x >=? y" := (leb y x) : js_scope.
Notation "x ==? y" := (eqb x y) (at level 70, no associativity) : js_scope.

(** JavaScript truthiness of a number: everything but [0], [-0] and [NaN]. *)
Definition truthy `{JsNumber} (x : num) : bool :=
  negb (isNaN x || (x ==? lit 0))%js.

(** The transcendental part of [Math], whose precision ECMAScript leaves to
    the implementation: an instance of [JsNumber] takes it as a parameter. *)
Record MathLib (T : Type) : Type := {
  lib_sqrt : T -> T;
  lib_cos : T -> T;
  lib_sin : T -> T;
  lib_exp : T -> T;
  lib_pow : T -> T -> T;
  lib_PI : T
}.

(* ------------------------------------------------------------------ *)
(** ** IEEE binary64 *)

Module F64.

Local Open Scope float_scope.

(** The binary64 number nearest to an integer. *)
Definition of_Z (z : Z) : float := SF2Prim (binary_normalize prec emax z 0 false).

(** A decimal literal: numerator and denominator are exact for the literals
    of the program, so the one division rounds to the nearest binary64. *)
Definition of_Q (q : Q) : float := of_Z (Qnum q) / of_Z (Zpos (Qden q)).

(** [Math.round]: the integer nearest to [x], ties towards [+Infinity].  A
    number that is not finite, a zero and a number without fractional bits
    is returned as it is; [x = (-1)^s m 2^-k] becomes
    [floor ((-1)^s m / 2^k + 1/2)], and [-0] when that is 0 for a negative
    [x]. *)
Definition round (x : float) : float :=
  match Prim2SF x with
  | S754_finite s m (Zneg k) =>
      let n := Z.shiftr (cond_Zopp s (Zpos m) + 2 ^ (Zpos k - 1)) (Zpos k) in
      if (n =? 0)%Z then (if s then -0 else 0) else of_Z n
  | _ => x
  end.

Definition toIntegerOrInfinity (x : float) : IntOrInf :=
  match Prim2SF x with
  | S754_nan => Int 0
  | S754_zero _ => Int 0
  | S754_infinity s => if s then NegInfinity else PosInfinity
  | S754_finite s m e =>
      let a := match e with
               | Zneg k => Z.shiftr (Zpos m) (Zpos k)
               | _ => Z.shiftl (Zpos m) e
               end in
      Int (if s then Z.opp a else a)
  end.

Definition toZ (x : float) : Z :=
  match toIntegerOrInfinity x with Int z => z | _ => 0%Z end.

(** *** A reference [Math] library

    Series with range reduction.  They stand for an engine's [Math.cos],
    [Math.sin], [Math.exp] and [Math.pow] where a concrete run is evaluated;
    the general theorems hold for every [MathLib]. *)

Definition ln2 : float := 0x1.62e42fefa39efp-1.
Definition pi : float := 0x1.921fb54442d18p+1.
Definition pio2_hi : float := 0x1.921fb54442d18p+0.
Definition pio2_lo : float := 0x1.1a62633145c07p-54.

(** [1 + r/k (1 + r/(k+1) (1 + ...))], [n] terms. *)
Fixpoint exp_series (n : nat) (k r : float) : float :=
  match n with
  | O => 1
  | S n' => 1 + r / k * exp_series n' (k + 1) r
  end.

Definition exp (x : float) : float :=
  if is_nan x then x
  else if 710 <? x then infinity
  else if x <? -746 then 0
  else
    let k := round (x / ln2) in
    let r := x - k * ln2 in
    Z.ldexp (exp_series 22 1 r) (toZ k).

(** [1 - r2/(k(k+1)) (1 - r2/((k+2)(k+3)) (1 - ...))], [n] terms. *)
Fixpoint trig_series (n : nat) (k r2 : float) : float :=
  match n with
  | O => 1
  | S n' => 1 - r2 / (k * (k + 1)) * trig_series n' (k + 2) r2
  end.

Definition sin_kernel (r : float) : float := r * trig_series 12 2 (r * r).
Definition cos_kernel (r : float) : float := trig_series 12 1 (r * r).

Definition trig_reduce (x : float) : float * Z :=
  let n := round (x / pio2_hi) in
  ((x - n * pio2_hi) - n * pio2_lo, Z.modulo (toZ n) 4).

Definition cos (x : float) : float :=
  if negb (is_finite x) then nan
  else
    let (r, q) := trig_reduce x in
    match q with
    | 0%Z => cos_kernel r
    | 1%Z => - sin_kernel r
    | 2%Z => - cos_kernel r
    | _ => sin_kernel r
    end.

Definition sin (x : float) : float :=
  if negb (is_finite x) then nan
  else
    let (r, q) := trig_reduce x in
    match q with
    | 0%Z => sin_kernel r
    | 1%Z => cos_kernel r
    | 2%Z => - sin_kernel r
    | _ => - cos_kernel r
    end.

(** [s + s^3/3 + s^5/5 + ...], [n] terms after the first. *)
Fixpoint atanh_series (n : nat) (k s2 pw : float) : float :=
  match n with
  | O => pw / k
  | S n' => pw / k + atanh_series n' (k + 2) s2 (pw * s2)
  end.

(** Natural logarithm of a positive finite number. *)
Definition ln (x : float) : float :=
  let (m, e) := Z.frexp x in
  let (m', e') := if m <? 0x1.6a09e667f3bcdp-1 then (m * 2, (e - 1)%Z) else (m, e) in
  let s := (m' - 1) / (m' + 1) in
  of_Z e' * ln2 + 2 * atanh_series 20 1 (s * s) s.

Fixpoint powi (x : float) (n : positive) : float :=
  match n with
  | xH => x
  | xO p => let y := powi x p in y * y
  | xI p => let y := powi x p in x * (y * y)
  end.

Definition is_integer (y : float) : bool := is_finite y && (round y =? y).

Definition pow (x y : float) : float :=
  if is_nan y then nan
  else if y =? 0 then 1
  else if is_nan x then nan
  else if is_integer y && (abs y <=? 1024) then
    match toZ y with
    | Zpos p => powi x p
    | Zneg p => 1 / powi x p
    | Z0 => 1
    end
  else if 0 <? x then
    (if is_infinity x then (if 0 <? y then infinity else 0)
     else if is_infinity y then
       (if x =? 1 then nan
        else if Bool.eqb (x <? 1) (y <? 0) then infinity else 0)
     else exp (y * ln x))
  else if x =? 0 then (if 0 <? y then 0 else infinity)
  else nan.

Definition refMath : MathLib float := {|
  lib_sqrt := sqrt;
  lib_cos := cos;
  lib_sin := sin;
  lib_exp := exp;
  lib_pow := pow;
  lib_PI := pi
|}.

End F64.

(** The value of a binary64 number in units of [2^-1074], the smallest
    positive one; the infinities stand at [2^2098], beyond every finite
    number. *)
Definition units (f : spec_float) : Z :=
  match f with
  | S754_zero _ => 0%Z
  | S754_infinity s => cond_Zopp s (2 ^ 2098)
  | S754_nan => 0%Z
  | S754_finite s m e => cond_Zopp s (Zpos m * 2 ^ (e + 1074))
  end.

(** Binary64 numbers, with the [Math] library [M]. *)
Definition F64Number (M : MathLib float) : JsNumber := {|
  num := float;
  lit := F64.of_Q;
  NaN := PrimFloat.nan;
  add := PrimFloat.add;
  sub := PrimFloat.sub;
  mul := PrimFloat.mul;
  div := PrimFloat.div;
  neg := PrimFloat.opp;
  ltb := PrimFloat.ltb;
  leb := PrimFloat.leb;
  eqb := PrimFloat.eqb;
  isNaN := PrimFloat.is_nan;
  isFinite := PrimFloat.is_finite;
  Math_round := F64.round;
  Math_sqrt := lib_sqrt M;
  Math_cos := lib_cos M;
  Math_sin := lib_sin M;
  Math_exp := lib_exp M;
  Math_pow := lib_pow M;
  Math_PI := lib_PI M;
  ToIntegerOrInfinity := F64.toIntegerOrInfinity
|}.

(* ================================================================== *)
(** * Exceptions and state

    A method of the program runs on the state of its object and either
    returns or throws; what it wrote before it threw stays written. *)

Inductive Error : Type :=
| InvalidFilterParameters        (* "Invalid filter parameters." *)
| InvalidResonatorParameters     (* "Invalid resonator parameters." *)
| InvalidAntiResonatorParameters (* "Invalid anti-resonator parameters." *)
| InvalidResonatorPeakGain       (* "Invalid resonator peak gain." *)
| FrameParmsReused               (* "FrameParms structure must not be re-used." *)
| UndefinedGlottalSourceType     (* "Undefined glottal source type." *)
| TypeError                      (* a property of [undefined] is read *)
| RangeError.                    (* an invalid typed array length *)

Inductive Outcome (A : Type) : Type :=
| Ok (a : A)
| Throw (e : Error).

Arguments Ok {A} a.
Arguments Throw {A} e.

Definition M (S A : Type) : Type := S -> Outcome A * S.

Definition ret {S A : Type} (a : A) : M S A := fun s => (Ok a, s).

Definition bind {S A B : Type} (m : M S A) (k : A -> M S B) : M S B :=
  fun s =>
    match m s with
    | (Ok a, s') => k a s'
    | (Throw e, s') => (Throw e, s')
    end.

Definition throw {S A : Type} (e : Error) : M S A := fun s => (Throw e, s).

Definition get {S : Type} : M S S := fun s => (Ok s, s).

Definition gets {S A : Type} (f : S -> A) : M S A := fun s => (Ok (f s), s).

Definition modify {S : Type} (f : S -> S) : M S unit := fun s => (Ok tt, f s).

(** Runs a method of a component [T] of the state [S]. *)
Definition zoom {S T A : Type} (proj : S -> T) (upd : T -> S -> S)
    (m : M T A) : M S A :=
  fun s => let (r, t') := m (proj s) in (r, upd t' s).

(** Runs a method of an optional component: [undefined] has no methods. *)
Definition zoomOpt {S T A : Type} (proj : S -> option T)
    (upd : option T -> S -> S) (m : M T A) : M S A :=
  fun s =>
    match proj s with
    | Some t => let (r, t') := m t in (r, upd (Some t') s)
    | None => (Throw TypeError, s)
    end.

Declare Scope monad_scope.
Delimit Scope monad_scope with monad.
Notation "x <- m ;; k" := (bind m (fun x => k))
  (at level 61, m at next level, right associativity) : monad_scope.
Notation "m ;; k" := (bind m (fun _ => k))
  (at level 61, right associativity) : monad_scope.
Notation "'when' b 'then' m" := (if b then m else ret tt)
  (at level 60, b at level 0) : monad_scope.

(** [for (i of xs) body(i)]. *)
Fixpoint forEach {S A : Type} (xs : list A) (body : A -> M S unit) : M S unit :=
  match xs with
  | [] => ret tt
  | x :: xs' => bind (body x) (fun _ => forEach xs' body)
  end.

(** The same for code that has no state of its own (constructors). *)
Definition obind {A B : Type} (o : Outcome A) (k : A -> Outcome B) : Outcome B :=
  match o with
  | Ok a => k a
  | Throw e => Throw e
  end.

Notation "x <~ o ;; k" := (obind o (fun x => k))
  (at level 61, o at next level, right associativity) : monad_scope.

(** [new T(...)] followed by a method call inside a constructor: the object
    exists for the caller only when the call returns. *)
Definition construct {T : Type} (init : T) (m : M T unit) : Outcome T :=
  match m init with
  | (Ok _, t) => Ok t
  | (Throw e, _) => Throw e
  end.

(* ================================================================== *)
(** * The program *)

Section Program.

Context {N : JsNumber}.

Local Open Scope js_scope.
Local Open Scope monad_scope.

(** A field that the constructor leaves unassigned holds [undefined]; the
    program reads such a field only as an arithmetic operand, where
    [undefined] converts to [NaN]. *)
Definition undefined : num := NaN.

(* ------------------------------------------------------------------ *)
(** ** Filters *)

(** A first-order IIR LP filter: [y[n] = a * x[n] + b * y[n-1]]. *)
Record LpFilter1 : Type := {
  lp_sampleRate : num;
  lp_a : num;
  lp_b : num;
  lp_y1 : num;
  lp_passthrough : bool;
  lp_muted : bool
}.

Definition LpFilter1_new (sampleRate : num) : LpFilter1 := {|
  lp_sampleRate := sampleRate;
  lp_a := undefined;
  lp_b := undefined;
  lp_y1 := lit 0;
  lp_passthrough := true;
  lp_muted := false
|}.

Definition LpFilter1_set (f g extraGain : num) : M LpFilter1 unit :=
  fun this =>
    if (f <=? lit 0) || (f >=? lp_sampleRate this / lit 2)
       || (g <=? lit 0) || (g >=? lit 1)
       || negb (isFinite f) || negb (isFinite g) || negb (isFinite extraGain)
    then (Throw InvalidFilterParameters, this)
    else
      let w := lit 2 * Math_PI * f / lp_sampleRate this in
      let q := (lit 1 - g ** lit 2 * Math_cos w) / (lit 1 - g ** lit 2) in
      let b := q - Math_sqrt (q ** lit 2 - lit 1) in
      let a := (lit 1 - b) * extraGain in
      (Ok tt, {| lp_sampleRate := lp_sampleRate this;
                 lp_a := a;
                 lp_b := b;
                 lp_y1 := lp_y1 this;
                 lp_passthrough := false;
                 lp_muted := false |}).

Definition LpFilter1_setPassthrough : M LpFilter1 unit :=
  modify (fun this =>
    {| lp_sampleRate := lp_sampleRate this;
       lp_a := lp_a this;
       lp_b := lp_b this;
       lp_y1 := lit 0;
       lp_passthrough := true;
       lp_muted := false |}).

Definition LpFilter1_setMute : M LpFilter1 unit :=
  modify (fun this =>
    {| lp_sampleRate := lp_sampleRate this;
       lp_a := lp_a this;
       lp_b := lp_b this;
       lp_y1 := lit 0;
       lp_passthrough := false;
       lp_muted := true |}).

Definition LpFilter1_step (x : num) : M LpFilter1 num :=
  fun this =>
    if lp_passthrough this then (Ok x, this)
    else if lp_muted this then (Ok (lit 0), this)
    else
      let y := lp_a this * x + lp_b this * lp_y1 this in
      (Ok y, {| lp_sampleRate := lp_sampleRate this;
                lp_a := lp_a this;
                lp_b := lp_b this;
                lp_y1 := y;
                lp_passthrough := lp_passthrough this;
                lp_muted := lp_muted this |}).

(** A Klatt resonator, a second order IIR filter:
    [y[n] = a * x[n] + b * y[n-1] + c * y[n-2]]. *)
Record Resonator : Type := {
  res_sampleRate : num;
  res_a : num;
  res_b : num;
  res_c : num;
  res_y1 : num;
  res_y2 : num;
  res_r : num;
  res_passthrough : bool;
  res_muted : bool
}.

Definition Resonator_new (sampleRate : num) : Resonator := {|
  res_sampleRate := sampleRate;
  res_a := undefined;
  res_b := undefined;
  res_c := undefined;
  res_y1 := lit 0;
  res_y2 := lit 0;
  res_r := undefined;
  res_passthrough := true;
  res_muted := false
|}.

Definition Resonator_set (f bw dcGain : num) : M Resonator unit :=
  fun this =>
    if (f <? lit 0) || (f >=? res_sampleRate this / lit 2)
       || (bw <=? lit 0) || (dcGain <=? lit 0)
       || negb (isFinite f) || negb (isFinite bw) || negb (isFinite dcGain)
    then (Throw InvalidResonatorParameters, this)
    else
      let r := Math_exp (- Math_PI * bw / res_sampleRate this) in
      let w := lit 2 * Math_PI * f / res_sampleRate this in
      let c := - (r ** lit 2) in
      let b := lit 2 * r * Math_cos w in
      let a := (lit 1 - b - c) * dcGain in
      (Ok tt, {| res_sampleRate := res_sampleRate this;
                 res_a := a;
                 res_b := b;
                 res_c := c;
                 res_y1 := res_y1 this;
                 res_y2 := res_y2 this;
                 res_r := r;
                 res_passthrough := false;
                 res_muted := false |}).

Definition Resonator_setPassthrough : M Resonator unit :=
  modify (fun this =>
    {| res_sampleRate := res_sampleRate this;
       res_a := res_a this;
       res_b := res_b this;
       res_c := res_c this;
       res_y1 := lit 0;
       res_y2 := lit 0;
       res_r := res_r this;
       res_passthrough := true;
       res_muted := false |}).

Definition Resonator_setMute : M Resonator unit :=
  modify (fun this =>
    {| res_sampleRate := res_sampleRate this;
       res_a := res_a this;
       res_b := res_b this;
       res_c := res_c this;
       res_y1 := lit 0;
       res_y2 := lit 0;
       res_r := res_r this;
       res_passthrough := false;
       res_muted := true |}).

(** [this.a = newA]. *)
Definition Resonator_with_a (newA : num) (this : Resonator) : Resonator := {|
  res_sampleRate := res_sampleRate this;
  res_a := newA;
  res_b := res_b this;
  res_c := res_c this;
  res_y1 := res_y1 this;
  res_y2 := res_y2 this;
  res_r := res_r this;
  res_passthrough := res_passthrough this;
  res_muted := res_muted this
|}.

Definition Resonator_adjustImpulseGain (newA : num) : M Resonator unit :=
  modify (Resonator_with_a newA).

Definition Resonator_adjustPeakGain (peakGain : num) : M Resonator unit :=
  fun this =>
    if (peakGain <=? lit 0) || negb (isFinite peakGain)
    then (Throw InvalidResonatorPeakGain, this)
    else (Ok tt, Resonator_with_a (peakGain * (lit 1 - res_r this)) this).

Definition Resonator_step (x : num) : M Resonator num :=
  fun this =>
    if res_passthrough this then (Ok x, this)
    else if res_muted this then (Ok (lit 0), this)
    else
      let y := res_a this * x + res_b this * res_y1 this
               + res_c this * res_y2 this in
      (Ok y, {| res_sampleRate := res_sampleRate this;
                res_a := res_a this;
                res_b := res_b this;
                res_c := res_c this;
                res_y1 := y;
                res_y2 := res_y1 this;
                res_r := res_r this;
                res_passthrough := res_passthrough this;
                res_muted := res_muted this |}).

(** A Klatt anti-resonator, a second order FIR filter:
    [y[n] = a * x[n] + b * x[n-1] + c * x[n-2]]. *)
Record AntiResonator : Type := {
  ares_sampleRate : num;
  ares_a : num;
  ares_b : num;
  ares_c : num;
  ares_x1 : num;
  ares_x2 : num;
  ares_passthrough : bool;
  ares_muted : bool
}.

Definition AntiResonator_new (sampleRate : num) : AntiResonator := {|
  ares_sampleRate := sampleRate;
  ares_a := undefined;
  ares_b := undefined;
  ares_c := undefined;
  ares_x1 := lit 0;
  ares_x2 := lit 0;
  ares_passthrough := true;
  ares_muted := false
|}.

(** The [c0], [b0] and [a0] of [AntiResonator.set], functions of its
    arguments. *)
Definition AntiResonator_c0 (sampleRate bw : num) : num :=
  let r := Math_exp (- Math_PI * bw / sampleRate) in
  - (r * r).

Definition AntiResonator_b0 (sampleRate f bw : num) : num :=
  let r := Math_exp (- Math_PI * bw / sampleRate) in
  let w := lit 2 * Math_PI * f / sampleRate in
  lit 2 * r * Math_cos w.

Definition AntiResonator_a0 (sampleRate f bw : num) : num :=
  let r := Math_exp (- Math_PI * bw / sampleRate) in
  let w := lit 2 * Math_PI * f / sampleRate in
  let c0 := - (r * r) in
  let b0 := lit 2 * r * Math_cos w in
  lit 1 - b0 - c0.

Definition AntiResonator_set (f bw : num) : M AntiResonator unit :=
  fun this =>
    if (f <=? lit 0) || (f >=? ares_sampleRate this / lit 2)
       || (bw <=? lit 0) || negb (isFinite f) || negb (isFinite bw)
    then (Throw InvalidAntiResonatorParameters, this)
    else
      let r := Math_exp (- Math_PI * bw / ares_sampleRate this) in
      let w := lit 2 * Math_PI * f / ares_sampleRate this in
      let c0 := - (r * r) in
      let b0 := lit 2 * r * Math_cos w in
      let a0 := lit 1 - b0 - c0 in
      if a0 ==? lit 0 then
        (Ok tt, {| ares_sampleRate := ares_sampleRate this;
                   ares_a := lit 0;
                   ares_b := lit 0;
                   ares_c := lit 0;
                   ares_x1 := ares_x1 this;
                   ares_x2 := ares_x2 this;
                   ares_passthrough := ares_passthrough this;
                   ares_muted := ares_muted this |})
      else
        (Ok tt, {| ares_sampleRate := ares_sampleRate this;
                   ares_a := lit 1 / a0;
                   ares_b := - b0 / a0;
                   ares_c := - c0 / a0;
                   ares_x1 := ares_x1 this;
                   ares_x2 := ares_x2 this;
                   ares_passthrough := false;
                   ares_muted := false |}).

Definition AntiResonator_setPassthrough : M AntiResonator unit :=
  modify (fun this =>
    {| ares_sampleRate := ares_sampleRate this;
       ares_a := ares_a this;
       ares_b := ares_b this;
       ares_c := ares_c this;
       ares_x1 := lit 0;
       ares_x2 := lit 0;
       ares_passthrough := true;
       ares_muted := false |}).

Definition AntiResonator_setMute : M AntiResonator unit :=
  modify (fun this =>
    {| ares_sampleRate := ares_sampleRate this;
       ares_a := ares_a this;
       ares_b := ares_b this;
       ares_c := ares_c this;
       ares_x1 := lit 0;
       ares_x2 := lit 0;
       ares_passthrough := false;
       ares_muted := true |}).

Definition AntiResonator_step (x : num) : M AntiResonator num :=
  fun this =>
    if ares_passthrough this then (Ok x, this)
    else if ares_muted this then (Ok (lit 0), this)
    else
      let y := ares_a this * x + ares_b this * ares_x1 this
               + ares_c this * ares_x2 this in
      (Ok y, {| ares_sampleRate := ares_sampleRate this;
                ares_a := ares_a this;
                ares_b := ares_b this;
                ares_c := ares_c this;
                ares_x1 := x;
                ares_x2 := ares_x1 this;
                ares_passthrough := ares_passthrough this;
                ares_muted := ares_muted this |}).

(** A differencing filter, a first-order FIR HP filter:
    [y[n] = x[n] - x[n-1]]. *)
Record DifferencingFilter : Type := {
  diff_x1 : num
}.

Definition DifferencingFilter_new : DifferencingFilter := {| diff_x1 := lit 0 |}.

Definition DifferencingFilter_step (x : num) : M DifferencingFilter num :=
  fun this => (Ok (x - diff_x1 this), {| diff_x1 := x |}).

(* ------------------------------------------------------------------ *)
(** ** Noise sources *)

(** [Math.random], the pseudo-random generator of the realm: the values it
    is going to return and how many were drawn. *)
Record Random : Type := {
  rnd_values : nat -> num;
  rnd_drawn : nat
}.

Definition Math_random : M Random num :=
  fun rnd =>
    (Ok (rnd_values rnd (rnd_drawn rnd)),
     {| rnd_values := rnd_values rnd; rnd_drawn := S (rnd_drawn rnd) |}).

(** Returns a random number within the range -1 .. 1. *)
Definition getWhiteNoise : M Random num :=
  x <- Math_random ;;
  ret (x * lit 2 - lit 1).

(** A low-pass filtered noise source. *)
Record LpNoiseSource : Type := {
  lpFilter : LpFilter1
}.

Definition LpNoiseSource_new (sampleRate : num) : Outcome LpNoiseSource :=
  let oldB := lit 0.75 in
  let oldSampleRate := lit 10000 in
  let f := lit 1000 in
  let g := (lit 1 - oldB)
           / Math_sqrt (lit 1
                        - lit 2 * oldB * Math_cos (lit 2 * Math_PI * f / oldSampleRate)
                        + oldB ** lit 2) in
  let extraGain := lit 2.5 * (sampleRate / lit 10000) ** lit 0.33 in
  lpf <~ construct (LpFilter1_new sampleRate) (LpFilter1_set f g extraGain) ;;
  Ok {| lpFilter := lpf |}.

(** The methods that draw random numbers run on the pair of the realm's
    generator and their object. *)
Definition onRandom {T A : Type} (m : M Random A) : M (Random * T) A :=
  zoom fst (fun rnd s => (rnd, snd s)) m.

Definition onThis {T A : Type} (m : M T A) : M (Random * T) A :=
  zoom snd (fun t s => (fst s, t)) m.

Definition LpNoiseSource_getNext : M (Random * LpNoiseSource) num :=
  x <- onRandom getWhiteNoise ;;
  onThis (zoom lpFilter (fun f _ => {| lpFilter := f |}) (LpFilter1_step x)).

(* ------------------------------------------------------------------ *)
(** ** Glottal sources *)

(** Generates a glottal source signal by LP filtering a pulse train. *)
Record ImpulsiveGlottalSource : Type := {
  igs_sampleRate : num;
  igs_resonator : option Resonator;
  igs_positionInPeriod : num
}.

Definition ImpulsiveGlottalSource_new (sampleRate : num) : ImpulsiveGlottalSource := {|
  igs_sampleRate := sampleRate;
  igs_resonator := None;
  igs_positionInPeriod := undefined
|}.

Definition igs_set_resonator (r : option Resonator) (this : ImpulsiveGlottalSource)
    : ImpulsiveGlottalSource := {|
  igs_sampleRate := igs_sampleRate this;
  igs_resonator := r;
  igs_positionInPeriod := igs_positionInPeriod this
|}.

Definition igs_set_positionInPeriod (p : num) (this : ImpulsiveGlottalSource)
    : ImpulsiveGlottalSource := {|
  igs_sampleRate := igs_sampleRate this;
  igs_resonator := igs_resonator this;
  igs_positionInPeriod := p
|}.

Definition ImpulsiveGlottalSource_startPeriod (openPhaseLength : num)
    : M ImpulsiveGlottalSource unit :=
  if negb (truthy openPhaseLength) then
    modify (igs_set_resonator None)
  else
    this <- get ;;
    (when (match igs_resonator this with None => true | Some _ => false end) then
       modify (igs_set_resonator (Some (Resonator_new (igs_sampleRate this))))) ;;
    let bw := igs_sampleRate this / openPhaseLength in
    zoomOpt igs_resonator igs_set_resonator (Resonator_set (lit 0) bw (lit 1)) ;;
    zoomOpt igs_resonator igs_set_resonator (Resonator_adjustImpulseGain (lit 1)) ;;
    modify (igs_set_positionInPeriod (lit 0)).

Definition ImpulsiveGlottalSource_getNext : M ImpulsiveGlottalSource num :=
  this <- get ;;
  match igs_resonator this with
  | None => ret (lit 0)
  | Some _ =>
      let pulse :=
        if igs_positionInPeriod this ==? lit 1 then lit 1
        else if igs_positionInPeriod this ==? lit 2 then lit (-1)
        else lit 0 in
      modify (igs_set_positionInPeriod (igs_positionInPeriod this + lit 1)) ;;
      zoomOpt igs_resonator igs_set_resonator (Resonator_step pulse)
  end.

(** Generates a "natural" glottal source signal according to the KLGLOTT88
    model. *)
Record NaturalGlottalSource : Type := {
  ngs_x : num;
  ngs_a : num;
  ngs_b : num;
  ngs_openPhaseLength : num;
  ngs_positionInPeriod : num
}.

Definition NaturalGlottalSource_startPeriod (openPhaseLength : num)
    : M NaturalGlottalSource unit :=
  modify (fun _ =>
    let amplification := lit 5 in
    let b := - amplification / openPhaseLength ** lit 2 in
    let a := - b * openPhaseLength / lit 3 in
    {| ngs_x := lit 0;
       ngs_a := a;
       ngs_b := b;
       ngs_openPhaseLength := openPhaseLength;
       ngs_positionInPeriod := lit 0 |}).

Definition NaturalGlottalSource_new : NaturalGlottalSource :=
  snd (NaturalGlottalSource_startPeriod (lit 0)
         {| ngs_x := undefined;
            ngs_a := undefined;
            ngs_b := undefined;
            ngs_openPhaseLength := undefined;
            ngs_positionInPeriod := undefined |}).

Definition NaturalGlottalSource_getNext : M NaturalGlottalSource num :=
  fun this =>
    let position := ngs_positionInPeriod this in
    let this1 :=
      {| ngs_x := ngs_x this;
         ngs_a := ngs_a this;
         ngs_b := ngs_b this;
         ngs_openPhaseLength := ngs_openPhaseLength this;
         ngs_positionInPeriod := position + lit 1 |} in
    if position >=? ngs_openPhaseLength this1 then
      (Ok (lit 0),
       {| ngs_x := lit 0;
          ngs_a := ngs_a this1;
          ngs_b := ngs_b this1;
          ngs_openPhaseLength := ngs_openPhaseLength this1;
          ngs_positionInPeriod := ngs_positionInPeriod this1 |})
    else
      let a := ngs_a this1 + ngs_b this1 in
      let x := ngs_x this1 + a in
      (Ok x,
       {| ngs_x := x;
          ngs_a := a;
          ngs_b := ngs_b this1;
          ngs_openPhaseLength := ngs_openPhaseLength this1;
          ngs_positionInPeriod := ngs_positionInPeriod this1 |}).

(* ------------------------------------------------------------------ *)

(** Modulates the fundamental frequency (F0). *)
Definition performFrequencyModulation (f0 flutterLevel time : num) : num :=
  if flutterLevel <=? lit 0 then f0
  else
    let w := lit 2 * Math_PI * time in
    let a := Math_sin (lit 12.7 * w) + Math_sin (lit 7.1 * w)
             + Math_sin (lit 4.7 * w) in
    f0 * (lit 1 + a * flutterLevel / lit 50).

(** Convert a dB value into a linear value.  dB values of -99 and below or
    NaN are converted to 0. *)
Definition dbToLin (db : num) : num :=
  if (db <=? lit (-99)) || isNaN db then lit 0
  else Math_pow (lit 10) (db / lit 20).

(* ------------------------------------------------------------------ *)
(** ** Main logic *)

(** [const enum GlottalSourceType { impulsive, natural, noise }]: the
    numbers 0, 1 and 2 at run time. *)
Definition GlottalSourceType : Type := Z.
Definition impulsive : GlottalSourceType := 0%Z.
Definition natural : GlottalSourceType := 1%Z.
Definition noise : GlottalSourceType := 2%Z.

Definition maxOralFormants : nat := 6.

(** Parameters for the whole sound. *)
Record MainParms : Type := {
  sampleRate : num;
  glottalSourceType : GlottalSourceType
}.

(** Parameters for a sound frame.  [objectId] is the identity of the
    JavaScript object: [==] on two objects compares identities. *)
Record FrameParms : Type := {
  objectId : nat;
  duration : num;
  f0 : num;
  flutterLevel : num;
  openPhaseRatio : num;
  breathinessDb : num;
  tiltDb : num;
  gainDb : num;
  nasalFormantFreq : num;
  nasalFormantBw : num;
  oralFormantFreq : list num;
  oralFormantBw : list num;
  (* Cascade branch: *)
  cascadeEnabled : bool;
  cascadeVoicingDb : num;
  cascadeAspirationDb : num;
  cascadeAspirationMod : num;
  nasalAntiformantFreq : num;
  nasalAntiformantBw : num;
  (* Parallel branch: *)
  parallelEnabled : bool;
  parallelVoicingDb : num;
  parallelAspirationDb : num;
  parallelAspirationMod : num;
  fricationDb : num;
  fricationMod : num;
  parallelBypassDb : num;
  nasalFormantDb : num;
  oralFormantDb : list num
}.

(** [p == q] where [q] may be [undefined]. *)
Definition sameObject (p : FrameParms) (q : option FrameParms) : bool :=
  match q with
  | Some q' => Nat.eqb (objectId p) (objectId q')
  | None => false
  end.

(** Variables of the currently active frame. *)
Record FrameState : Type := {
  breathinessLin : num;
  gainLin : num;
  cascadeVoicingLin : num;
  cascadeAspirationLin : num;
  parallelVoicingLin : num;
  parallelAspirationLin : num;
  fricationLin : num;
  parallelBypassLin : num
}.

(** Variables of the currently active F0 period (aka glottal period). *)
Record PeriodState : Type := {
  ps_f0 : num;
  periodLength : num;
  openPhaseLength : num;
  positionInPeriod : num;
  lpNoise : num
}.

(** [glottalSource], the function which returns the next glottal source
    signal sample value: which of the three closures it is. *)
Inductive GlottalSourceFunction : Type :=
| impulsiveGSource_getNext
| naturalGSource_getNext
| getWhiteNoise_function.

(** Sound generator controller. *)
Record Generator : Type := {
  mParms : MainParms;  (* main parameters *)
  fParms : option FrameParms;  (* currently active frame parameters *)
  newFParms : option FrameParms;  (* new frame parameters for start of next F0 period *)
  fState : FrameState;  (* frame variables *)
  pState : option PeriodState;  (* F0 period state variables *)
  absPosition : num;  (* current absolute sample position *)
  tiltFilter : LpFilter1;  (* spectral tilt filter *)
  outputLpFilter : Resonator;  (* output low-pass filter *)
  flutterTimeOffset : num;  (* random value for flutter time offset *)
  impulsiveGSource : option ImpulsiveGlottalSource;
  naturalGSource : option NaturalGlottalSource;
  glottalSource : GlottalSourceFunction;
  aspirationSourceCasc : LpNoiseSource;  (* noise source for aspiration in cascade branch *)
  aspirationSourcePar : LpNoiseSource;  (* noise source for aspiration in parallel branch *)
  fricationSourcePar : LpNoiseSource;  (* noise source for frication in parallel branch *)
  nasalFormantCasc : Resonator;  (* nasal formant filter for cascade branch *)
  nasalAntiformantCasc : AntiResonator;  (* nasal antiformant filter for cascade branch *)
  oralFormantCasc : list Resonator;  (* oral formant filters for cascade branch *)
  nasalFormantPar : Resonator;  (* nasal formant filter for parallel branch *)
  oralFormantPar : list Resonator;  (* oral formant filters for parallel branch *)
  differencingFilterPar : DifferencingFilter;  (* differencing filter for the parallel branch *)
  random : Random  (* the realm's Math.random, as this generator sees it *)
}.

(** Assignments to the fields of a generator. *)
Definition set_fParms (v : option FrameParms) (this : Generator) : Generator :=
  Build_Generator (mParms this) v (newFParms this) (fState this) (pState this)
    (absPosition this) (tiltFilter this) (outputLpFilter this)
    (flutterTimeOffset this) (impulsiveGSource this) (naturalGSource this)
    (glottalSource this) (aspirationSourceCasc this)
    (aspirationSourcePar this) (fricationSourcePar this)
    (nasalFormantCasc this) (nasalAntiformantCasc this) (oralFormantCasc this)
    (nasalFormantPar this) (oralFormantPar this) (differencingFilterPar this)
    (random this).

Definition set_newFParms (v : option FrameParms) (this : Generator) : Generator :=
  Build_Generator (mParms this) (fParms this) v (fState this) (pState this)
    (absPosition this) (tiltFilter this) (outputLpFilter this)
    (flutterTimeOffset this) (impulsiveGSource this) (naturalGSource this)
    (glottalSource this) (aspirationSourceCasc this)
    (aspirationSourcePar this) (fricationSourcePar this)
    (nasalFormantCasc this) (nasalAntiformantCasc this) (oralFormantCasc this)
    (nasalFormantPar this) (oralFormantPar this) (differencingFilterPar this)
    (random this).

Definition set_fState (v : FrameState) (this : Generator) : Generator :=
  Build_Generator (mParms this) (fParms this) (newFParms this) v (pState this)
    (absPosition this) (tiltFilter this) (outputLpFilter this)
    (flutterTimeOffset this) (impulsiveGSource this) (naturalGSource this)
    (glottalSource this) (aspirationSourceCasc this)
    (aspirationSourcePar this) (fricationSourcePar this)
    (nasalFormantCasc this) (nasalAntiformantCasc this) (oralFormantCasc this)
    (nasalFormantPar this) (oralFormantPar this) (differencingFilterPar this)
    (random this).

Definition set_pState (v : option PeriodState) (this : Generator) : Generator :=
  Build_Generator (mParms this) (fParms this) (newFParms this) (fState this) v
    (absPosition this) (tiltFilter this) (outputLpFilter this)
    (flutterTimeOffset this) (impulsiveGSource this) (naturalGSource this)
    (glottalSource this) (aspirationSourceCasc this)
    (aspirationSourcePar this) (fricationSourcePar this)
    (nasalFormantCasc this) (nasalAntiformantCasc this) (oralFormantCasc this)
    (nasalFormantPar this) (oralFormantPar this) (differencingFilterPar this)
    (random this).

Definition set_absPosition (v : num) (this : Generator) : Generator :=
  Build_Generator (mParms this) (fParms this) (newFParms this) (fState this)
    (pState this) v (tiltFilter this) (outputLpFilter this)
    (flutterTimeOffset this) (impulsiveGSource this) (naturalGSource this)
    (glottalSource this) (aspirationSourceCasc this)
    (aspirationSourcePar this) (fricationSourcePar this)
    (nasalFormantCasc this) (nasalAntiformantCasc this) (oralFormantCasc this)
    (nasalFormantPar this) (oralFormantPar this) (differencingFilterPar this)
    (random this).

Definition set_tiltFilter (v : LpFilter1) (this : Generator) : Generator :=
  Build_Generator (mParms this) (fParms this) (newFParms this) (fState this)
    (pState this) (absPosition this) v (outputLpFilter this)
    (flutterTimeOffset this) (impulsiveGSource this) (naturalGSource this)
    (glottalSource this) (aspirationSourceCasc this)
    (aspirationSourcePar this) (fricationSourcePar this)
    (nasalFormantCasc this) (nasalAntiformantCasc this) (oralFormantCasc this)
    (nasalFormantPar this) (oralFormantPar this) (differencingFilterPar this)
    (random this).

Definition set_outputLpFilter (v : Resonator) (this : Generator) : Generator :=
  Build_Generator (mParms this) (fParms this) (newFParms this) (fState this)
    (pState this) (absPosition this) (tiltFilter this) v
    (flutterTimeOffset this) (impulsiveGSource this) (naturalGSource this)
    (glottalSource this) (aspirationSourceCasc this)
    (aspirationSourcePar this) (fricationSourcePar this)
    (nasalFormantCasc this) (nasalAntiformantCasc this) (oralFormantCasc this)
    (nasalFormantPar this) (oralFormantPar this) (differencingFilterPar this)
    (random this).

Definition set_impulsiveGSource (v : option ImpulsiveGlottalSource) (this : Generator) : Generator :=
  Build_Generator (mParms this) (fParms this) (newFParms this) (fState this)
    (pState this) (absPosition this) (tiltFilter this) (outputLpFilter this)
    (flutterTimeOffset this) v (naturalGSource this) (glottalSource this)
    (aspirationSourceCasc this) (aspirationSourcePar this)
    (fricationSourcePar this) (nasalFormantCasc this)
    (nasalAntiformantCasc this) (oralFormantCasc this) (nasalFormantPar this)
    (oralFormantPar this) (differencingFilterPar this) (random this).

Definition set_naturalGSource (v : option NaturalGlottalSource) (this : Generator) : Generator :=
  Build_Generator (mParms this) (fParms this) (newFParms this) (fState this)
    (pState this) (absPosition this) (tiltFilter this) (outputLpFilter this)
    (flutterTimeOffset this) (impulsiveGSource this) v (glottalSource this)
    (aspirationSourceCasc this) (aspirationSourcePar this)
    (fricationSourcePar this) (nasalFormantCasc this)
    (nasalAntiformantCasc this) (oralFormantCasc this) (nasalFormantPar this)
    (oralFormantPar this) (differencingFilterPar this) (random this).

Definition set_aspirationSourceCasc (v : LpNoiseSource) (this : Generator) : Generator :=
  Build_Generator (mParms this) (fParms this) (newFParms this) (fState this)
    (pState this) (absPosition this) (tiltFilter this) (outputLpFilter this)
    (flutterTimeOffset this) (impulsiveGSource this) (naturalGSource this)
    (glottalSource this) v (aspirationSourcePar this)
    (fricationSourcePar this) (nasalFormantCasc this)
    (nasalAntiformantCasc this) (oralFormantCasc this) (nasalFormantPar this)
    (oralFormantPar this) (differencingFilterPar this) (random this).

Definition set_aspirationSourcePar (v : LpNoiseSource) (this : Generator) : Generator :=
  Build_Generator (mParms this) (fParms this) (newFParms this) (fState this)
    (pState this) (absPosition this) (tiltFilter this) (outputLpFilter this)
    (flutterTimeOffset this) (impulsiveGSource this) (naturalGSource this)
    (glottalSource this) (aspirationSourceCasc this) v
    (fricationSourcePar this) (nasalFormantCasc this)
    (nasalAntiformantCasc this) (oralFormantCasc this) (nasalFormantPar this)
    (oralFormantPar this) (differencingFilterPar this) (random this).

Definition set_fricationSourcePar (v : LpNoiseSource) (this : Generator) : Generator :=
  Build_Generator (mParms this) (fParms this) (newFParms this) (fState this)
    (pState this) (absPosition this) (tiltFilter this) (outputLpFilter this)
    (flutterTimeOffset this) (impulsiveGSource this) (naturalGSource this)
    (glottalSource this) (aspirationSourceCasc this)
    (aspirationSourcePar this) v (nasalFormantCasc this)
    (nasalAntiformantCasc this) (oralFormantCasc this) (nasalFormantPar this)
    (oralFormantPar this) (differencingFilterPar this) (random this).

Definition set_nasalFormantCasc (v : Resonator) (this : Generator) : Generator :=
  Build_Generator (mParms this) (fParms this) (newFParms this) (fState this)
    (pState this) (absPosition this) (tiltFilter this) (outputLpFilter this)
    (flutterTimeOffset this) (impulsiveGSource this) (naturalGSource this)
    (glottalSource this) (aspirationSourceCasc this)
    (aspirationSourcePar this) (fricationSourcePar this) v
    (nasalAntiformantCasc this) (oralFormantCasc this) (nasalFormantPar this)
    (oralFormantPar this) (differencingFilterPar this) (random this).

Definition set_nasalAntiformantCasc (v : AntiResonator) (this : Generator) : Generator :=
  Build_Generator (mParms this) (fParms this) (newFParms this) (fState this)
    (pState this) (absPosition this) (tiltFilter this) (outputLpFilter this)
    (flutterTimeOffset this) (impulsiveGSource this) (naturalGSource this)
    (glottalSource this) (aspirationSourceCasc this)
    (aspirationSourcePar this) (fricationSourcePar this)
    (nasalFormantCasc this) v (oralFormantCasc this) (nasalFormantPar this)
    (oralFormantPar this) (differencingFilterPar this) (random this).

Definition set_oralFormantCasc (v : list Resonator) (this : Generator) : Generator :=
  Build_Generator (mParms this) (fParms this) (newFParms this) (fState this)
    (pState this) (absPosition this) (tiltFilter this) (outputLpFilter this)
    (flutterTimeOffset this) (impulsiveGSource this) (naturalGSource this)
    (glottalSource this) (aspirationSourceCasc this)
    (aspirationSourcePar this) (fricationSourcePar this)
    (nasalFormantCasc this) (nasalAntiformantCasc this) v
    (nasalFormantPar this) (oralFormantPar this) (differencingFilterPar this)
    (random this).

Definition set_nasalFormantPar (v : Resonator) (this : Generator) : Generator :=
  Build_Generator (mParms this) (fParms this) (newFParms this) (fState this)
    (pState this) (absPosition this) (tiltFilter this) (outputLpFilter this)
    (flutterTimeOffset this) (impulsiveGSource this) (naturalGSource this)
    (glottalSource this) (aspirationSourceCasc this)
    (aspirationSourcePar this) (fricationSourcePar this)
    (nasalFormantCasc this) (nasalAntiformantCasc this) (oralFormantCasc this)
    v (oralFormantPar this) (differencingFilterPar this) (random this).

Definition set_oralFormantPar (v : list Resonator) (this : Generator) : Generator :=
  Build_Generator (mParms this) (fParms this) (newFParms this) (fState this)
    (pState this) (absPosition this) (tiltFilter this) (outputLpFilter this)
    (flutterTimeOffset this) (impulsiveGSource this) (naturalGSource this)
    (glottalSource this) (aspirationSourceCasc this)
    (aspirationSourcePar this) (fricationSourcePar this)
    (nasalFormantCasc this) (nasalAntiformantCasc this) (oralFormantCasc this)
    (nasalFormantPar this) v (differencingFilterPar this) (random this).

Definition set_differencingFilterPar (v : DifferencingFilter) (this : Generator) : Generator :=
  Build_Generator (mParms this) (fParms this) (newFParms this) (fState this)
    (pState this) (absPosition this) (tiltFilter this) (outputLpFilter this)
    (flutterTimeOffset this) (impulsiveGSource this) (naturalGSource this)
    (glottalSource this) (aspirationSourceCasc this)
    (aspirationSourcePar this) (fricationSourcePar this)
    (nasalFormantCasc this) (nasalAntiformantCasc this) (oralFormantCasc this)
    (nasalFormantPar this) (oralFormantPar this) v (random this).

Definition set_random (v : Random) (this : Generator) : Generator :=
  Build_Generator (mParms this) (fParms this) (newFParms this) (fState this)
    (pState this) (absPosition this) (tiltFilter this) (outputLpFilter this)
    (flutterTimeOffset this) (impulsiveGSource this) (naturalGSource this)
    (glottalSource this) (aspirationSourceCasc this)
    (aspirationSourcePar this) (fricationSourcePar this)
    (nasalFormantCasc this) (nasalAntiformantCasc this) (oralFormantCasc this)
    (nasalFormantPar this) (oralFormantPar this) (differencingFilterPar this)
    v.

(** Assignments to the fields of [fState]. *)
Definition set_breathinessLin (v : num) (s : FrameState) : FrameState :=
  Build_FrameState v (gainLin s) (cascadeVoicingLin s)
    (cascadeAspirationLin s) (parallelVoicingLin s) (parallelAspirationLin s)
    (fricationLin s) (parallelBypassLin s).

Definition set_gainLin (v : num) (s : FrameState) : FrameState :=
  Build_FrameState (breathinessLin s) v (cascadeVoicingLin s)
    (cascadeAspirationLin s) (parallelVoicingLin s) (parallelAspirationLin s)
    (fricationLin s) (parallelBypassLin s).

Definition set_cascadeVoicingLin (v : num) (s : FrameState) : FrameState :=
  Build_FrameState (breathinessLin s) (gainLin s) v (cascadeAspirationLin s)
    (parallelVoicingLin s) (parallelAspirationLin s) (fricationLin s)
    (parallelBypassLin s).

Definition set_cascadeAspirationLin (v : num) (s : FrameState) : FrameState :=
  Build_FrameState (breathinessLin s) (gainLin s) (cascadeVoicingLin s) v
    (parallelVoicingLin s) (parallelAspirationLin s) (fricationLin s)
    (parallelBypassLin s).

Definition set_parallelVoicingLin (v : num) (s : FrameState) : FrameState :=
  Build_FrameState (breathinessLin s) (gainLin s) (cascadeVoicingLin s)
    (cascadeAspirationLin s) v (parallelAspirationLin s) (fricationLin s)
    (parallelBypassLin s).

Definition set_parallelAspirationLin (v : num) (s : FrameState) : FrameState :=
  Build_FrameState (breathinessLin s) (gainLin s) (cascadeVoicingLin s)
    (cascadeAspirationLin s) (parallelVoicingLin s) v (fricationLin s)
    (parallelBypassLin s).

Definition set_fricationLin (v : num) (s : FrameState) : FrameState :=
  Build_FrameState (breathinessLin s) (gainLin s) (cascadeVoicingLin s)
    (cascadeAspirationLin s) (parallelVoicingLin s) (parallelAspirationLin s)
    v (parallelBypassLin s).

Definition set_parallelBypassLin (v : num) (s : FrameState) : FrameState :=
  Build_FrameState (breathinessLin s) (gainLin s) (cascadeVoicingLin s)
    (cascadeAspirationLin s) (parallelVoicingLin s) (parallelAspirationLin s)
    (fricationLin s) v.

(** Reads a field that must hold an object. *)
Definition defined {S T : Type} (proj : S -> option T) : M S T :=
  fun s =>
    match proj s with
    | Some t => (Ok t, s)
    | None => (Throw TypeError, s)
    end.

(** Runs a method of the [i]-th element of an array field. *)
Definition zoomNth {St T A : Type} (proj : St -> list T)
    (upd : list T -> St -> St) (i : nat) (m : M T A) : M St A :=
  fun s =>
    match nth_error (proj s) i with
    | Some t =>
        let (r, t') := m t in
        (r, upd (firstn i (proj s) ++ t' :: skipn (S i) (proj s)) s)
    | None => (Throw TypeError, s)
    end.

(** Runs a method that draws random numbers on a component of the generator. *)
Definition withRandom {T A : Type} (proj : Generator -> T)
    (upd : T -> Generator -> Generator) (m : M (Random * T) A) : M Generator A :=
  zoom (fun this => (random this, proj this))
       (fun p this => set_random (fst p) (upd (snd p) this)) m.

(** [this.glottalSource()]. *)
Definition callGlottalSource : M Generator num :=
  glottalSource <- gets glottalSource ;;
  match glottalSource with
  | impulsiveGSource_getNext =>
      zoomOpt impulsiveGSource set_impulsiveGSource ImpulsiveGlottalSource_getNext
  | naturalGSource_getNext =>
      zoomOpt naturalGSource set_naturalGSource NaturalGlottalSource_getNext
  | getWhiteNoise_function =>
      zoom random set_random getWhiteNoise
  end.

Definition computeCascadeBranch (voice : num) : M Generator num :=
  fParms <- defined fParms ;;
  fState <- gets fState ;;
  pState <- defined pState ;;
  let cascadeVoice := voice * cascadeVoicingLin fState in
  let currentAspirationMod :=
    if positionInPeriod pState >=? periodLength pState / lit 2
    then cascadeAspirationMod fParms else lit 0 in
  n <- withRandom aspirationSourceCasc set_aspirationSourceCasc
         LpNoiseSource_getNext ;;
  let aspiration :=
    n * cascadeAspirationLin fState * (lit 1 - currentAspirationMod) in
  let v := cascadeVoice + aspiration in
  v <- zoom nasalAntiformantCasc set_nasalAntiformantCasc (AntiResonator_step v) ;;
  v <- zoom nasalFormantCasc set_nasalFormantCasc (Resonator_step v) ;;
  fold_left
    (fun acc i =>
       v <- acc ;;
       zoomNth oralFormantCasc set_oralFormantCasc i (Resonator_step v))
    (seq 0 maxOralFormants) (ret v).

Definition computeParallelBranch (voice : num) : M Generator num :=
  fParms <- defined fParms ;;
  fState <- gets fState ;;
  pState <- defined pState ;;
  let parallelVoice := voice * parallelVoicingLin fState in
  let currentAspirationMod :=
    if positionInPeriod pState >=? periodLength pState / lit 2
    then parallelAspirationMod fParms else lit 0 in
  n <- withRandom aspirationSourcePar set_aspirationSourcePar
         LpNoiseSource_getNext ;;
  let aspiration :=
    n * parallelAspirationLin fState * (lit 1 - currentAspirationMod) in
  let source := parallelVoice + aspiration in
  sourceDifference <-
    zoom differencingFilterPar set_differencingFilterPar
      (DifferencingFilter_step source) ;;
  let currentFricationMod :=
    if positionInPeriod pState >=? periodLength pState / lit 2
    then fricationMod fParms else lit 0 in
  n2 <- withRandom fricationSourcePar set_fricationSourcePar
          LpNoiseSource_getNext ;;
  let fricationNoise :=
    n2 * fricationLin fState * (lit 1 - currentFricationMod) in
  let source2 := sourceDifference + fricationNoise in
  let v := lit 0 in
  y <- zoom nasalFormantPar set_nasalFormantPar (Resonator_step source) ;;
  let v := v + y in
  y <- zoomNth oralFormantPar set_oralFormantPar 0 (Resonator_step source) ;;
  let v := v + y in
  v <- fold_left
         (fun acc i =>
            v <- acc ;;
            let alternatingSign := if Nat.eqb (i mod 2) 0 then lit 1 else lit (-1) in
            y <- zoomNth oralFormantPar set_oralFormantPar i (Resonator_step source2) ;;
            ret (v + alternatingSign * y))
         (seq 1 (maxOralFormants - 1)) (ret v) ;;
  let v := v + parallelBypassLin fState * source2 in
  ret v.

Definition computeNextOutputSignalSample : M Generator num :=
  voice <- callGlottalSource ;;
  voice <- zoom tiltFilter set_tiltFilter (LpFilter1_step voice) ;;
  fState <- gets fState ;;
  pState <- defined pState ;;
  voice <-
    (if positionInPeriod pState <? openPhaseLength pState
     then n <- zoom random set_random getWhiteNoise ;;
          ret (voice + n * breathinessLin fState)
     else ret voice) ;;
  fParms <- defined fParms ;;
  cascadeOut <-
    (if cascadeEnabled fParms then computeCascadeBranch voice else ret (lit 0)) ;;
  parallelOut <-
    (if parallelEnabled fParms then computeParallelBranch voice else ret (lit 0)) ;;
  let out := cascadeOut + parallelOut in
  out <- zoom outputLpFilter set_outputLpFilter (Resonator_step out) ;;
  let out := out * gainLin fState in
  ret out.

Definition setTiltFilter (tiltDb : num) : M LpFilter1 unit :=
  if negb (truthy tiltDb) then LpFilter1_setPassthrough
  else LpFilter1_set (lit 3000) (dbToLin (- tiltDb)) (lit 1).

Definition setNasalFormantCasc (fParms : FrameParms) : M Resonator unit :=
  if truthy (nasalFormantFreq fParms) && truthy (nasalFormantBw fParms)
  then Resonator_set (nasalFormantFreq fParms) (nasalFormantBw fParms) (lit 1)
  else Resonator_setPassthrough.

Definition setNasalAntiformantCasc (fParms : FrameParms) : M AntiResonator unit :=
  if truthy (nasalAntiformantFreq fParms) && truthy (nasalAntiformantBw fParms)
  then AntiResonator_set (nasalAntiformantFreq fParms) (nasalAntiformantBw fParms)
  else AntiResonator_setPassthrough.

Definition setOralFormantCasc (fParms : FrameParms) (i : nat) : M Resonator unit :=
  let f := nth i (oralFormantFreq fParms) NaN in
  let bw := nth i (oralFormantBw fParms) NaN in
  if truthy f && truthy bw then Resonator_set f bw (lit 1)
  else Resonator_setPassthrough.

Definition setNasalFormantPar (fParms : FrameParms) : M Resonator unit :=
  if truthy (nasalFormantFreq fParms) && truthy (nasalFormantBw fParms)
     && truthy (dbToLin (nasalFormantDb fParms))
  then
    Resonator_set (nasalFormantFreq fParms) (nasalFormantBw fParms) (lit 1) ;;
    Resonator_adjustPeakGain (dbToLin (nasalFormantDb fParms))
  else Resonator_setMute.

Definition setOralFormantPar (mParms : MainParms) (fParms : FrameParms) (i : nat)
    : M Resonator unit :=
  let formant := (i + 1)%nat in
  let f := nth i (oralFormantFreq fParms) NaN in
  let bw := nth i (oralFormantBw fParms) NaN in
  let db := nth i (oralFormantDb fParms) NaN in
  let peakGain := dbToLin db in
  if truthy f && truthy bw && truthy peakGain then
    Resonator_set f bw (lit 1) ;;
    let w := lit 2 * Math_PI * f / sampleRate mParms in
    let diffGain := Math_sqrt (lit 2 - lit 2 * Math_cos w) in
    let filterGain := if (2 <=? formant)%nat then peakGain / diffGain else peakGain in
    Resonator_adjustPeakGain filterGain
  else Resonator_setMute.

(** [fState.field = v]. *)
Definition assign_fState (upd : FrameState -> FrameState) : M Generator unit :=
  modify (fun this => set_fState (upd (fState this)) this).

Definition startUsingNewFrameParameters : M Generator unit :=
  this <- get ;;
  let mParms := mParms this in
  fParms <- defined fParms ;;
  assign_fState (set_breathinessLin (dbToLin (breathinessDb fParms))) ;;
  assign_fState (set_gainLin (dbToLin (gainDb fParms))) ;;
  zoom tiltFilter set_tiltFilter (setTiltFilter (tiltDb fParms)) ;;
  (* Adjust cascade branch: *)
  assign_fState (set_cascadeVoicingLin (dbToLin (cascadeVoicingDb fParms))) ;;
  assign_fState (set_cascadeAspirationLin (dbToLin (cascadeAspirationDb fParms))) ;;
  zoom nasalFormantCasc set_nasalFormantCasc (setNasalFormantCasc fParms) ;;
  zoom nasalAntiformantCasc set_nasalAntiformantCasc (setNasalAntiformantCasc fParms) ;;
  forEach (seq 0 maxOralFormants)
    (fun i => zoomNth oralFormantCasc set_oralFormantCasc i
                (setOralFormantCasc fParms i)) ;;
  (* Adjust parallel branch: *)
  assign_fState (set_parallelVoicingLin (dbToLin (parallelVoicingDb fParms))) ;;
  assign_fState (set_parallelAspirationLin (dbToLin (parallelAspirationDb fParms))) ;;
  assign_fState (set_fricationLin (dbToLin (fricationDb fParms))) ;;
  assign_fState (set_parallelBypassLin (dbToLin (parallelBypassDb fParms))) ;;
  zoom nasalFormantPar set_nasalFormantPar (setNasalFormantPar fParms) ;;
  forEach (seq 0 maxOralFormants)
    (fun i => zoomNth oralFormantPar set_oralFormantPar i
                (setOralFormantPar mParms fParms i)).

Definition startGlottalSourcePeriod : M Generator unit :=
  this <- get ;;
  match glottalSourceType (mParms this) with
  | 0%Z =>
      pState <- defined pState ;;
      zoomOpt impulsiveGSource set_impulsiveGSource
        (ImpulsiveGlottalSource_startPeriod (openPhaseLength pState))
  | 1%Z =>
      pState <- defined pState ;;
      zoomOpt naturalGSource set_naturalGSource
        (NaturalGlottalSource_startPeriod (openPhaseLength pState))
  | _ => ret tt
  end.

(** [<PeriodState>{}]. *)
Definition emptyPeriodState : PeriodState := {|
  ps_f0 := undefined;
  periodLength := undefined;
  openPhaseLength := undefined;
  positionInPeriod := undefined;
  lpNoise := undefined
|}.

(** The period length and the open phase length of a period whose modulated
    fundamental frequency is [f0m]. *)
Definition newPeriodLength (mParms : MainParms) (f0m : num) : num :=
  if f0m >? lit 0 then Math_round (sampleRate mParms / f0m) else lit 1.

Definition newOpenPhaseLength (fParms : FrameParms) (periodLength : num) : num :=
  if periodLength >? lit 1
  then Math_round (periodLength * openPhaseRatio fParms) else lit 0.

(** Starts a new F0 period. *)
Definition startNewPeriod : M Generator unit :=
  this <- get ;;
  match newFParms this with
  | Some p =>
      (* To reduce glitches, new frame parameters are only activated at the
         start of a new F0 period. *)
      modify (set_fParms (Some p)) ;;
      modify (set_newFParms None) ;;
      startUsingNewFrameParameters
  | None => ret tt
  end ;;
  this <- get ;;
  (when (match pState this with None => true | Some _ => false end) then
     modify (set_pState (Some emptyPeriodState))) ;;
  pState <- defined pState ;;
  this <- get ;;
  let mParms := mParms this in
  fParms <- defined fParms ;;
  let flutterTime := absPosition this / sampleRate mParms + flutterTimeOffset this in
  let f0m := performFrequencyModulation (f0 fParms) (flutterLevel fParms) flutterTime in
  let periodLength' := newPeriodLength mParms f0m in
  let openPhaseLength' := newOpenPhaseLength fParms periodLength' in
  modify (set_pState (Some {|
    ps_f0 := f0m;
    periodLength := periodLength';
    openPhaseLength := openPhaseLength';
    positionInPeriod := lit 0;
    lpNoise := lpNoise pState |})) ;;
  startGlottalSourcePeriod.

(** [initGlottalSource], called by the constructor: the sources it creates
    and the closure it stores in [glottalSource]. *)
Definition initGlottalSource (mParms : MainParms)
    : Outcome (option ImpulsiveGlottalSource * option NaturalGlottalSource
               * GlottalSourceFunction) :=
  match glottalSourceType mParms with
  | 0%Z =>
      Ok (Some (ImpulsiveGlottalSource_new (sampleRate mParms)), None,
          impulsiveGSource_getNext)
  | 1%Z =>
      Ok (None, Some NaturalGlottalSource_new, naturalGSource_getNext)
  | 2%Z =>
      Ok (None, None, getWhiteNoise_function)
  | _ => Throw UndefinedGlottalSourceType
  end.

(** [<FrameState>{}]. *)
Definition emptyFrameState : FrameState := {|
  breathinessLin := undefined;
  gainLin := undefined;
  cascadeVoicingLin := undefined;
  cascadeAspirationLin := undefined;
  parallelVoicingLin := undefined;
  parallelAspirationLin := undefined;
  fricationLin := undefined;
  parallelBypassLin := undefined
|}.

(** [new Generator(mParms)], in a realm whose [Math.random] is [rnd]. *)
Definition Generator_new (mParms : MainParms) (rnd : Random) : Outcome Generator :=
  let tiltFilter' := LpFilter1_new (sampleRate mParms) in
  let (x, rnd') := Math_random rnd in
  x <~ x ;;
  let flutterTimeOffset' := x * lit 1000 in
  outputLpFilter' <~
    construct (Resonator_new (sampleRate mParms))
      (Resonator_set (lit 0) (sampleRate mParms / lit 2) (lit 1)) ;;
  sources <~ initGlottalSource mParms ;;
  (* Create noise sources: *)
  aspirationSourceCasc' <~ LpNoiseSource_new (sampleRate mParms) ;;
  aspirationSourcePar' <~ LpNoiseSource_new (sampleRate mParms) ;;
  fricationSourcePar' <~ LpNoiseSource_new (sampleRate mParms) ;;
  Ok {|
    mParms := mParms;
    fParms := None;
    newFParms := None;
    fState := emptyFrameState;
    pState := None;
    absPosition := lit 0;
    tiltFilter := tiltFilter';
    outputLpFilter := outputLpFilter';
    flutterTimeOffset := flutterTimeOffset';
    impulsiveGSource := fst (fst sources);
    naturalGSource := snd (fst sources);
    glottalSource := snd sources;
    aspirationSourceCasc := aspirationSourceCasc';
    aspirationSourcePar := aspirationSourcePar';
    fricationSourcePar := fricationSourcePar';
    (* Initialize cascade branch variables: *)
    nasalFormantCasc := Resonator_new (sampleRate mParms);
    nasalAntiformantCasc := AntiResonator_new (sampleRate mParms);
    oralFormantCasc :=
      map (fun _ => Resonator_new (sampleRate mParms)) (seq 0 maxOralFormants);
    (* Initialize parallel branch variables: *)
    nasalFormantPar := Resonator_new (sampleRate mParms);
    oralFormantPar :=
      map (fun _ => Resonator_new (sampleRate mParms)) (seq 0 maxOralFormants);
    differencingFilterPar := DifferencingFilter_new;
    random := rnd'
  |}.

(* ------------------------------------------------------------------ *)
(** ** Output buffers *)

(** A [Float64Array], or a view of one made by [subarray]. *)
Definition Float64Array : Type := list num.

(** [new Float64Array(length)]: ToIndex of the length, then zeros. *)
Definition Float64Array_new (length : num) : Outcome Float64Array :=
  match ToIntegerOrInfinity length with
  | Int z =>
      if (0 <=? z)%Z && (z <=? 2 ^ 53 - 1)%Z
      then Ok (repeat (lit 0) (Z.to_nat z))
      else Throw RangeError
  | _ => Throw RangeError
  end.

(** [outBuf[i] = v]; a typed array ignores an index that is out of range. *)
Definition writeAt (i : nat) (v : num) (outBuf : Float64Array) : Float64Array :=
  if (i <? length outBuf)%nat
  then firstn i outBuf ++ v :: skipn (S i) outBuf
  else outBuf.

(** A relative index of [subarray], clamped to [0 .. len]. *)
Definition relativeIndex (len : nat) (x : num) : nat :=
  match ToIntegerOrInfinity x with
  | NegInfinity => 0%nat
  | PosInfinity => len
  | Int z =>
      if (z <? 0)%Z then Z.to_nat (Z.max (Z.of_nat len + z) 0)
      else Z.to_nat (Z.min z (Z.of_nat len))
  end.

(** The offset and the length of [outBuf.subarray(begin, end)]. *)
Definition subarray_range (len : nat) (begin end_ : num) : nat * nat :=
  let beginIndex := relativeIndex len begin in
  let endIndex := relativeIndex len end_ in
  (beginIndex, (endIndex - beginIndex)%nat).

(** Runs [m] on the view [outBuf.subarray(begin, end)]: the view shares the
    elements of [outBuf], so what [m] writes is written to [outBuf]. *)
Definition onSubarray {A : Type} (begin end_ : num)
    (m : M (Generator * Float64Array) A) : M (Generator * Float64Array) A :=
  fun s =>
    let outBuf := snd s in
    let (offset, len) := subarray_range (length outBuf) begin end_ in
    let (r, s') := m (fst s, firstn len (skipn offset outBuf)) in
    (r, (fst s', firstn offset outBuf ++ snd s' ++ skipn (offset + len) outBuf)).

(* ------------------------------------------------------------------ *)
(** ** Generating frames *)

Definition onGenerator {A : Type} (m : M Generator A)
    : M (Generator * Float64Array) A :=
  zoom fst (fun this s => (this, snd s)) m.

(** [!this.pState || this.pState.positionInPeriod >= this.pState.periodLength] *)
Definition atPeriodStart (this : Generator) : bool :=
  match pState this with
  | None => true
  | Some pState => positionInPeriod pState >=? periodLength pState
  end.

(** [pState.positionInPeriod++]. *)
Definition incrementPosition (pState : PeriodState) : PeriodState := {|
  ps_f0 := ps_f0 pState;
  periodLength := periodLength pState;
  openPhaseLength := openPhaseLength pState;
  positionInPeriod := positionInPeriod pState + lit 1;
  lpNoise := lpNoise pState
|}.

(** The body of the loop of [generateFrame]. *)
Definition generateFrame_sample (outPos : nat) : M (Generator * Float64Array) unit :=
  this <- gets fst ;;
  (when (atPeriodStart this) then onGenerator startNewPeriod) ;;
  v <- onGenerator computeNextOutputSignalSample ;;
  modify (fun s => (fst s, writeAt outPos v (snd s))) ;;
  onGenerator (zoomOpt pState set_pState (modify incrementPosition)) ;;
  onGenerator (modify (fun this => set_absPosition (absPosition this + lit 1) this)).

(** Generates a frame of the sound.  The length of the frame is specified by
    the length of [outBuf] and [duration] is ignored. *)
Definition generateFrame (parms : FrameParms) : M (Generator * Float64Array) unit :=
  s <- get ;;
  if sameObject parms (fParms (fst s)) then throw FrameParmsReused
  else
    onGenerator (modify (set_newFParms (Some parms))) ;;
    forEach (seq 0 (length (snd s))) generateFrame_sample.

(** The second loop of [generateSound]. *)
Fixpoint generateSound_frames (mParms : MainParms) (fParmsA : list FrameParms)
    (outBufPos : num) : M (Generator * Float64Array) unit :=
  match fParmsA with
  | [] => ret tt
  | parms :: rest =>
      let frameLen := Math_round (duration parms * sampleRate mParms) in
      onSubarray outBufPos (outBufPos + frameLen) (generateFrame parms) ;;
      generateSound_frames mParms rest (outBufPos + frameLen)
  end.

(** The first loop of [generateSound]. *)
Definition generateSound_length (mParms : MainParms) (fParmsA : list FrameParms) : num :=
  fold_left
    (fun outBufLen parms =>
       outBufLen + Math_round (duration parms * sampleRate mParms))
    fParmsA (lit 0).

(** Generates a sound that consists of multiple frames. *)
Definition generateSound (mParms : MainParms) (fParmsA : list FrameParms)
    (rnd : Random) : Outcome Float64Array :=
  generator <~ Generator_new mParms rnd ;;
  let outBufLen := generateSound_length mParms fParmsA in
  outBuf <~ Float64Array_new outBufLen ;;
  match generateSound_frames mParms fParmsA (lit 0) (generator, outBuf) with
  | (Ok _, s) => Ok (snd s)
  | (Throw e, _) => Throw e
  end.

End Program.

(* ================================================================== *)
(** * Concrete inputs *)

Definition omap {A B : Type} (f : A -> B) (o : Outcome A) : Outcome B :=
  match o with
  | Ok a => Ok (f a)
  | Throw e => Throw e
  end.

Section Inputs.

Context {N : JsNumber}.

(** The default frame parameters of the demo application
    ([src/DemoParms.ts]), as the object [id]. *)
Definition demoFrameParms (id : nat) : FrameParms := {|
  objectId := id;
  duration := lit 1;
  f0 := lit 247;
  flutterLevel := lit 0.25;
  openPhaseRatio := lit 0.7;
  breathinessDb := lit (-25);
  tiltDb := lit 0;
  gainDb := NaN;
  nasalFormantFreq := NaN;
  nasalFormantBw := NaN;
  oralFormantFreq := map lit [520; 1006; 2831; 3168; 4135; 5020];
  oralFormantBw := map lit [76; 102; 72; 102; 816; 596];
  cascadeEnabled := true;
  cascadeVoicingDb := lit 0;
  cascadeAspirationDb := lit (-25);
  cascadeAspirationMod := lit 0.5;
  nasalAntiformantFreq := NaN;
  nasalAntiformantBw := NaN;
  parallelEnabled := false;
  parallelVoicingDb := lit 0;
  parallelAspirationDb := lit (-25);
  parallelAspirationMod := lit 0.5;
  fricationDb := lit (-30);
  fricationMod := lit 0.5;
  parallelBypassDb := lit (-99);
  nasalFormantDb := NaN;
  oralFormantDb := map lit [0; -8; -15; -19; -30; -35]
|}.

(** Frame parameters that differ from [p] in the fields given. *)
Definition withPitch (f0' flutterLevel' : num) (p : FrameParms) : FrameParms :=
  Build_FrameParms (objectId p) (duration p) f0' flutterLevel' (openPhaseRatio p)
    (breathinessDb p) (tiltDb p) (gainDb p) (nasalFormantFreq p)
    (nasalFormantBw p) (oralFormantFreq p) (oralFormantBw p) (cascadeEnabled p)
    (cascadeVoicingDb p) (cascadeAspirationDb p) (cascadeAspirationMod p)
    (nasalAntiformantFreq p) (nasalAntiformantBw p) (parallelEnabled p)
    (parallelVoicingDb p) (parallelAspirationDb p) (parallelAspirationMod p)
    (fricationDb p) (fricationMod p) (parallelBypassDb p) (nasalFormantDb p)
    (oralFormantDb p).

Definition withDuration (duration' : num) (p : FrameParms) : FrameParms :=
  Build_FrameParms (objectId p) duration' (f0 p) (flutterLevel p) (openPhaseRatio p)
    (breathinessDb p) (tiltDb p) (gainDb p) (nasalFormantFreq p)
    (nasalFormantBw p) (oralFormantFreq p) (oralFormantBw p) (cascadeEnabled p)
    (cascadeVoicingDb p) (cascadeAspirationDb p) (cascadeAspirationMod p)
    (nasalAntiformantFreq p) (nasalAntiformantBw p) (parallelEnabled p)
    (parallelVoicingDb p) (parallelAspirationDb p) (parallelAspirationMod p)
    (fricationDb p) (fricationMod p) (parallelBypassDb p) (nasalFormantDb p)
    (oralFormantDb p).

(** The parallel branch alone, with the second oral formant as its only
    resonator that is not muted. *)
Definition withParallelF2 (p : FrameParms) : FrameParms :=
  Build_FrameParms (objectId p) (duration p) (f0 p) (flutterLevel p) (openPhaseRatio p)
    (breathinessDb p) (tiltDb p) (lit 0) (nasalFormantFreq p)
    (nasalFormantBw p) (oralFormantFreq p) (oralFormantBw p) false
    (cascadeVoicingDb p) (cascadeAspirationDb p) (cascadeAspirationMod p)
    (nasalAntiformantFreq p) (nasalAntiformantBw p) true
    (parallelVoicingDb p) (parallelAspirationDb p) (parallelAspirationMod p)
    (fricationDb p) (fricationMod p) (parallelBypassDb p) (nasalFormantDb p)
    [NaN; lit (-8)].

(** A [Math.random] that returns 3/4, 1/4, 3/4, 1/4, ... *)
Definition demoRandom : Random := {|
  rnd_values := fun n => lit (if Nat.even n then 3 # 4 else 1 # 4);
  rnd_drawn := 0
|}.

Definition demoMainParms (kind : GlottalSourceType) : MainParms := {|
  sampleRate := lit 44100;
  glottalSourceType := kind
|}.

(** [new Generator(mParms)] followed by one call of [generateFrame] with a
    fresh buffer of [n] samples. *)
Definition firstFrame (mParms : MainParms) (parms : FrameParms) (n : nat)
    : Outcome (Generator * Float64Array) :=
  (generator <~ Generator_new mParms demoRandom ;;
   match generateFrame parms (generator, repeat (lit 0) n) with
   | (Ok _, s) => Ok s
   | (Throw e, _) => Throw e
   end)%monad.

(** A further call of [generateFrame] with a fresh buffer of [n] samples. *)
Definition nextFrame (parms : FrameParms) (n : nat)
    (s : Outcome (Generator * Float64Array)) : Outcome (Generator * Float64Array) :=
  (s <~ s ;;
   match generateFrame parms (fst s, repeat (lit 0) n) with
   | (Ok _, s') => Ok s'
   | (Throw e, _) => Throw e
   end)%monad.

(** The caller assigns to [mParms.glottalSourceType], a field of the object
    that it shares with the generator. *)
Definition assign_glottalSourceType (kind : GlottalSourceType) (this : Generator)
    : Generator :=
  Build_Generator
    {| sampleRate := sampleRate (mParms this); glottalSourceType := kind |}
    (fParms this) (newFParms this) (fState this) (pState this)
    (absPosition this) (tiltFilter this) (outputLpFilter this)
    (flutterTimeOffset this) (impulsiveGSource this) (naturalGSource this)
    (glottalSource this) (aspirationSourceCasc this) (aspirationSourcePar this)
    (fricationSourcePar this) (nasalFormantCasc this) (nasalAntiformantCasc this)
    (oralFormantCasc this) (nasalFormantPar this) (oralFormantPar this)
    (differencingFilterPar this) (random this).

End Inputs.

(** Binary64 with the reference [Math] library. *)
Definition F64Ref : JsNumber := F64Number F64.refMath.

(* ================================================================== *)
(** * What the specification speaks of *)

Section Observations.

Context {N : JsNumber}.

Local Open Scope js_scope.

(** The coefficients and the mode of a filter, that is what [set],
    [setPassthrough], [setMute] and the gain adjustments assign; the delay
    line is not part of it. *)
Definition LpFilter1_coefficients (f : LpFilter1) : num * num * num * bool * bool :=
  (lp_sampleRate f, lp_a f, lp_b f, lp_passthrough f, lp_muted f).

Definition Resonator_coefficients (r : Resonator)
    : num * num * num * num * num * bool * bool :=
  (res_sampleRate r, res_a r, res_b r, res_c r, res_r r,
   res_passthrough r, res_muted r).

Definition AntiResonator_coefficients (r : AntiResonator)
    : num * num * num * num * bool * bool :=
  (ares_sampleRate r, ares_a r, ares_b r, ares_c r,
   ares_passthrough r, ares_muted r).

(** Everything that a period start installs in a generator: the active
    frame parameters, the frame state, the lengths of the period and the
    coefficients of every filter. *)
Record Installed : Type := {
  in_fParms : option FrameParms;
  in_fState : FrameState;
  in_period : option (num * num * num);
  in_tiltFilter : num * num * num * bool * bool;
  in_outputLpFilter : num * num * num * num * num * bool * bool;
  in_glottalResonator : option (option (num * num * num * num * num * bool * bool));
  in_naturalSource : option (num * num);
  in_noiseFilters : list (num * num * num * bool * bool);
  in_nasalFormantCasc : num * num * num * num * num * bool * bool;
  in_nasalAntiformantCasc : num * num * num * num * bool * bool;
  in_oralFormantCasc : list (num * num * num * num * num * bool * bool);
  in_nasalFormantPar : num * num * num * num * num * bool * bool;
  in_oralFormantPar : list (num * num * num * num * num * bool * bool)
}.

Definition installed (this : Generator) : Installed := {|
  in_fParms := fParms this;
  in_fState := fState this;
  in_period :=
    option_map (fun p => (ps_f0 p, periodLength p, openPhaseLength p)) (pState this);
  in_tiltFilter := LpFilter1_coefficients (tiltFilter this);
  in_outputLpFilter := Resonator_coefficients (outputLpFilter this);
  in_glottalResonator :=
    option_map (fun src => option_map Resonator_coefficients (igs_resonator src))
      (impulsiveGSource this);
  in_naturalSource :=
    option_map (fun src => (ngs_b src, ngs_openPhaseLength src)) (naturalGSource this);
  in_noiseFilters :=
    map (fun src => LpFilter1_coefficients (lpFilter src))
      [aspirationSourceCasc this; aspirationSourcePar this; fricationSourcePar this];
  in_nasalFormantCasc := Resonator_coefficients (nasalFormantCasc this);
  in_nasalAntiformantCasc := AntiResonator_coefficients (nasalAntiformantCasc this);
  in_oralFormantCasc := map Resonator_coefficients (oralFormantCasc this);
  in_nasalFormantPar := Resonator_coefficients (nasalFormantPar this);
  in_oralFormantPar := map Resonator_coefficients (oralFormantPar this)
|}.

(** The output of a filter for the input [x], by the filter function that
    the specification gives for its three modes. *)
Definition LpFilter1_output (f : LpFilter1) (x : num) : num :=
  if lp_passthrough f then x
  else if lp_muted f then lit 0
  else lp_a f * x + lp_b f * lp_y1 f.

Definition Resonator_output (r : Resonator) (x : num) : num :=
  if res_passthrough r then x
  else if res_muted r then lit 0
  else res_a r * x + res_b r * res_y1 r + res_c r * res_y2 r.

(** The [k]-th white noise sample that is going to be drawn. *)
Definition whiteNoiseAhead (rnd : Random) (k : nat) : num :=
  rnd_values rnd (rnd_drawn rnd + k) * lit 2 - lit 1.

(** A modulation factor applies in the second half of the period. *)
Definition modulationNow (p : PeriodState) (modulation : num) : num :=
  if positionInPeriod p >=? periodLength p / lit 2 then modulation else lit 0.

(** [source] of the parallel branch: the voice scaled by the parallel
    voicing plus the modulated aspiration noise. *)
Definition parallelSource (this : Generator) (parms : FrameParms)
    (p : PeriodState) (voice : num) : num :=
  voice * parallelVoicingLin (fState this)
  + LpFilter1_output (lpFilter (aspirationSourcePar this))
      (whiteNoiseAhead (random this) 0)
    * parallelAspirationLin (fState this)
    * (lit 1 - modulationNow p (parallelAspirationMod parms)).

(** [source2]: the first difference of [source] plus the modulated
    frication noise. *)
Definition parallelSource2 (this : Generator) (parms : FrameParms)
    (p : PeriodState) (source : num) : num :=
  (source - diff_x1 (differencingFilterPar this))
  + LpFilter1_output (lpFilter (fricationSourcePar this))
      (whiteNoiseAhead (random this) 1)
    * fricationLin (fState this)
    * (lit 1 - modulationNow p (fricationMod parms)).

(** [(-1)^k]. *)
Definition minusOneToThe (k : nat) : num := lit ((-1) ^ Z.of_nat k).

(** The output sum of the parallel branch, with the sign [sign i] on the
    oral formant of index [i], [1 <= i <= 5]: the terms are added from left
    to right, starting from 0. *)
Definition parallelSum (sign : nat -> num) (this : Generator)
    (source source2 : num) : num :=
  let oral i := Resonator_output (nth i (oralFormantPar this) (Resonator_new NaN)) in
  fold_left add
    ([Resonator_output (nasalFormantPar this) source; oral 0%nat source]
     ++ map (fun i => sign i * oral i source2) (seq 1 5)
     ++ [parallelBypassLin (fState this) * source2])
    (lit 0).




(** The output sum for the voice sample [voice], in the state [this]. *)
Definition parallelSumOf (sign : nat -> num) (this : Generator) (voice : num)
    : option num :=
  match fParms this, pState this with
  | Some parms, Some p =>
      let source := parallelSource this parms p voice in
      Some (parallelSum sign this source (parallelSource2 this parms p source))
  | _, _ => None
  end.

(** [n] iterations of the loop of [generateFrame], from [outPos] on. *)
Definition generateFrame_loop (outPos n : nat) : M (Generator * Float64Array) unit :=
  forEach (seq outPos n) generateFrame_sample.

(** None of the next [n] iterations starts a new period. *)
Fixpoint withinPeriod (n outPos : nat) (s : Generator * Float64Array) : bool :=
  match n with
  | O => true
  | S n' =>
      negb (atPeriodStart (fst s))
      && withinPeriod n' (S outPos) (snd (generateFrame_sample outPos s))
  end.

(* ------------------------------------------------------------------ *)
(** ** Predicates on methods *)

(** The method [m] never throws the error [e]. *)
Definition neverThrows {S A : Type} (e : Error) (m : M S A) : Prop :=
  forall s, fst (m s) <> Throw e.

(** The method [m] leaves the observation [obs] of its state as it is. *)
Definition keeps {S A B : Type} (obs : S -> B) (m : M S A) : Prop :=
  forall s, obs (snd (m s)) = obs s.

(** [m] runs the same whatever [newFParms] holds, leaves [newFParms] as it
    is, and leaves what is installed as it is. *)
Definition quiet {A : Type} (m : M Generator A) : Prop :=
  forall (this : Generator) (x : option FrameParms),
    m (set_newFParms x this) = (fst (m this), set_newFParms x (snd (m this)))
    /\ installed (snd (m this)) = installed this.

(** The same for the methods that also write to the output buffer. *)
Definition quietFrame {A : Type} (m : M (Generator * Float64Array) A) : Prop :=
  forall (this : Generator) (outBuf : Float64Array) (x : option FrameParms),
    let r := m (this, outBuf) in
    m (set_newFParms x this, outBuf)
    = (fst r, (set_newFParms x (fst (snd r)), snd (snd r)))
    /\ installed (fst (snd r)) = installed this.

(** The loop body of [generateFrame] after its test for a period start. *)
Definition sampleTail (outPos : nat) : M (Generator * Float64Array) unit :=
  (v <- onGenerator computeNextOutputSignalSample ;;
   modify (fun s => (fst s, writeAt outPos v (snd s))) ;;
   onGenerator (zoomOpt pState set_pState (modify incrementPosition)) ;;
   onGenerator (modify (fun this => set_absPosition (absPosition this + lit 1) this)))%monad.

(** What [startNewPeriod] assigns to [pState]. *)
Definition scheduled (this : Generator) : Prop :=
  exists (parms : FrameParms) (p : PeriodState),
    fParms this = Some parms
    /\ pState this = Some p
    /\ ps_f0 p
       = performFrequencyModulation (f0 parms) (flutterLevel parms)
           (absPosition this / sampleRate (mParms this) + flutterTimeOffset this)
    /\ periodLength p = newPeriodLength (mParms this) (ps_f0 p)
    /\ openPhaseLength p = newOpenPhaseLength parms (periodLength p)
    /\ positionInPeriod p = lit 0.

(** What is installed apart from the period and the glottal source, which
    every period start sets anew. *)
Definition withoutPeriod (i : Installed) : Installed := {|
  in_fParms := in_fParms i;
  in_fState := in_fState i;
  in_period := None;
  in_tiltFilter := in_tiltFilter i;
  in_outputLpFilter := in_outputLpFilter i;
  in_glottalResonator := None;
  in_naturalSource := None;
  in_noiseFilters := in_noiseFilters i;
  in_nasalFormantCasc := in_nasalFormantCasc i;
  in_nasalAntiformantCasc := in_nasalAntiformantCasc i;
  in_oralFormantCasc := in_oralFormantCasc i;
  in_nasalFormantPar := in_nasalFormantPar i;
  in_oralFormantPar := in_oralFormantPar i
|}.

(** The generator [after] holds what the frame parameters [parms] determine
    for the generator [before]: the linear values of the levels of [parms]
    in the frame state, and in every filter that the frame parameters set
    the coefficients that its setter computes from [parms]; the output
    filter and the noise filters are as in [before]. *)
Definition adopted (parms : FrameParms) (before after : Generator) : Prop :=
  let now := installed after in
  in_fState now
  = {| breathinessLin := dbToLin (breathinessDb parms);
       gainLin := dbToLin (gainDb parms);
       cascadeVoicingLin := dbToLin (cascadeVoicingDb parms);
       cascadeAspirationLin := dbToLin (cascadeAspirationDb parms);
       parallelVoicingLin := dbToLin (parallelVoicingDb parms);
       parallelAspirationLin := dbToLin (parallelAspirationDb parms);
       fricationLin := dbToLin (fricationDb parms);
       parallelBypassLin := dbToLin (parallelBypassDb parms) |}
  /\ in_tiltFilter now
     = LpFilter1_coefficients
         (snd (setTiltFilter (tiltDb parms) (tiltFilter before)))
  /\ in_nasalFormantCasc now
     = Resonator_coefficients
         (snd (setNasalFormantCasc parms (nasalFormantCasc before)))
  /\ in_nasalAntiformantCasc now
     = AntiResonator_coefficients
         (snd (setNasalAntiformantCasc parms (nasalAntiformantCasc before)))
  /\ in_nasalFormantPar now
     = Resonator_coefficients
         (snd (setNasalFormantPar parms (nasalFormantPar before)))
  /\ (forall i : nat,
        (i < maxOralFormants)%nat ->
        exists r : Resonator,
          nth_error (oralFormantCasc before) i = Some r
          /\ nth_error (in_oralFormantCasc now) i
             = Some (Resonator_coefficients
                       (snd (setOralFormantCasc parms i r))))
  /\ (forall i : nat,
        (i < maxOralFormants)%nat ->
        exists r : Resonator,
          nth_error (oralFormantPar before) i = Some r
          /\ nth_error (in_oralFormantPar now) i
             = Some (Resonator_coefficients
                       (snd (setOralFormantPar (mParms before) parms i r))))
  /\ in_outputLpFilter now = in_outputLpFilter (installed before)
  /\ in_noiseFilters now = in_noiseFilters (installed before).

End Observations.

(* ================================================================== *)
(** * The transfer function *)

(** [Math.abs], which only the polynomial arithmetic calls. *)
Class JsMathAbs (N : JsNumber) : Type := {
  Math_abs : num -> num
}.

Definition F64Abs (M : MathLib float) : JsMathAbs (F64Number M) :=
  @Build_JsMathAbs (F64Number M) PrimFloat.abs.

(** The errors of the transfer function code: its own, "Zero length
    arrays.", and the ones that the filter setters throw. *)
Inductive TransferError : Type :=
| ZeroLengthArrays
| Raised (e : Error).

Inductive Result (A : Type) : Type :=
| Returned (a : A)
| Failed (e : TransferError).

Arguments Returned {A} a.
Arguments Failed {A} e.

Definition rbind {A B : Type} (r : Result A) (k : A -> Result B) : Result B :=
  match r with
  | Returned a => k a
  | Failed e => Failed e
  end.

(** The outcome of a constructor or a method, among these results. *)
Definition raise {A : Type} (o : Outcome A) : Result A :=
  match o with
  | Ok a => Returned a
  | Throw e => Failed (Raised e)
  end.

Notation "x <~~ r ;; k" := (rbind r (fun x => k))
  (at level 61, r at next level, right associativity) : monad_scope.

Section TransferFunction.

Context {N : JsNumber} {A : JsMathAbs N}.

Local Open Scope js_scope.
Local Open Scope monad_scope.

(** A polynomial: its coefficients, ordered in ascending powers.  A rational
    fraction is an array of two polynomials, top and bottom. *)
Definition Poly : Type := list num.
Definition Fraction : Type := list Poly.

(** The element [i] of an array of numbers, read as a number. *)
Definition coefficient (a : Poly) (i : nat) : num := nth i a undefined.

(** The element [i] of a fraction, whose [length] is read next. *)
Definition polyOf (f : Fraction) (i : nat) : Result Poly :=
  match nth_error f i with
  | Some a => Returned a
  | None => Failed (Raised TypeError)
  end.

(** Returns the polynomial coefficients of the filter transfer function in
    the z-plane: the top and bottom coefficients of the rational fraction. *)
Definition LpFilter1_getTransferFunctionCoefficients (this : LpFilter1) : Fraction :=
  if lp_passthrough this then [[lit 1]; [lit 1]]
  else if lp_muted this then [[lit 0]; [lit 1]]
  else [[lp_a this]; [lit 1; - lp_b this]].

Definition Resonator_getTransferFunctionCoefficients (this : Resonator) : Fraction :=
  if res_passthrough this then [[lit 1]; [lit 1]]
  else if res_muted this then [[lit 0]; [lit 1]]
  else [[res_a this]; [lit 1; - res_b this; - res_c this]].

Definition AntiResonator_getTransferFunctionCoefficients (this : AntiResonator)
    : Fraction :=
  if ares_passthrough this then [[lit 1]; [lit 1]]
  else if ares_muted this then [[lit 0]; [lit 1]]
  else [[ares_a this; ares_b this; ares_c this]; [lit 1]].

Definition DifferencingFilter_getTransferFunctionCoefficients
    (this : DifferencingFilter) : Fraction :=
  [[lit 1; lit (-1)]; [lit 1]].

(* ------------------------------------------------------------------ *)
(** ** Polynomial arithmetic *)

(** Adds two real polynomials. *)
Definition addPoly (a1 a2 : Poly) : Poly :=
  let n1 := (Z.of_nat (length a1) - 1)%Z in
  let n2 := (Z.of_nat (length a2) - 1)%Z in
  let n3 := Z.max n1 n2 in
  map (fun i =>
         let v1 := if (Z.of_nat i <=? n1)%Z then coefficient a1 i else lit 0 in
         let v2 := if (Z.of_nat i <=? n2)%Z then coefficient a2 i else lit 0 in
         v1 + v2)
      (seq 0 (Z.to_nat (n3 + 1))).

(** Multiplies two real polynomials. *)
Definition multiplyPoly (a1 a2 : Poly) : Result Poly :=
  if Nat.eqb (length a1) 0 || Nat.eqb (length a2) 0 then Failed ZeroLengthArrays
  else if Nat.eqb (length a1) 1 && (coefficient a1 0 ==? lit 0)
          || Nat.eqb (length a2) 1 && (coefficient a2 0 ==? lit 0)
  then Returned [lit 0]
  else
    let n1 := (length a1 - 1)%nat in
    let n2 := (length a2 - 1)%nat in
    let n3 := (n1 + n2)%nat in
    Returned
      (map (fun i =>
              let p1 := Nat.max 0 (i - n2) in
              let p2 := Nat.min n1 i in
              fold_left
                (fun t j => t + coefficient a1 j * coefficient a2 (i - j))
                (seq p1 (S p2 - p1)) (lit 0))
           (seq 0 (S n3))).

(** Returns [true] if two polynomials are equal. *)
Definition equalsPoly (a1 a2 : Poly) (eps : num) : bool :=
  let n1 := (Z.of_nat (length a1) - 1)%Z in
  let n2 := (Z.of_nat (length a2) - 1)%Z in
  let n := Z.max n1 n2 in
  forallb (fun i =>
             let v1 := if (Z.of_nat i <=? n1)%Z then coefficient a1 i else lit 0 in
             let v2 := if (Z.of_nat i <=? n2)%Z then coefficient a2 i else lit 0 in
             negb (Math_abs (v1 - v2) >? eps))
          (seq 0 (Z.to_nat (n + 1))).

(** Adds two rational algebraic fractions. *)
Definition addFractions (f1 f2 : Fraction) : Result Fraction :=
  bottom1 <~~ polyOf f1 1 ;;
  bottom2 <~~ polyOf f2 1 ;;
  if equalsPoly bottom1 bottom2 (lit 0) then
    (* if same denominator, add numerators *)
    top1 <~~ polyOf f1 0 ;;
    top2 <~~ polyOf f2 0 ;;
    Returned [addPoly top1 top2; bottom1]
  else
    top1 <~~ polyOf f1 0 ;;
    t1 <~~ multiplyPoly top1 bottom2 ;;
    top2 <~~ polyOf f2 0 ;;
    t2 <~~ multiplyPoly top2 bottom1 ;;
    let top := addPoly t1 t2 in
    bottom <~~ multiplyPoly bottom1 bottom2 ;;
    Returned [top; bottom].

(** [multiplyPoly(f1[i], f2[j])] where the elements may be [undefined]:
    [multiplyPoly] reads [a1.length], throws for an empty [a1], and only
    then reads [a2.length]. *)
Definition multiplyPolyOf (f1 : Fraction) (i : nat) (f2 : Fraction) (j : nat)
    : Result Poly :=
  a1 <~~ polyOf f1 i ;;
  if Nat.eqb (length a1) 0 then Failed ZeroLengthArrays
  else
    a2 <~~ polyOf f2 j ;;
    multiplyPoly a1 a2.

(** Multiplies two rational algebraic fractions. *)
Definition multiplyFractions (f1 f2 : Fraction) : Result Fraction :=
  top <~~ multiplyPolyOf f1 0 f2 0 ;;
  bottom <~~ multiplyPolyOf f1 1 f2 1 ;;
  Returned [top; bottom].

(* ------------------------------------------------------------------ *)
(** ** The transfer function of the vocal tract *)

Definition getCascadeBranchTransferFunctionCoefficients (mParms : MainParms)
    (fParms : FrameParms) : Result Fraction :=
  let cascadeVoicingLin := dbToLin (cascadeVoicingDb fParms) in
  let v := [[cascadeVoicingLin]; [lit 1]] in
  nasalAntiformantCasc <~~
    raise (construct (AntiResonator_new (sampleRate mParms))
             (setNasalAntiformantCasc fParms)) ;;
  let nasalAntiformantTrans :=
    AntiResonator_getTransferFunctionCoefficients nasalAntiformantCasc in
  v <~~ multiplyFractions v nasalAntiformantTrans ;;
  nasalFormantCasc <~~
    raise (construct (Resonator_new (sampleRate mParms))
             (setNasalFormantCasc fParms)) ;;
  let nasalFormantTrans :=
    Resonator_getTransferFunctionCoefficients nasalFormantCasc in
  v <~~ multiplyFractions v nasalFormantTrans ;;
  fold_left
    (fun acc i =>
       v <~~ acc ;;
       oralFormantCasc <~~
         raise (construct (Resonator_new (sampleRate mParms))
                  (setOralFormantCasc fParms i)) ;;
       let oralFormantCascTrans :=
         Resonator_getTransferFunctionCoefficients oralFormantCasc in
       multiplyFractions v oralFormantCascTrans)
    (seq 0 maxOralFormants) (Returned v).

Definition getParallelBranchTransferFunctionCoefficients (mParms : MainParms)
    (fParms : FrameParms) : Result Fraction :=
  let parallelVoicingLin := dbToLin (parallelVoicingDb fParms) in
  let source := [[parallelVoicingLin]; [lit 1]] in
  let differencingFilterPar := DifferencingFilter_new in
  let differencingFilterTrans :=
    DifferencingFilter_getTransferFunctionCoefficients differencingFilterPar in
  source2 <~~ multiplyFractions source differencingFilterTrans ;;
  let v := [[lit 0]; [lit 1]] in
  nasalFormantPar <~~
    raise (construct (Resonator_new (sampleRate mParms))
             (setNasalFormantPar fParms)) ;;
  let nasalFormantTrans :=
    Resonator_getTransferFunctionCoefficients nasalFormantPar in
  nasalOut <~~ multiplyFractions source nasalFormantTrans ;;
  v <~~ addFractions v nasalOut ;;
  v <~~ fold_left
          (fun acc i =>
             v <~~ acc ;;
             oralFormantPar <~~
               raise (construct (Resonator_new (sampleRate mParms))
                        (setOralFormantPar mParms fParms i)) ;;
             let oralFormantTrans :=
               Resonator_getTransferFunctionCoefficients oralFormantPar in
             (* F1 is applied to source, F2 to F6 are applied to difference *)
             let formantIn := if Nat.eqb i 0 then source else source2 in
             formantOut <~~ multiplyFractions formantIn oralFormantTrans ;;
             let alternatingSign :=
               if Nat.eqb (i mod 2) 0 then lit 1 else lit (-1) in
             v2 <~~ multiplyFractions formantOut [[alternatingSign]; [lit 1]] ;;
             addFractions v v2)
          (seq 0 maxOralFormants) (Returned v) ;;
  let parallelBypassLin := dbToLin (parallelBypassDb fParms) in
  (* bypass is applied to source difference *)
  parallelBypass <~~ multiplyFractions source2 [[parallelBypassLin]; [lit 1]] ;;
  addFractions v parallelBypass.

(** Returns the polynomial coefficients of the overall filter transfer
    function in the z-plane. *)
Definition getVocalTractTransferFunctionCoefficients (mParms : MainParms)
    (fParms : FrameParms) : Result Fraction :=
  let voice := [[lit 1]; [lit 1]] in  (* glottal source *)
  tiltFilter <~~
    raise (construct (LpFilter1_new (sampleRate mParms))
             (setTiltFilter (tiltDb fParms))) ;;
  let tiltTrans := LpFilter1_getTransferFunctionCoefficients tiltFilter in
  voice <~~ multiplyFractions voice tiltTrans ;;
  cascadeTrans <~~
    (if cascadeEnabled fParms
     then getCascadeBranchTransferFunctionCoefficients mParms fParms
     else Returned [[lit 0]; [lit 1]]) ;;
  parallelTrans <~~
    (if parallelEnabled fParms
     then getParallelBranchTransferFunctionCoefficients mParms fParms
     else Returned [[lit 0]; [lit 1]]) ;;
  cascadeOut <~~ multiplyFractions voice cascadeTrans ;;
  parallelOut <~~ multiplyFractions voice parallelTrans ;;
  out <~~ addFractions cascadeOut parallelOut ;;
  outputLpFilter <~~
    raise (construct (Resonator_new (sampleRate mParms))
             (Resonator_set (lit 0) (sampleRate mParms / lit 2) (lit 1))) ;;
  let outputLpTrans := Resonator_getTransferFunctionCoefficients outputLpFilter in
  out <~~ multiplyFractions out outputLpTrans ;;
  let gainLin := dbToLin (gainDb fParms) in
  multiplyFractions out [[gainLin]; [lit 1]].

End TransferFunction.

(* ================================================================== *)
(** * What the further properties speak of *)

Section Invariants.
Context {N : JsNumber}.
Local Open Scope js_scope.

(** A field holds an object, not [undefined]. *)
Definition isDefined {T : Type} (o : option T) : bool :=
  match o with Some _ => true | None => false end.

(** What the constructor wires and no method rewires: which closure
    [glottalSource] is, which glottal source objects exist, and the lengths
    of the two arrays of oral formant filters. *)
Definition wiring (this : Generator)
    : GlottalSourceFunction * bool * bool * nat * nat :=
  (glottalSource this, isDefined (impulsiveGSource this),
   isDefined (naturalGSource this), length (oralFormantCasc this),
   length (oralFormantPar this)).

(** The object that [glottalSource] calls exists and both arrays hold
    [maxOralFormants] filters. *)
Definition wired (w : GlottalSourceFunction * bool * bool * nat * nat) : bool :=
  let '(source, hasImpulsive, hasNatural, nCasc, nPar) := w in
  match source with
  | impulsiveGSource_getNext => hasImpulsive
  | naturalGSource_getNext => hasNatural
  | getWhiteNoise_function => true
  end
  && Nat.eqb nCasc maxOralFormants && Nat.eqb nPar maxOralFormants.

(** A generator as the constructor and [generateFrame] leave it: wired, and
    with active frame parameters whenever it has a period state. *)
Definition assembled (this : Generator) : bool :=
  wired (wiring this)
  && implb (isDefined (pState this)) (isDefined (fParms this)).

(** The generators that a caller can hold: the one the constructor returned,
    and the one a call of [generateFrame] leaves, whether it returned or
    threw. *)
Inductive Reachable (mp : MainParms) (rnd : Random) : Generator -> Prop :=
| Reachable_new (this : Generator) :
    Generator_new mp rnd = Ok this -> Reachable mp rnd this
| Reachable_frame (this : Generator) (parms : FrameParms) (outBuf : Float64Array) :
    Reachable mp rnd this ->
    Reachable mp rnd (fst (snd (generateFrame parms (this, outBuf)))).

(** From every state that satisfies [P] the method [m] returns, and it leaves
    a state that satisfies [P]. *)
Definition returnsFrom {S A : Type} (P : S -> Prop) (m : M S A) : Prop :=
  forall s, P s -> (exists a, fst (m s) = Ok a) /\ P (snd (m s)).

(** The method [m] leaves a state that satisfies [P] when it started in one,
    whether it returns or throws. *)
Definition preserves {S A : Type} (P : S -> Prop) (m : M S A) : Prop :=
  forall s, P s -> P (snd (m s)).

(** A sample that is [0], [-0] or [NaN]. *)
Definition silent (v : num) : bool := isNaN v || (v ==? lit 0).

(** Frame parameters whose gain [dbToLin] converts to 0. *)
Definition zeroGain (parms : FrameParms) : bool :=
  (gainDb parms <=? lit (-99)) || isNaN (gainDb parms).

(** A generator that is assembled and within a period. *)
Definition running (this : Generator) : Prop :=
  assembled this = true /\ pState this <> None.

(** What no method of the generator changes, and the sample computation
    neither: the wiring, both parameter objects, and whether there is a
    period state. *)
Definition frameOf (this : Generator) :=
  (wiring this, fParms this, newFParms this, isDefined (pState this)).

(** Between the assignment of [newFParms] and the end of [generateFrame]:
    there are active parameters, or no period has started and parameters are
    pending. *)
Definition supplied (this : Generator) : Prop :=
  fParms this <> None \/ (pState this = None /\ newFParms this <> None).

(** The generator multiplies by 0, or is about to adopt [parms]. *)
Definition gainIsZero (parms : FrameParms) (this : Generator) : Prop :=
  (gainLin (fState this) = lit 0
   /\ (newFParms this = None \/ newFParms this = Some parms))
  \/ (atPeriodStart this = true /\ newFParms this = Some parms).

(** The glottal source object that [startGlottalSourcePeriod] calls for the
    glottal source type of [mParms] exists. *)
Definition sourcesExist (this : Generator) : bool :=
  match glottalSourceType (mParms this) with
  | 0%Z => isDefined (impulsiveGSource this)
  | 1%Z => isDefined (naturalGSource this)
  | _ => true
  end.

(** From a state that satisfies [P] the method [m] returns and leaves a
    state that satisfies [P], or it throws an error that satisfies [E]. *)
Definition errorsOnly {S A : Type} (E : Error -> Prop) (P : S -> Prop) (m : M S A)
    : Prop :=
  forall s, P s ->
    match fst (m s) with
    | Ok _ => P (snd (m s))
    | Throw e => E e
    end.

(** Both arrays of oral formant filters hold [maxOralFormants] filters. *)
Definition formantsExist (this : Generator) : Prop :=
  length (oralFormantCasc this) = maxOralFormants
  /\ length (oralFormantPar this) = maxOralFormants.

(** What the start of a period needs: active parameters, the filters of the
    oral formants and the glottal source object. *)
Definition ready (this : Generator) : Prop :=
  fParms this <> None /\ formantsExist this /\ sourcesExist this = true.

(** Between two iterations of the loop of [generateFrame], on a generator
    that the constructor returned. *)
Definition steady (this : Generator) : Prop :=
  assembled this = true /\ sourcesExist this = true /\ supplied this.

End Invariants.

(* ------------------------------------------------------------------ *)
(** ** What the transfer function code is observed by *)

Section TransferObservations.

Context {N : JsNumber} {A : JsMathAbs N}.

Local Open Scope js_scope.

(** A fraction as the code builds them: a top and a bottom polynomial, each
    with at least one coefficient. *)
Definition wellFormed (f : Fraction) : Prop :=
  exists top bottom : Poly, f = [top; bottom] /\ top <> [] /\ bottom <> [].

(** The errors of the filter setters. *)
Definition filterError (e : Error) : Prop :=
  e = InvalidFilterParameters \/ e = InvalidResonatorParameters
  \/ e = InvalidAntiResonatorParameters \/ e = InvalidResonatorPeakGain.

(** A result that satisfies [P], or an error of a filter setter. *)
Definition returnedOrFilterError {T : Type} (P : T -> Prop) (r : Result T) : Prop :=
  match r with
  | Returned t => P t
  | Failed x => exists e : Error, x = Raised e /\ filterError e
  end.

End TransferObservations.

(* ------------------------------------------------------------------ *)
(** ** Further inputs *)

Section MoreInputs.

Context {N : JsNumber}.

(** Frame parameters that differ from [p] in the oral formant
    frequencies. *)
Definition withOralFormantFreq (freqs : list num) (p : FrameParms) : FrameParms :=
  Build_FrameParms (objectId p) (duration p) (f0 p) (flutterLevel p) (openPhaseRatio p)
    (breathinessDb p) (tiltDb p) (gainDb p) (nasalFormantFreq p)
    (nasalFormantBw p) freqs (oralFormantBw p) (cascadeEnabled p)
    (cascadeVoicingDb p) (cascadeAspirationDb p) (cascadeAspirationMod p)
    (nasalAntiformantFreq p) (nasalAntiformantBw p) (parallelEnabled p)
    (parallelVoicingDb p) (parallelAspirationDb p) (parallelAspirationMod p)
    (fricationDb p) (fricationMod p) (parallelBypassDb p) (nasalFormantDb p)
    (oralFormantDb p).

End MoreInputs.

(* ================================================================== *)
(** * Properties *)

Ltac unfold_monad :=
  unfold onRandom, onThis, withRandom, onGenerator in *;
  unfold bind, ret, get, gets, modify, throw, zoom, zoomOpt, zoomNth, defined,
    obind, construct in *.

Section FilterProperties.

Context {N : JsNumber}.

Local Open Scope js_scope.

(** C10. [adjustImpulseGain] accepts every number: it returns normally,
    assigns [newA] to the coefficient [a] and leaves [b], [c], [y1], [y2],
    [r], the sample rate and both mode flags as they were; [adjustPeakGain]
    on the other hand throws, and changes nothing, when the gain is not
    positive or not finite. *)
Theorem adjustImpulseGain_assigns_only_a :
  forall (this : Resonator) (newA : num),
    let result := Resonator_adjustImpulseGain newA this in
    fst result = Ok tt
    /\ res_a (snd result) = newA
    /\ res_b (snd result) = res_b this
    /\ res_c (snd result) = res_c this
    /\ res_y1 (snd result) = res_y1 this
    /\ res_y2 (snd result) = res_y2 this
    /\ res_r (snd result) = res_r this
    /\ res_sampleRate (snd result) = res_sampleRate this
    /\ res_passthrough (snd result) = res_passthrough this
    /\ res_muted (snd result) = res_muted this
    /\ (forall peakGain : num,
          (peakGain <=? lit 0) || negb (isFinite peakGain) = true ->
          Resonator_adjustPeakGain peakGain this
          = (Throw InvalidResonatorPeakGain, this)).
Proof.
  intros this newA result. subst result.
  unfold Resonator_adjustImpulseGain, Resonator_adjustPeakGain, modify.
  cbn [fst snd Resonator_with_a res_a res_b res_c res_y1 res_y2 res_r
       res_sampleRate res_passthrough res_muted].
  repeat split.
  intros peakGain Hbad. now rewrite Hbad.
Qed.

(** C7, what the code does.  When [set(f, bw)] returns:
    - if [a0] is not 0, the coefficients are [a = 1/a0], [b = -b0/a0],
      [c = -c0/a0], both mode flags are cleared, and a step computes
      [a*x + b*x1 + c*x2] from the input and the two inputs before it;
    - if [a0] is 0, the coefficients are 0 and both mode flags stay as they
      were: a filter that was muted emits 0, and a filter that was in
      passthrough mode still returns its input. *)
Theorem AntiResonator_set_cases :
  forall (this : AntiResonator) (f bw : num),
    fst (AntiResonator_set f bw this) = Ok tt ->
    let fs := ares_sampleRate this in
    let a0 := AntiResonator_a0 fs f bw in
    let this' := snd (AntiResonator_set f bw this) in
    ares_x1 this' = ares_x1 this
    /\ ares_x2 this' = ares_x2 this
    /\ ((a0 ==? lit 0) = false ->
        ares_a this' = lit 1 / a0
        /\ ares_b this' = - AntiResonator_b0 fs f bw / a0
        /\ ares_c this' = - AntiResonator_c0 fs bw / a0
        /\ ares_passthrough this' = false
        /\ ares_muted this' = false
        /\ forall x : num,
             let result := AntiResonator_step x this' in
             fst result
             = Ok (ares_a this' * x + ares_b this' * ares_x1 this
                   + ares_c this' * ares_x2 this)
             /\ ares_x1 (snd result) = x
             /\ ares_x2 (snd result) = ares_x1 this)
    /\ ((a0 ==? lit 0) = true ->
        ares_a this' = lit 0
        /\ ares_b this' = lit 0
        /\ ares_c this' = lit 0
        /\ ares_passthrough this' = ares_passthrough this
        /\ ares_muted this' = ares_muted this
        /\ (ares_passthrough this = true ->
            forall x : num, AntiResonator_step x this' = (Ok x, this'))
        /\ (ares_passthrough this = false -> ares_muted this = true ->
            forall x : num, AntiResonator_step x this' = (Ok (lit 0), this'))).
Proof.
  intros this f bw Hset fs a0 this'. subst this' a0 fs.
  unfold AntiResonator_set in *.
  destruct ((f <=? lit 0) || (f >=? ares_sampleRate this / lit 2)
            || (bw <=? lit 0) || negb (isFinite f) || negb (isFinite bw));
    [discriminate Hset |].
  unfold AntiResonator_a0, AntiResonator_b0, AntiResonator_c0.
  cbv zeta.
  destruct (lit 1
            - lit 2 * Math_exp (- Math_PI * bw / ares_sampleRate this)
              * Math_cos (lit 2 * Math_PI * f / ares_sampleRate this)
            - - (Math_exp (- Math_PI * bw / ares_sampleRate this)
                 * Math_exp (- Math_PI * bw / ares_sampleRate this))
            ==? lit 0) eqn:Ha0;
    cbn [fst snd ares_a ares_b ares_c ares_x1 ares_x2 ares_passthrough
         ares_muted];
    (split; [reflexivity |]); (split; [reflexivity |]);
    (split; [intros Hcase; try discriminate Hcase
            | intros Hcase; try discriminate Hcase]).
  - repeat (split; [reflexivity |]).
    split.
    + intros Hpass x. unfold AntiResonator_step.
      cbn [ares_passthrough]. now rewrite Hpass.
    + intros Hpass Hmuted x. unfold AntiResonator_step.
      cbn [ares_passthrough ares_muted]. now rewrite Hpass, Hmuted.
  - repeat (split; [reflexivity |]).
    reflexivity.
Qed.

End FilterProperties.

(* ------------------------------------------------------------------ *)
(** ** Which errors a method can throw *)

Lemma neverThrows_ret {S A : Type} (e : Error) (a : A) :
  neverThrows e (ret (S := S) a).
Proof. intros s. discriminate. Qed.

Lemma neverThrows_get {S : Type} (e : Error) : neverThrows e (get (S := S)).
Proof. intros s. discriminate. Qed.

Lemma neverThrows_gets {S A : Type} (e : Error) (f : S -> A) :
  neverThrows e (gets f).
Proof. intros s. discriminate. Qed.

Lemma neverThrows_modify {S : Type} (e : Error) (f : S -> S) :
  neverThrows e (modify f).
Proof. intros s. discriminate. Qed.

Lemma neverThrows_throw {S A : Type} (e : Error) (e' : Error) :
  e' <> e -> neverThrows e (throw (S := S) (A := A) e').
Proof. intros Hne s. cbn. congruence. Qed.

Lemma neverThrows_bind {S A B : Type} (e : Error) (m : M S A) (k : A -> M S B) :
  neverThrows e m -> (forall a, neverThrows e (k a)) -> neverThrows e (bind m k).
Proof.
  intros Hm Hk s. unfold bind. specialize (Hm s).
  destruct (m s) as [[a | e'] s']; cbn in *.
  - apply Hk.
  - intros Heq. apply Hm. congruence.
Qed.

Lemma neverThrows_zoom {S T A : Type} (e : Error) (proj : S -> T)
    (upd : T -> S -> S) (m : M T A) :
  neverThrows e m -> neverThrows e (zoom proj upd m).
Proof.
  intros Hm s. unfold zoom. specialize (Hm (proj s)).
  destruct (m (proj s)) as [r t']. exact Hm.
Qed.

Lemma neverThrows_zoomOpt {S T A : Type} (e : Error) (proj : S -> option T)
    (upd : option T -> S -> S)
    (m : M T A) :
  e <> TypeError -> neverThrows e m -> neverThrows e (zoomOpt proj upd m).
Proof.
  intros Hne Hm s. unfold zoomOpt. destruct (proj s) as [t |].
  - specialize (Hm t). destruct (m t) as [r t']. exact Hm.
  - cbn. congruence.
Qed.

Lemma neverThrows_zoomNth {S T A : Type} (e : Error) (proj : S -> list T)
    (upd : list T -> S -> S)
    (i : nat) (m : M T A) :
  e <> TypeError -> neverThrows e m -> neverThrows e (zoomNth proj upd i m).
Proof.
  intros Hne Hm s. unfold zoomNth. destruct (nth_error (proj s) i) as [t |].
  - specialize (Hm t). destruct (m t) as [r t']. exact Hm.
  - cbn. congruence.
Qed.

Lemma neverThrows_defined {S A : Type} (e : Error) (proj : S -> option A) :
  e <> TypeError -> neverThrows e (defined proj).
Proof.
  intros Hne s. unfold defined. destruct (proj s); cbn; congruence.
Qed.

Lemma neverThrows_forEach {S B : Type} (e : Error) (xs : list B)
    (body : B -> M S unit) :
  (forall x, neverThrows e (body x)) -> neverThrows e (forEach xs body).
Proof.
  intros Hbody. induction xs as [| x xs IH]; cbn.
  - apply neverThrows_ret.
  - apply neverThrows_bind; auto.
Qed.

Lemma neverThrows_fold_left {S A B : Type} (e : Error) (xs : list B)
    (step : M S A -> B -> M S A)
    (m0 : M S A) :
  (forall acc x, neverThrows e acc -> neverThrows e (step acc x)) ->
  neverThrows e m0 -> neverThrows e (fold_left step xs m0).
Proof.
  intros Hstep. revert m0. induction xs as [| x xs IH]; cbn; auto.
Qed.

(** Decomposes a method into its calls and closes the calls that are known
    not to throw the error. *)
Create HintDb klatt.

Ltac never_throws :=
  repeat first
    [ assumption
    | discriminate
    | solve [ auto 1 with klatt nocore ]
    | apply neverThrows_ret
    | apply neverThrows_get
    | apply neverThrows_gets
    | apply neverThrows_modify
    | apply neverThrows_defined
    | apply neverThrows_throw
    | apply neverThrows_bind; [| intros ? ]
    | apply neverThrows_zoom
    | apply neverThrows_zoomOpt
    | apply neverThrows_zoomNth
    | apply neverThrows_forEach; intros ?
    | apply neverThrows_fold_left; [ intros ? ? ? |]
    | match goal with
      | |- neverThrows _ (if ?b then _ else _) => destruct b
      | |- neverThrows _ (match ?x with _ => _ end) => destruct x
      | |- neverThrows _ (let (_, _) := ?x in _) => destruct x
      end ].

Section GeneratorProperties.

Context {N : JsNumber}.

Local Open Scope js_scope.

Lemma LpFilter1_step_neverThrows (e : Error) (x : num) :
  neverThrows e (LpFilter1_step x).
Proof.
  intros this. unfold LpFilter1_step.
  destruct (lp_passthrough this), (lp_muted this); discriminate.
Qed.

Lemma Resonator_step_neverThrows (e : Error) (x : num) :
  neverThrows e (Resonator_step x).
Proof.
  intros this. unfold Resonator_step.
  destruct (res_passthrough this), (res_muted this); discriminate.
Qed.

Lemma AntiResonator_step_neverThrows (e : Error) (x : num) :
  neverThrows e (AntiResonator_step x).
Proof.
  intros this. unfold AntiResonator_step.
  destruct (ares_passthrough this), (ares_muted this); discriminate.
Qed.

Lemma DifferencingFilter_step_neverThrows (e : Error) (x : num) :
  neverThrows e (DifferencingFilter_step x).
Proof. intros this. discriminate. Qed.

Lemma getWhiteNoise_neverThrows (e : Error) : neverThrows e getWhiteNoise.
Proof. intros rnd. discriminate. Qed.

Lemma LpFilter1_set_throws (e : Error) (f g extraGain : num) :
  e <> InvalidFilterParameters -> neverThrows e (LpFilter1_set f g extraGain).
Proof.
  intros Hne this. unfold LpFilter1_set.
  match goal with |- context [if ?b then _ else _] => destruct b end;
    cbn; congruence.
Qed.

Lemma Resonator_set_throws (e : Error) (f bw dcGain : num) :
  e <> InvalidResonatorParameters -> neverThrows e (Resonator_set f bw dcGain).
Proof.
  intros Hne this. unfold Resonator_set.
  match goal with |- context [if ?b then _ else _] => destruct b end;
    cbn; congruence.
Qed.

Lemma AntiResonator_set_throws (e : Error) (f bw : num) :
  e <> InvalidAntiResonatorParameters -> neverThrows e (AntiResonator_set f bw).
Proof.
  intros Hne this. unfold AntiResonator_set.
  repeat match goal with |- context [if ?b then _ else _] => destruct b end;
    cbn; congruence.
Qed.

Lemma Resonator_adjustPeakGain_throws (e : Error) (peakGain : num) :
  e <> InvalidResonatorPeakGain -> neverThrows e (Resonator_adjustPeakGain peakGain).
Proof.
  intros Hne this. unfold Resonator_adjustPeakGain.
  match goal with |- context [if ?b then _ else _] => destruct b end;
    cbn; congruence.
Qed.

#[local] Hint Resolve LpFilter1_step_neverThrows Resonator_step_neverThrows
  AntiResonator_step_neverThrows DifferencingFilter_step_neverThrows
  getWhiteNoise_neverThrows : klatt.

Lemma startNewPeriod_no_reuse_error : neverThrows FrameParmsReused startNewPeriod.
Proof.
  unfold startNewPeriod, startUsingNewFrameParameters, startGlottalSourcePeriod,
    assign_fState, setTiltFilter, setNasalFormantCasc, setNasalAntiformantCasc,
    setOralFormantCasc, setNasalFormantPar, setOralFormantPar,
    ImpulsiveGlottalSource_startPeriod, NaturalGlottalSource_startPeriod,
    Resonator_adjustImpulseGain, LpFilter1_setPassthrough,
    Resonator_setPassthrough, Resonator_setMute, AntiResonator_setPassthrough.
  never_throws;
    first [ apply LpFilter1_set_throws | apply Resonator_set_throws
          | apply AntiResonator_set_throws | apply Resonator_adjustPeakGain_throws ];
    discriminate.
Qed.

#[local] Hint Resolve startNewPeriod_no_reuse_error : klatt.

Lemma computeNextOutputSignalSample_no_reuse_error :
  neverThrows FrameParmsReused computeNextOutputSignalSample.
Proof.
  unfold computeNextOutputSignalSample, computeCascadeBranch,
    computeParallelBranch, callGlottalSource, withRandom,
    LpNoiseSource_getNext, onRandom, onThis, ImpulsiveGlottalSource_getNext,
    NaturalGlottalSource_getNext.
  never_throws.
  intros this. destruct (_ >=? _); discriminate.
Qed.

#[local] Hint Resolve computeNextOutputSignalSample_no_reuse_error : klatt.

Lemma generateFrame_sample_no_reuse_error (outPos : nat) :
  neverThrows FrameParmsReused (generateFrame_sample outPos).
Proof.
  unfold generateFrame_sample, onGenerator.
  never_throws.
Qed.

#[local] Hint Resolve generateFrame_sample_no_reuse_error : klatt.

(** C4 (as amended).  [generateFrame] throws "FrameParms structure must not
    be re-used." exactly when the supplied object is the currently active
    [fParms] of the generator, that is the one adopted at the last period
    start, which need not be the one of the preceding call.  It then has
    written no sample and changed nothing of the generator.  With any other
    object the call does not throw this error. *)
Theorem generateFrame_reuse_check :
  forall (this : Generator) (outBuf : Float64Array) (parms : FrameParms),
    (sameObject parms (fParms this) = true ->
     generateFrame parms (this, outBuf) = (Throw FrameParmsReused, (this, outBuf)))
    /\ (sameObject parms (fParms this) = false ->
        fst (generateFrame parms (this, outBuf)) <> Throw FrameParmsReused).
Proof.
  intros this outBuf parms. split; intros Hsame.
  - unfold generateFrame, bind, get. cbn [fst snd]. now rewrite Hsame.
  - unfold generateFrame. unfold bind at 1. unfold get. cbn [fst snd].
    rewrite Hsame.
    assert (Hloop : neverThrows FrameParmsReused
              (bind (onGenerator (modify (set_newFParms (Some parms))))
                 (fun _ => forEach (seq 0 (length outBuf)) generateFrame_sample))).
    { unfold onGenerator. never_throws. }
    apply Hloop.
Qed.

(** C9 (as amended).  [generateFrame] with a buffer of length zero writes no
    sample.  When the supplied object is the active [fParms] it throws and
    changes nothing; otherwise it returns, having assigned the object to
    [newFParms] and nothing else: the absolute position, the period state,
    the frame state, the active parameters, all filters, sources and the
    random generator are as before. *)
Theorem generateFrame_empty_buffer :
  forall (this : Generator) (parms : FrameParms),
    let result := generateFrame parms (this, []) in
    let this' := fst (snd result) in
    snd (snd result) = []
    /\ (if sameObject parms (fParms this)
        then fst result = Throw FrameParmsReused /\ this' = this
        else fst result = Ok tt /\ newFParms this' = Some parms)
    /\ mParms this' = mParms this
    /\ fParms this' = fParms this
    /\ fState this' = fState this
    /\ pState this' = pState this
    /\ absPosition this' = absPosition this
    /\ tiltFilter this' = tiltFilter this
    /\ outputLpFilter this' = outputLpFilter this
    /\ flutterTimeOffset this' = flutterTimeOffset this
    /\ impulsiveGSource this' = impulsiveGSource this
    /\ naturalGSource this' = naturalGSource this
    /\ glottalSource this' = glottalSource this
    /\ aspirationSourceCasc this' = aspirationSourceCasc this
    /\ aspirationSourcePar this' = aspirationSourcePar this
    /\ fricationSourcePar this' = fricationSourcePar this
    /\ nasalFormantCasc this' = nasalFormantCasc this
    /\ nasalAntiformantCasc this' = nasalAntiformantCasc this
    /\ oralFormantCasc this' = oralFormantCasc this
    /\ nasalFormantPar this' = nasalFormantPar this
    /\ oralFormantPar this' = oralFormantPar this
    /\ differencingFilterPar this' = differencingFilterPar this
    /\ random this' = random this.
Proof.
  intros this parms result this'. subst this' result.
  unfold generateFrame, bind, get, throw, onGenerator, zoom, modify.
  cbn [fst snd length seq forEach ret].
  destruct (sameObject parms (fParms this)); cbn; repeat split.
Qed.

(** C8 (as amended).  For a glottal source type outside the enumeration the
    constructor never returns a generator: [initGlottalSource] throws
    "Undefined glottal source type.", and this is the error of the
    constructor whenever the sample rate passed the check of the output
    low-pass filter.  [startGlottalSourcePeriod] has no such guard: with a
    type that is neither [impulsive] nor [natural] it returns and leaves the
    generator as it is. *)
Theorem undefined_glottalSourceType :
  forall (mp : MainParms) (rnd : Random),
    glottalSourceType mp <> impulsive ->
    glottalSourceType mp <> natural ->
    glottalSourceType mp <> noise ->
    initGlottalSource mp = Throw UndefinedGlottalSourceType
    /\ (forall this, Generator_new mp rnd <> Ok this)
    /\ (fst (Resonator_set (lit 0) (sampleRate mp / lit 2) (lit 1)
               (Resonator_new (sampleRate mp))) = Ok tt ->
        Generator_new mp rnd = Throw UndefinedGlottalSourceType)
    /\ (forall this, mParms this = mp ->
        startGlottalSourcePeriod this = (Ok tt, this)).
Proof.
  intros mp rnd Himp Hnat Hnoise.
  assert (Hinit : initGlottalSource mp = Throw UndefinedGlottalSourceType).
  { unfold initGlottalSource, impulsive, natural, noise in *.
    destruct (glottalSourceType mp) as [| [p | p |] | p]; try congruence;
      destruct p; congruence. }
  split; [exact Hinit |].
  split.
  { intros this. unfold Generator_new, Math_random, obind, construct.
    destruct (Resonator_set (lit 0) (sampleRate mp / lit 2) (lit 1)
                (Resonator_new (sampleRate mp))) as [[[] | e] r]; cbn [fst];
      [rewrite Hinit |]; discriminate. }
  split.
  - unfold Generator_new, Math_random, obind, construct.
    destruct (Resonator_set (lit 0) (sampleRate mp / lit 2) (lit 1)
                (Resonator_new (sampleRate mp))) as [[[] | e] r]; cbn [fst];
      [rewrite Hinit; reflexivity | discriminate].
  - intros this Hmp. unfold startGlottalSourcePeriod, bind, get, ret.
    rewrite Hmp. unfold impulsive, natural in *.
    destruct (glottalSourceType mp) as [| [p | p |] | p]; try congruence;
      reflexivity.
Qed.

(* ------------------------------------------------------------------ *)
(** ** Methods that neither read [newFParms] nor install anything *)

Lemma quiet_ret {A : Type} (a : A) : quiet (ret a).
Proof. intros this x. split; reflexivity. Qed.

Lemma quiet_bind {A B : Type} (m : M Generator A) (k : A -> M Generator B) :
  quiet m -> (forall a, quiet (k a)) -> quiet (bind m k).
Proof.
  intros Hm Hk this x. unfold bind.
  destruct (Hm this x) as [Hrun Hinst]. rewrite Hrun.
  destruct (m this) as [[a | e] this1]; cbn [fst snd] in *.
  - destruct (Hk a this1 x) as [Hrun' Hinst']. rewrite Hrun'.
    split; [reflexivity | congruence].
  - split; [reflexivity | exact Hinst].
Qed.

Lemma quiet_gets {A : Type} (f : Generator -> A) :
  (forall this x, f (set_newFParms x this) = f this) -> quiet (gets f).
Proof. intros Hf this x. unfold gets. rewrite Hf. split; reflexivity. Qed.

Lemma quiet_defined {A : Type} (proj : Generator -> option A) :
  (forall this x, proj (set_newFParms x this) = proj this) -> quiet (defined proj).
Proof.
  intros Hf this x. unfold defined. rewrite Hf.
  destruct (proj this); split; reflexivity.
Qed.

Lemma quiet_zoom {T A : Type} (proj : Generator -> T)
    (upd : T -> Generator -> Generator) (m : M T A) :
  (forall this x, proj (set_newFParms x this) = proj this) ->
  (forall t this x, upd t (set_newFParms x this) = set_newFParms x (upd t this)) ->
  (forall this, installed (upd (snd (m (proj this))) this) = installed this) ->
  quiet (zoom proj upd m).
Proof.
  intros Hproj Hupd Hinst this x. unfold zoom. rewrite Hproj.
  specialize (Hinst this). destruct (m (proj this)) as [r t'].
  cbn [fst snd] in *. rewrite Hupd. split; [reflexivity | exact Hinst].
Qed.

Lemma quiet_zoomOpt {T A : Type} (proj : Generator -> option T)
    (upd : option T -> Generator -> Generator) (m : M T A) :
  (forall this x, proj (set_newFParms x this) = proj this) ->
  (forall t this x, upd t (set_newFParms x this) = set_newFParms x (upd t this)) ->
  (forall this t, proj this = Some t ->
     installed (upd (Some (snd (m t))) this) = installed this) ->
  quiet (zoomOpt proj upd m).
Proof.
  intros Hproj Hupd Hinst this x. unfold zoomOpt. rewrite Hproj.
  destruct (proj this) as [t |] eqn:Ht.
  - specialize (Hinst this t Ht). destruct (m t) as [r t'].
    cbn [fst snd] in *. rewrite Hupd. split; [reflexivity | exact Hinst].
  - split; reflexivity.
Qed.

Lemma quiet_zoomNth {T A : Type} (proj : Generator -> list T)
    (upd : list T -> Generator -> Generator) (i : nat) (m : M T A) :
  (forall this x, proj (set_newFParms x this) = proj this) ->
  (forall t this x, upd t (set_newFParms x this) = set_newFParms x (upd t this)) ->
  (forall this t, nth_error (proj this) i = Some t ->
     installed (upd (firstn i (proj this) ++ snd (m t) :: skipn (S i) (proj this)) this)
     = installed this) ->
  quiet (zoomNth proj upd i m).
Proof.
  intros Hproj Hupd Hinst this x. unfold zoomNth. rewrite Hproj.
  destruct (nth_error (proj this) i) as [t |] eqn:Ht.
  - specialize (Hinst this t Ht). destruct (m t) as [r t'].
    cbn [fst snd] in *. rewrite Hupd. split; [reflexivity | exact Hinst].
  - split; reflexivity.
Qed.

Lemma quiet_fold_left {A B : Type} (xs : list B)
    (step : M Generator A -> B -> M Generator A) (m0 : M Generator A) :
  (forall acc x, quiet acc -> quiet (step acc x)) ->
  quiet m0 -> quiet (fold_left step xs m0).
Proof.
  intros Hstep. revert m0. induction xs as [| x xs IH]; cbn; auto.
Qed.

(** *** The steps of the filters keep the coefficients *)

Lemma LpFilter1_step_coefficients (x : num) (f : LpFilter1) :
  LpFilter1_coefficients (snd (LpFilter1_step x f)) = LpFilter1_coefficients f.
Proof.
  unfold LpFilter1_step, LpFilter1_coefficients.
  destruct (lp_passthrough f) eqn:Hp; [cbn; now rewrite Hp |].
  destruct (lp_muted f) eqn:Hm; cbn; now rewrite ?Hp, ?Hm.
Qed.

Lemma Resonator_step_coefficients (x : num) (r : Resonator) :
  Resonator_coefficients (snd (Resonator_step x r)) = Resonator_coefficients r.
Proof.
  unfold Resonator_step, Resonator_coefficients.
  destruct (res_passthrough r) eqn:Hp; [cbn; now rewrite Hp |].
  destruct (res_muted r) eqn:Hm; cbn; now rewrite ?Hp, ?Hm.
Qed.

Lemma AntiResonator_step_coefficients (x : num) (r : AntiResonator) :
  AntiResonator_coefficients (snd (AntiResonator_step x r))
  = AntiResonator_coefficients r.
Proof.
  unfold AntiResonator_step, AntiResonator_coefficients.
  destruct (ares_passthrough r) eqn:Hp; [cbn; now rewrite Hp |].
  destruct (ares_muted r) eqn:Hm; cbn; now rewrite ?Hp, ?Hm.
Qed.

Lemma LpNoiseSource_getNext_coefficients (rnd : Random) (src : LpNoiseSource) :
  LpFilter1_coefficients (lpFilter (snd (snd (LpNoiseSource_getNext (rnd, src)))))
  = LpFilter1_coefficients (lpFilter src).
Proof.
  unfold LpNoiseSource_getNext, getWhiteNoise, Math_random.
  unfold_monad. cbn [fst snd].
  match goal with |- context [LpFilter1_step ?x ?f] =>
    generalize (LpFilter1_step_coefficients x f);
    destruct (LpFilter1_step x f) as [r f'] end.
  cbn [fst snd lpFilter]. auto.
Qed.

Lemma map_replace_nth {T U : Type} (f : T -> U) (l : list T) (i : nat) (t t' : T) :
  nth_error l i = Some t -> f t' = f t ->
  map f (firstn i l ++ t' :: skipn (S i) l) = map f l.
Proof.
  revert i. induction l as [| a l IH]; intros [| i] Hnth Heq; cbn in *;
    try discriminate.
  - injection Hnth as ->. now rewrite Heq.
  - f_equal. now apply IH.
Qed.

Lemma ImpulsiveGlottalSource_getNext_coefficients (src : ImpulsiveGlottalSource) :
  option_map Resonator_coefficients
    (igs_resonator (snd (ImpulsiveGlottalSource_getNext src)))
  = option_map Resonator_coefficients (igs_resonator src).
Proof.
  unfold ImpulsiveGlottalSource_getNext. unfold_monad.
  destruct (igs_resonator src) as [r |] eqn:Hr; cbn; rewrite ?Hr; [| reflexivity].
  match goal with |- context [Resonator_step ?x r] =>
    generalize (Resonator_step_coefficients x r);
    destruct (Resonator_step x r) as [y r'] end.
  cbn. intros ->. reflexivity.
Qed.

Lemma NaturalGlottalSource_getNext_constants (src : NaturalGlottalSource) :
  ngs_b (snd (NaturalGlottalSource_getNext src)) = ngs_b src
  /\ ngs_openPhaseLength (snd (NaturalGlottalSource_getNext src))
     = ngs_openPhaseLength src.
Proof.
  unfold NaturalGlottalSource_getNext. cbn.
  destruct (_ >=? _); split; reflexivity.
Qed.

(** Closes [installed (upd t' this) = installed this] for a component whose
    coefficients [t'] keeps. *)
Ltac installed_same :=
  intros; unfold installed;
  cbn [set_fParms set_newFParms set_fState set_pState set_absPosition
       set_tiltFilter set_outputLpFilter set_impulsiveGSource
       set_naturalGSource set_aspirationSourceCasc set_aspirationSourcePar
       set_fricationSourcePar set_nasalFormantCasc set_nasalAntiformantCasc
       set_oralFormantCasc set_nasalFormantPar set_oralFormantPar
       set_differencingFilterPar set_random
       mParms fParms newFParms fState pState absPosition tiltFilter
       outputLpFilter flutterTimeOffset impulsiveGSource naturalGSource
       glottalSource aspirationSourceCasc aspirationSourcePar
       fricationSourcePar nasalFormantCasc nasalAntiformantCasc
       oralFormantCasc nasalFormantPar oralFormantPar differencingFilterPar
       random fst snd map];
  try (erewrite map_replace_nth;
       [| eassumption | apply Resonator_step_coefficients ]);
  rewrite ?LpFilter1_step_coefficients, ?Resonator_step_coefficients,
    ?AntiResonator_step_coefficients, ?LpNoiseSource_getNext_coefficients,
    ?ImpulsiveGlottalSource_getNext_coefficients;
  try reflexivity.

Ltac quiet_steps :=
  repeat first
    [ solve [ auto 1 with klatt nocore ]
    | apply quiet_ret
    | apply quiet_bind; [| intros ? ]
    | apply quiet_gets; reflexivity
    | apply quiet_defined; reflexivity
    | apply quiet_fold_left; [ intros ? ? ? |]
    | apply quiet_zoom; [ reflexivity | reflexivity | solve [ installed_same ] ]
    | apply quiet_zoomOpt; [ reflexivity | reflexivity | solve [ installed_same ] ]
    | apply quiet_zoomNth; [ reflexivity | reflexivity | solve [ installed_same ] ]
    | match goal with
      | |- quiet (if ?b then _ else _) => destruct b
      | |- quiet (match ?x with _ => _ end) => destruct x
      end ].

Lemma callGlottalSource_quiet : quiet callGlottalSource.
Proof.
  unfold callGlottalSource. quiet_steps.
  - apply quiet_zoomOpt; [reflexivity | reflexivity |].
    intros this src Hsrc. unfold installed.
    cbn -[ImpulsiveGlottalSource_getNext]. rewrite Hsrc.
    cbn -[ImpulsiveGlottalSource_getNext].
    now rewrite ImpulsiveGlottalSource_getNext_coefficients.
  - apply quiet_zoomOpt; [reflexivity | reflexivity |].
    intros this src Hsrc. unfold installed.
    cbn -[NaturalGlottalSource_getNext]. rewrite Hsrc.
    cbn -[NaturalGlottalSource_getNext].
    destruct (NaturalGlottalSource_getNext_constants src) as [-> ->].
    reflexivity.
Qed.

#[local] Hint Resolve callGlottalSource_quiet : klatt.

Lemma computeCascadeBranch_quiet (voice : num) : quiet (computeCascadeBranch voice).
Proof.
  unfold computeCascadeBranch, withRandom. quiet_steps.
Qed.

Lemma computeParallelBranch_quiet (voice : num) : quiet (computeParallelBranch voice).
Proof.
  unfold computeParallelBranch, withRandom. quiet_steps.
Qed.

#[local] Hint Resolve computeCascadeBranch_quiet computeParallelBranch_quiet : klatt.

Lemma computeNextOutputSignalSample_quiet : quiet computeNextOutputSignalSample.
Proof.
  unfold computeNextOutputSignalSample. quiet_steps.
Qed.

Lemma quiet_modify (f : Generator -> Generator) :
  (forall this x, f (set_newFParms x this) = set_newFParms x (f this)) ->
  (forall this, installed (f this) = installed this) ->
  quiet (modify f).
Proof.
  intros Hf Hinst this x. unfold modify. cbn [fst snd]. rewrite Hf.
  split; [reflexivity | apply Hinst].
Qed.

Lemma quietFrame_ret {A : Type} (a : A) : quietFrame (ret a).
Proof. intros this outBuf x. split; reflexivity. Qed.

Lemma quietFrame_bind {A B : Type} (m : M (Generator * Float64Array) A)
    (k : A -> M (Generator * Float64Array) B) :
  quietFrame m -> (forall a, quietFrame (k a)) -> quietFrame (bind m k).
Proof.
  intros Hm Hk this outBuf x. unfold bind.
  destruct (Hm this outBuf x) as [Hrun Hinst]. rewrite Hrun.
  destruct (m (this, outBuf)) as [[a | e] [this1 buf1]]; cbn [fst snd] in *.
  - destruct (Hk a this1 buf1 x) as [Hrun' Hinst']. rewrite Hrun'.
    split; [reflexivity | congruence].
  - split; [reflexivity | exact Hinst].
Qed.

Lemma quietFrame_onGenerator {A : Type} (m : M Generator A) :
  quiet m -> quietFrame (onGenerator m).
Proof.
  intros Hm this outBuf x. unfold onGenerator, zoom. cbn [fst snd].
  destruct (Hm this x) as [Hrun Hinst]. rewrite Hrun.
  destruct (m this) as [r this1]. cbn [fst snd] in *.
  split; [reflexivity | exact Hinst].
Qed.

Lemma quietFrame_write (f : Float64Array -> Float64Array) :
  quietFrame (modify (fun s => (fst s, f (snd s)))).
Proof. intros this outBuf x. split; reflexivity. Qed.

Lemma run_bind_gets {S A B : Type} (f : S -> A) (k : A -> M S B) (s : S) :
  bind (gets f) k s = k (f s) s.
Proof. reflexivity. Qed.

Lemma run_bind_ret {S A B : Type} (a : A) (k : A -> M S B) (s : S) :
  bind (ret a) k s = k a s.
Proof. reflexivity. Qed.

Lemma generateFrame_sample_unfold (outPos : nat) (s : Generator * Float64Array) :
  generateFrame_sample outPos s
  = bind (if atPeriodStart (fst s) then onGenerator startNewPeriod else ret tt)
      (fun _ => sampleTail outPos) s.
Proof. reflexivity. Qed.

Lemma sampleTail_quiet (outPos : nat) : quietFrame (sampleTail outPos).
Proof.
  unfold sampleTail.
  apply quietFrame_bind; [| intros v].
  { apply quietFrame_onGenerator, computeNextOutputSignalSample_quiet. }
  apply quietFrame_bind; [apply quietFrame_write | intros _].
  apply quietFrame_bind; [| intros _].
  - apply quietFrame_onGenerator.
    apply quiet_zoomOpt; [reflexivity | reflexivity |].
    intros g p Hp. unfold installed. cbn. now rewrite Hp.
  - apply quietFrame_onGenerator.
    apply quiet_modify; [reflexivity | reflexivity].
Qed.

Lemma set_newFParms_same (this : Generator) :
  set_newFParms (newFParms this) this = this.
Proof. destruct this. reflexivity. Qed.

Lemma quietFrame_keeps_parms {A : Type} (m : M (Generator * Float64Array) A)
    (this : Generator) (outBuf : Float64Array) :
  quietFrame m ->
  fParms (fst (snd (m (this, outBuf)))) = fParms this
  /\ newFParms (fst (snd (m (this, outBuf)))) = newFParms this.
Proof.
  intros Hm. destruct (Hm this outBuf (newFParms this)) as [Hrun Hinst].
  rewrite set_newFParms_same in Hrun. split.
  - change (fParms this) with (in_fParms (installed this)).
    rewrite <- Hinst. reflexivity.
  - rewrite Hrun at 1. reflexivity.
Qed.

(** An iteration of the loop of [generateFrame] that does not start a new
    period runs the same whatever is pending, and installs nothing. *)
Lemma generateFrame_sample_within_period (outPos : nat) (this : Generator)
    (outBuf : Float64Array) (x : option FrameParms) :
  atPeriodStart this = false ->
  let r := generateFrame_sample outPos (this, outBuf) in
  generateFrame_sample outPos (set_newFParms x this, outBuf)
  = (fst r, (set_newFParms x (fst (snd r)), snd (snd r)))
  /\ installed (fst (snd r)) = installed this.
Proof.
  intros Hmid. rewrite !generateFrame_sample_unfold. cbn [fst].
  change (atPeriodStart (set_newFParms x this)) with (atPeriodStart this).
  rewrite Hmid, !run_bind_ret. apply sampleTail_quiet.
Qed.

Lemma generateFrame_loop_within_period (n : nat) :
  forall (outPos : nat) (this : Generator) (outBuf : Float64Array)
         (x : option FrameParms),
    withinPeriod n outPos (this, outBuf) = true ->
    let r := generateFrame_loop outPos n (this, outBuf) in
    generateFrame_loop outPos n (set_newFParms x this, outBuf)
    = (fst r, (set_newFParms x (fst (snd r)), snd (snd r)))
    /\ installed (fst (snd r)) = installed this.
Proof.
  induction n as [| n IH]; intros outPos this outBuf x Hwithin r; subst r.
  - split; reflexivity.
  - cbn [withinPeriod fst] in Hwithin.
    apply andb_prop in Hwithin. destruct Hwithin as [Hmid Hrest].
    apply negb_true_iff in Hmid.
    unfold generateFrame_loop. cbn [seq forEach]. unfold bind.
    destruct (@generateFrame_sample_within_period outPos this outBuf x Hmid)
      as [Hrun Hinst].
    rewrite Hrun.
    destruct (generateFrame_sample outPos (this, outBuf)) as [[[] | e] [this1 buf1]];
      cbn [fst snd] in *.
    + destruct (IH (S outPos) this1 buf1 x Hrest) as [Hrun' Hinst'].
      unfold generateFrame_loop in Hrun', Hinst'.
      rewrite Hrun'. split; [reflexivity | congruence].
    + split; [reflexivity | exact Hinst].
Qed.

(* ------------------------------------------------------------------ *)
(** ** Methods that keep an observation of the generator *)

Lemma keeps_ret {S A B : Type} (obs : S -> B) (a : A) : keeps obs (ret a).
Proof. intros s. reflexivity. Qed.

Lemma keeps_get {S B : Type} (obs : S -> B) : keeps obs get.
Proof. intros s. reflexivity. Qed.

Lemma keeps_gets {S A B : Type} (obs : S -> B) (f : S -> A) : keeps obs (gets f).
Proof. intros s. reflexivity. Qed.

Lemma keeps_throw {S A B : Type} (obs : S -> B) (e : Error) :
  keeps obs (throw (A := A) e).
Proof. intros s. reflexivity. Qed.

Lemma keeps_defined {S A B : Type} (obs : S -> B) (proj : S -> option A) :
  keeps obs (defined proj).
Proof. intros s. unfold defined. destruct (proj s); reflexivity. Qed.

Lemma keeps_modify {S B : Type} (obs : S -> B) (f : S -> S) :
  (forall s, obs (f s) = obs s) -> keeps obs (modify f).
Proof. intros Hf s. apply Hf. Qed.

Lemma keeps_bind {S A A' B : Type} (obs : S -> B) (m : M S A) (k : A -> M S A') :
  keeps obs m -> (forall a, keeps obs (k a)) -> keeps obs (bind m k).
Proof.
  intros Hm Hk s. unfold bind. specialize (Hm s).
  destruct (m s) as [[a | e] s']; cbn [snd] in *.
  - rewrite Hk. exact Hm.
  - exact Hm.
Qed.

Lemma keeps_zoom {S T A B : Type} (obs : S -> B) (proj : S -> T)
    (upd : T -> S -> S) (m : M T A) :
  (forall t s, obs (upd t s) = obs s) -> keeps obs (zoom proj upd m).
Proof.
  intros Hupd s. unfold zoom. destruct (m (proj s)) as [r t']. apply Hupd.
Qed.

Lemma keeps_zoomOpt {S T A B : Type} (obs : S -> B) (proj : S -> option T)
    (upd : option T -> S -> S) (m : M T A) :
  (forall t s, obs (upd t s) = obs s) -> keeps obs (zoomOpt proj upd m).
Proof.
  intros Hupd s. unfold zoomOpt. destruct (proj s) as [t |]; [| reflexivity].
  destruct (m t) as [r t']. apply Hupd.
Qed.

Lemma keeps_zoomNth {S T A B : Type} (obs : S -> B) (proj : S -> list T)
    (upd : list T -> S -> S) (i : nat) (m : M T A) :
  (forall t s, obs (upd t s) = obs s) -> keeps obs (zoomNth proj upd i m).
Proof.
  intros Hupd s. unfold zoomNth.
  destruct (nth_error (proj s) i) as [t |]; [| reflexivity].
  destruct (m t) as [r t']. apply Hupd.
Qed.

Lemma keeps_forEach {S B C : Type} (obs : S -> B) (xs : list C)
    (body : C -> M S unit) :
  (forall x, keeps obs (body x)) -> keeps obs (forEach xs body).
Proof.
  intros Hbody. induction xs as [| x xs IH]; cbn.
  - apply keeps_ret.
  - apply keeps_bind; auto.
Qed.

Ltac keeps_steps :=
  repeat first
    [ solve [ auto 1 with klatt nocore ]
    | apply keeps_ret
    | apply keeps_get
    | apply keeps_gets
    | apply keeps_throw
    | apply keeps_defined
    | apply keeps_modify; reflexivity
    | apply keeps_bind; [| intros ? ]
    | apply keeps_zoom; reflexivity
    | apply keeps_zoomOpt; reflexivity
    | apply keeps_zoomNth; reflexivity
    | apply keeps_forEach; intros ?
    | match goal with
      | |- keeps _ (if ?b then _ else _) => destruct b
      | |- keeps _ (match ?x with _ => _ end) => destruct x
      end ].

Lemma startUsingNewFrameParameters_keeps_parms :
  keeps (fun this => (fParms this, newFParms this)) startUsingNewFrameParameters.
Proof.
  unfold startUsingNewFrameParameters, assign_fState. keeps_steps.
Qed.

Lemma startGlottalSourcePeriod_keeps_parms :
  keeps (fun this => (fParms this, newFParms this)) startGlottalSourcePeriod.
Proof.
  unfold startGlottalSourcePeriod. keeps_steps.
Qed.

Lemma run_bind_get {S B : Type} (k : S -> M S B) (s : S) :
  bind get k s = k s s.
Proof. reflexivity. Qed.

Lemma run_bind_modify {S B : Type} (f : S -> S) (k : unit -> M S B) (s : S) :
  bind (modify f) k s = k tt (f s).
Proof. reflexivity. Qed.

Lemma run_bind_bind {S A B C : Type} (m : M S A) (k1 : A -> M S B)
    (k2 : B -> M S C) (s : S) :
  bind (bind m k1) k2 s = bind m (fun a => bind (k1 a) k2) s.
Proof. unfold bind. destruct (m s) as [[a | e] s']; reflexivity. Qed.

(** A period start adopts the pending parameters. *)
Lemma startNewPeriod_adopts (this : Generator) (parms : FrameParms) :
  newFParms this = Some parms ->
  fParms (snd (startNewPeriod this)) = Some parms
  /\ newFParms (snd (startNewPeriod this)) = None.
Proof.
  intros Hnew. unfold startNewPeriod.
  rewrite run_bind_get, Hnew, run_bind_bind, run_bind_modify, run_bind_bind,
    run_bind_modify.
  match goal with |- context [snd (bind ?m ?k ?s)] =>
    assert (Hk : keeps (fun g => (fParms g, newFParms g)) (bind m k));
      [| specialize (Hk s); cbn in Hk; injection Hk as -> ->;
         split; reflexivity ]
  end.
  pose proof startUsingNewFrameParameters_keeps_parms.
  pose proof startGlottalSourcePeriod_keeps_parms.
  keeps_steps.
Qed.

(** An iteration that starts a new period adopts the pending parameters. *)
Lemma generateFrame_sample_at_period_start (outPos : nat) (this : Generator)
    (outBuf : Float64Array) (parms : FrameParms) :
  atPeriodStart this = true ->
  newFParms this = Some parms ->
  fst (generateFrame_sample outPos (this, outBuf)) = Ok tt ->
  fParms (fst (snd (generateFrame_sample outPos (this, outBuf)))) = Some parms
  /\ newFParms (fst (snd (generateFrame_sample outPos (this, outBuf)))) = None.
Proof.
  intros Hstart Hnew. rewrite generateFrame_sample_unfold. cbn [fst].
  rewrite Hstart. unfold bind, onGenerator, zoom. cbn [fst snd].
  destruct (startNewPeriod_adopts this Hnew) as [Hf Hn].
  destruct (startNewPeriod this) as [[[] | e] this1]; cbn [fst snd] in *;
    [| discriminate].
  intros _.
  destruct (quietFrame_keeps_parms this1 outBuf (sampleTail_quiet outPos))
    as [Hf' Hn'].
  rewrite Hf', Hn'. split; assumption.
Qed.

(* ------------------------------------------------------------------ *)
(** ** The parallel branch *)

Lemma LpFilter1_step_output (x : num) (f : LpFilter1) :
  fst (LpFilter1_step x f) = Ok (LpFilter1_output f x).
Proof.
  unfold LpFilter1_step, LpFilter1_output.
  destruct (lp_passthrough f), (lp_muted f); reflexivity.
Qed.

Lemma Resonator_step_output (x : num) (r : Resonator) :
  fst (Resonator_step x r) = Ok (Resonator_output r x).
Proof.
  unfold Resonator_step, Resonator_output.
  destruct (res_passthrough r), (res_muted r); reflexivity.
Qed.

Lemma LpNoiseSource_getNext_output (rnd : Random) (src : LpNoiseSource) :
  fst (LpNoiseSource_getNext (rnd, src))
  = Ok (LpFilter1_output (lpFilter src) (whiteNoiseAhead rnd 0))
  /\ rnd_values (fst (snd (LpNoiseSource_getNext (rnd, src)))) = rnd_values rnd
  /\ rnd_drawn (fst (snd (LpNoiseSource_getNext (rnd, src)))) = S (rnd_drawn rnd).
Proof.
  unfold LpNoiseSource_getNext, getWhiteNoise, Math_random, whiteNoiseAhead.
  unfold_monad. cbn [fst snd]. rewrite Nat.add_0_r.
  match goal with |- context [LpFilter1_step ?x ?f] =>
    generalize (LpFilter1_step_output x f);
    destruct (LpFilter1_step x f) as [y f'] end.
  cbn [fst snd]. intros ->. repeat split.
Qed.

(** Replaces the next filter step of the goal by its output and a fresh
    state of the filter. *)
Ltac next_filter_step :=
  match goal with
  | |- context [LpNoiseSource_getNext (?rnd, ?src)] =>
      let Hout := fresh "Hout" in
      let Hvalues := fresh "Hvalues" in
      let Hdrawn := fresh "Hdrawn" in
      destruct (LpNoiseSource_getNext_output rnd src) as (Hout & Hvalues & Hdrawn);
      destruct (LpNoiseSource_getNext (rnd, src)) as [? [? ?]];
      cbn [fst snd] in Hout, Hvalues, Hdrawn; subst
  | |- context [Resonator_step ?x ?r] =>
      let Hout := fresh "Hout" in
      pose proof (Resonator_step_output x r) as Hout;
      destruct (Resonator_step x r) as [? ?];
      cbn [fst snd] in Hout; subst
  end;
  cbn -[Resonator_step LpNoiseSource_getNext].

(** C2 (as amended).  With the parallel branch in use (active parameters,
    a period state and the six oral formant filters in place), its output is
    [0 + nasal(source) + oral[0](source) + sum over i = 1..5 of
    (-1)^i * oral[i](source2) + parallelBypassLin * source2], added from left
    to right: the formants of odd index (F2, F4, F6) enter with a minus
    sign. *)
Theorem computeParallelBranch_sum :
  forall (this : Generator) (parms : FrameParms) (p : PeriodState) (voice : num),
    fParms this = Some parms ->
    pState this = Some p ->
    length (oralFormantPar this) = maxOralFormants ->
    let source := parallelSource this parms p voice in
    let source2 := parallelSource2 this parms p source in
    fst (computeParallelBranch voice this)
    = Ok (parallelSum minusOneToThe this source source2).
Proof.
  intros this parms p voice Hf Hp Hlen source source2.
  subst source2 source.
  unfold parallelSum, parallelSource2, parallelSource, modulationNow,
    minusOneToThe.
  destruct (oralFormantPar this)
    as [| r0 [| r1 [| r2 [| r3 [| r4 [| r5 [| r6 l]]]]]]] eqn:Horal;
    try discriminate Hlen.
  unfold computeParallelBranch. unfold_monad. rewrite Hf, Hp.
  cbn -[Resonator_step LpNoiseSource_getNext].
  next_filter_step. next_filter_step. next_filter_step.
  rewrite Horal. cbn -[Resonator_step LpNoiseSource_getNext].
  repeat next_filter_step.
  match goal with
  | Hv : rnd_values ?r = rnd_values (random this),
    Hd : rnd_drawn ?r = S (rnd_drawn (random this)) |- _ =>
      assert (Hnoise : whiteNoiseAhead r 0 = whiteNoiseAhead (random this) 1)
        by (unfold whiteNoiseAhead; rewrite Hv, Hd;
            now rewrite Nat.add_0_r, Nat.add_1_r);
      rewrite Hnoise
  end.
  reflexivity.
Qed.

(* ------------------------------------------------------------------ *)
(** ** The length of the output *)

Lemma writeAt_length (i : nat) (v : num) (outBuf : Float64Array) :
  length (writeAt i v outBuf) = length outBuf.
Proof.
  unfold writeAt. destruct (i <? length outBuf)%nat eqn:Hi; [| reflexivity].
  apply Nat.ltb_lt in Hi.
  rewrite length_app, length_firstn. cbn [length]. rewrite length_skipn. lia.
Qed.

Lemma generateFrame_keeps_length (parms : FrameParms) :
  keeps (fun s : Generator * Float64Array => length (snd s)) (generateFrame parms).
Proof.
  unfold generateFrame, generateFrame_sample, onGenerator.
  keeps_steps. apply keeps_modify. intros s. cbn [snd]. apply writeAt_length.
Qed.






(* ------------------------------------------------------------------ *)
(** ** The period scheduler *)

Lemma startGlottalSourcePeriod_keeps_schedule :
  keeps (fun this => (mParms this, fParms this, pState this, absPosition this,
                      flutterTimeOffset this))
    startGlottalSourcePeriod.
Proof.
  unfold startGlottalSourcePeriod. keeps_steps.
Qed.

Lemma startNewPeriod_without_pending (this this' : Generator) :
  newFParms this = None ->
  startNewPeriod this = (Ok tt, this') ->
  scheduled this'.
Proof.
  intros Hnone. unfold startNewPeriod.
  rewrite run_bind_get, Hnone, run_bind_ret, run_bind_get.
  set (this1 := if match pState this with None => true | Some _ => false end
                then set_pState (Some emptyPeriodState) this else this).
  assert (Hthis1 : mParms this1 = mParms this /\ fParms this1 = fParms this
                   /\ absPosition this1 = absPosition this
                   /\ flutterTimeOffset this1 = flutterTimeOffset this).
  { subst this1. destruct (pState this); repeat split. }
  destruct Hthis1 as (Hmp & Hfp & Habs & Hflutter).
  match goal with |- bind ?m _ _ = _ -> _ =>
    assert (Hwhen : m this = (Ok tt, this1))
      by (subst this1; destruct (pState this); reflexivity)
  end.
  unfold bind at 1. rewrite Hwhen.
  unfold bind at 1. unfold defined at 1.
  destruct (pState this1) as [p1 |]; [| discriminate].
  rewrite run_bind_get. unfold bind at 1. unfold defined at 1.
  rewrite Hfp. destruct (fParms this) as [parms |] eqn:Hparms; [| discriminate].
  rewrite run_bind_modify. intros Hrun.
  match type of Hrun with startGlottalSourcePeriod ?s = _ =>
    pose proof (startGlottalSourcePeriod_keeps_schedule s) as Hkeeps
  end.
  rewrite Hrun in Hkeeps. cbn in Hkeeps.
  injection Hkeeps as Hmp' Hfp' Hps' Habs' Hflutter'.
  exists parms. eexists. rewrite Hfp', Hps', Hmp', Habs', Hflutter', Hfp. cbn.
  rewrite Hmp, Habs, Hflutter. repeat split.
Qed.

Lemma startNewPeriod_scheduled (this this' : Generator) :
  startNewPeriod this = (Ok tt, this') -> scheduled this'.
Proof.
  destruct (newFParms this) as [parms |] eqn:Hpending;
    [| apply startNewPeriod_without_pending; exact Hpending].
  unfold startNewPeriod at 1. rewrite run_bind_get, Hpending.
  unfold bind at 1.
  match goal with |- context [match ?m this with _ => _ end] =>
    destruct (m this) as [[[] | e] this1] eqn:Hadopt; [| discriminate]
  end.
  rewrite !run_bind_modify in Hadopt.
  pose proof (startUsingNewFrameParameters_keeps_parms
                (set_newFParms None (set_fParms (Some parms) this))) as Hkeeps.
  rewrite Hadopt in Hkeeps. cbn in Hkeeps. injection Hkeeps as _ Hnone.
  intros Hrun. apply (@startNewPeriod_without_pending this1 this' Hnone).
  unfold startNewPeriod. rewrite run_bind_get, Hnone, run_bind_ret.
  exact Hrun.
Qed.

(* ------------------------------------------------------------------ *)
(** ** What a period start installs *)

Lemma run_bind {S A B : Type} (m : M S A) (k : A -> M S B) (s : S) :
  bind m k s
  = match m s with
    | (Ok a, s') => k a s'
    | (Throw e, s') => (Throw e, s')
    end.
Proof. reflexivity. Qed.

Lemma bind_returned {S A B : Type} (m : M S A) (k : A -> M S B) (s s' : S)
    (b : B) :
  bind m k s = (Ok b, s') ->
  exists (a : A) (s1 : S), m s = (Ok a, s1) /\ k a s1 = (Ok b, s').
Proof.
  unfold bind. destruct (m s) as [[a | e] s1]; [| discriminate].
  intros Hk. exists a, s1. split; [reflexivity | exact Hk].
Qed.

Lemma zoom_returned {S T A : Type} (proj : S -> T) (upd : T -> S -> S)
    (m : M T A) (s s' : S) (a : A) :
  zoom proj upd m s = (Ok a, s') -> s' = upd (snd (m (proj s))) s.
Proof.
  unfold zoom. destruct (m (proj s)) as [r t']. intros H.
  injection H as _ <-. reflexivity.
Qed.

Lemma nth_error_replaced {T : Type} (l : list T) (i j : nat) (t t' : T) :
  nth_error l i = Some t ->
  nth_error (firstn i l ++ t' :: skipn (S i) l) j
  = if Nat.eqb j i then Some t' else nth_error l j.
Proof.
  revert i j. induction l as [| a l IH]; intros [| i] [| j] Hnth; cbn in *;
    try discriminate; try reflexivity.
  apply IH. exact Hnth.
Qed.

(** A loop that calls a method of the elements [a], ..., [a + n - 1] of an
    array field: when it returns, these elements exist and each holds the
    state that its call left; the other elements are as they were. *)
Lemma forEach_zoomNth_returned {St T : Type} (proj : St -> list T)
    (upd : list T -> St -> St) (m : nat -> M T unit) :
  (forall l s, proj (upd l s) = l) ->
  (forall l1 l2 s, upd l2 (upd l1 s) = upd l2 s) ->
  (forall s, upd (proj s) s = s) ->
  forall (n a : nat) (s s' : St),
    forEach (seq a n) (fun i => zoomNth proj upd i (m i)) s = (Ok tt, s') ->
    s' = upd (proj s') s
    /\ (forall i : nat,
          (a <= i < a + n)%nat ->
          exists t : T,
            nth_error (proj s) i = Some t
            /\ nth_error (proj s') i = Some (snd (m i t)))
    /\ (forall i : nat,
          (i < a \/ a + n <= i)%nat ->
          nth_error (proj s') i = nth_error (proj s) i).
Proof.
  intros Hget Hput Hsame. induction n as [| n IH]; intros a s s' Hrun.
  - cbn in Hrun. injection Hrun as <-. split; [symmetry; apply Hsame |].
    split; [intros i Hi; lia | reflexivity].
  - cbn [seq forEach] in Hrun. apply bind_returned in Hrun.
    destruct Hrun as ([] & s1 & Hstep & Hrest).
    unfold zoomNth in Hstep.
    destruct (nth_error (proj s) a) as [t |] eqn:Ht; [| discriminate].
    destruct (m a t) as [r t'] eqn:Hm. injection Hstep as -> <-.
    destruct (IH _ _ _ Hrest) as (Hs' & Hin & Hout).
    rewrite Hget in Hin, Hout.
    split; [rewrite Hs', Hput at 1; reflexivity |]. split.
    + intros i Hi. destruct (Nat.eq_dec i a) as [-> | Hia].
      * exists t. split; [exact Ht |].
        rewrite Hout, (@nth_error_replaced _ _ _ _ _ _ Ht), Nat.eqb_refl, Hm
          by lia.
        reflexivity.
      * destruct (Hin i ltac:(lia)) as (ti & Hti & Hi').
        rewrite (@nth_error_replaced _ _ _ _ _ _ Ht) in Hti.
        replace (Nat.eqb i a) with false in Hti
          by (symmetry; apply Nat.eqb_neq; exact Hia).
        exists ti. split; assumption.
    + intros i Hi. rewrite Hout, (@nth_error_replaced _ _ _ _ _ _ Ht) by lia.
      replace (Nat.eqb i a) with false
        by (symmetry; apply Nat.eqb_neq; lia).
      reflexivity.
Qed.

Lemma set_oralFormantCasc_same (this : Generator) :
  set_oralFormantCasc (oralFormantCasc this) this = this.
Proof. destruct this. reflexivity. Qed.

Lemma set_oralFormantPar_same (this : Generator) :
  set_oralFormantPar (oralFormantPar this) this = this.
Proof. destruct this. reflexivity. Qed.

(** What [startUsingNewFrameParameters] leaves when it returns. *)
Lemma startUsingNewFrameParameters_adopted (this this' : Generator)
    (parms : FrameParms) :
  fParms this = Some parms ->
  startUsingNewFrameParameters this = (Ok tt, this') ->
  adopted parms this this'.
Proof.
  intros Hparms Hrun. unfold startUsingNewFrameParameters in Hrun.
  rewrite run_bind_get, run_bind in Hrun. unfold defined at 1 in Hrun.
  rewrite Hparms in Hrun. unfold assign_fState in Hrun.
  rewrite !run_bind_modify in Hrun.
  apply bind_returned in Hrun. destruct Hrun as ([] & s1 & Hstep & Hrun).
  apply zoom_returned in Hstep. subst s1.
  rewrite !run_bind_modify in Hrun.
  apply bind_returned in Hrun. destruct Hrun as ([] & s1 & Hstep & Hrun).
  apply zoom_returned in Hstep. subst s1.
  apply bind_returned in Hrun. destruct Hrun as ([] & s1 & Hstep & Hrun).
  apply zoom_returned in Hstep. subst s1.
  apply bind_returned in Hrun. destruct Hrun as ([] & s1 & Hstep & Hrun).
  apply (forEach_zoomNth_returned oralFormantCasc set_oralFormantCasc
           (fun i => setOralFormantCasc parms i)
           (fun _ _ => eq_refl) (fun _ _ _ => eq_refl) set_oralFormantCasc_same)
    in Hstep.
  destruct Hstep as (Hs1 & Hcasc & _).
  remember (oralFormantCasc s1) as casc eqn:Hl1. clear Hl1. subst s1.
  rewrite !run_bind_modify in Hrun.
  apply bind_returned in Hrun. destruct Hrun as ([] & s1 & Hstep & Hrun).
  apply zoom_returned in Hstep. subst s1.
  apply (forEach_zoomNth_returned oralFormantPar set_oralFormantPar
           (fun i => setOralFormantPar (mParms this) parms i)
           (fun _ _ => eq_refl) (fun _ _ _ => eq_refl) set_oralFormantPar_same)
    in Hrun.
  destruct Hrun as (Hs' & Hpar & _).
  remember (oralFormantPar this') as par eqn:Hl2. clear Hl2. subst this'.
  unfold adopted. cbv zeta.
  repeat (split; [reflexivity |]).
  split; [| split; [| split; reflexivity]].
  - intros i Hi. destruct (Hcasc i ltac:(unfold maxOralFormants in *; lia))
      as (r & Hr & Hr').
    exists r. split; [exact Hr |].
    cbn [installed in_oralFormantCasc oralFormantCasc set_oralFormantPar
         set_nasalFormantPar set_fState set_oralFormantCasc].
    rewrite nth_error_map, Hr'. reflexivity.
  - intros i Hi. destruct (Hpar i ltac:(unfold maxOralFormants in *; lia))
      as (r & Hr & Hr').
    exists r. split; [exact Hr |].
    cbn [installed in_oralFormantPar oralFormantPar set_oralFormantPar].
    rewrite nth_error_map, Hr'. reflexivity.
Qed.

Lemma adopted_same (parms : FrameParms) (before after after' : Generator) :
  withoutPeriod (installed after') = withoutPeriod (installed after) ->
  adopted parms before after -> adopted parms before after'.
Proof.
  intros Hsame. unfold adopted. cbv zeta.
  change (in_fState (installed after'))
    with (in_fState (withoutPeriod (installed after'))).
  change (in_tiltFilter (installed after'))
    with (in_tiltFilter (withoutPeriod (installed after'))).
  change (in_nasalFormantCasc (installed after'))
    with (in_nasalFormantCasc (withoutPeriod (installed after'))).
  change (in_nasalAntiformantCasc (installed after'))
    with (in_nasalAntiformantCasc (withoutPeriod (installed after'))).
  change (in_nasalFormantPar (installed after'))
    with (in_nasalFormantPar (withoutPeriod (installed after'))).
  change (in_oralFormantCasc (installed after'))
    with (in_oralFormantCasc (withoutPeriod (installed after'))).
  change (in_oralFormantPar (installed after'))
    with (in_oralFormantPar (withoutPeriod (installed after'))).
  change (in_outputLpFilter (installed after'))
    with (in_outputLpFilter (withoutPeriod (installed after'))).
  change (in_noiseFilters (installed after'))
    with (in_noiseFilters (withoutPeriod (installed after'))).
  rewrite Hsame. exact (fun H => H).
Qed.

(** A period start with nothing pending keeps what the frame parameters
    set. *)
Lemma startNewPeriod_keeps_frame (this : Generator) :
  newFParms this = None ->
  withoutPeriod (installed (snd (startNewPeriod this)))
  = withoutPeriod (installed this)
  /\ newFParms (snd (startNewPeriod this)) = None.
Proof.
  intros Hnone. unfold startNewPeriod.
  rewrite run_bind_get, Hnone, run_bind_ret.
  match goal with |- withoutPeriod (installed (snd (?m this))) = _ /\ _ =>
    assert (Hk : keeps (fun g => (withoutPeriod (installed g), newFParms g)) m);
      [| split;
         [ exact (f_equal fst (Hk this))
         | transitivity (newFParms this);
           [ exact (f_equal snd (Hk this)) | exact Hnone ] ] ]
  end.
  unfold startGlottalSourcePeriod. keeps_steps.
Qed.

(** A period start with pending parameters installs what they determine. *)
Lemma startNewPeriod_adopted (this this' : Generator) (parms : FrameParms) :
  newFParms this = Some parms ->
  startNewPeriod this = (Ok tt, this') ->
  adopted parms this this'.
Proof.
  intros Hnew Hrun. unfold startNewPeriod in Hrun.
  rewrite run_bind_get, Hnew, run_bind, !run_bind_modify in Hrun.
  set (s0 := set_newFParms None (set_fParms (Some parms) this)) in Hrun.
  pose proof (startUsingNewFrameParameters_keeps_parms s0) as Hkeeps.
  destruct (startUsingNewFrameParameters s0) as [[[] | e] s1] eqn:Hadopt;
    [| discriminate Hrun].
  cbn in Hkeeps. injection Hkeeps as _ Hnone.
  apply (@startUsingNewFrameParameters_adopted s0 s1 parms eq_refl) in Hadopt.
  destruct (startNewPeriod_keeps_frame s1 Hnone) as [Hframe _].
  unfold startNewPeriod in Hframe.
  rewrite run_bind_get, Hnone, run_bind_ret, Hrun in Hframe. cbn [snd] in Hframe.
  apply (@adopted_same parms this s1 this' Hframe). exact Hadopt.
Qed.

Lemma keeps_fold_left {S A B C : Type} (obs : S -> B) (xs : list C)
    (body : C -> A -> M S A) :
  (forall x a, keeps obs (body x a)) ->
  forall init : M S A,
    keeps obs init ->
    keeps obs (fold_left (fun acc x => bind acc (body x)) xs init).
Proof.
  intros Hbody. induction xs as [| x xs IH]; intros init Hinit; cbn.
  - exact Hinit.
  - apply IH. apply keeps_bind; [exact Hinit | intros a; apply Hbody].
Qed.

Lemma computeNextOutputSignalSample_keeps_period :
  keeps pState computeNextOutputSignalSample.
Proof.
  unfold computeNextOutputSignalSample, computeCascadeBranch,
    computeParallelBranch, callGlottalSource, withRandom.
  repeat first
    [ progress keeps_steps
    | apply keeps_fold_left; [intros ? ? |]
    | match goal with |- keeps _ (let _ := _ in _) => cbv zeta end ].
Qed.

(** An iteration that returns has advanced the position in the period by
    one. *)
Lemma sampleTail_position (outPos : nat) (this : Generator)
    (outBuf : Float64Array) :
  fst (sampleTail outPos (this, outBuf)) = Ok tt ->
  exists p p' : PeriodState,
    pState this = Some p
    /\ pState (fst (snd (sampleTail outPos (this, outBuf)))) = Some p'
    /\ positionInPeriod p' = positionInPeriod p + lit 1.
Proof.
  assert (Hrun : sampleTail outPos (this, outBuf)
                 = match computeNextOutputSignalSample this with
                   | (Ok v, this1) =>
                       match pState this1 with
                       | Some p =>
                           (Ok tt,
                            (set_absPosition (absPosition this1 + lit 1)
                               (set_pState (Some (incrementPosition p)) this1),
                             writeAt outPos v outBuf))
                       | None => (Throw TypeError, (this1, writeAt outPos v outBuf))
                       end
                   | (Throw e, this1) => (Throw e, (this1, outBuf))
                   end).
  { unfold sampleTail, bind, onGenerator, zoom, zoomOpt, modify. cbn [fst snd].
    destruct (computeNextOutputSignalSample this) as [[v | e] this1];
      [| reflexivity].
    cbn [fst snd]. destruct (pState this1); reflexivity. }
  rewrite Hrun.
  pose proof (computeNextOutputSignalSample_keeps_period this) as Hkeeps.
  destruct (computeNextOutputSignalSample this) as [[v | e] this1];
    [| discriminate].
  cbn [snd] in Hkeeps. rewrite Hkeeps.
  destruct (pState this) as [p |]; [| discriminate].
  intros _. exists p, (incrementPosition p). repeat split.
Qed.

Lemma forEach_app {S B : Type} (xs ys : list B) (body : B -> M S unit) (s : S) :
  forEach (xs ++ ys) body s
  = bind (forEach xs body) (fun _ => forEach ys body) s.
Proof.
  revert s. induction xs as [| x xs IH]; intros s; cbn [app forEach].
  - reflexivity.
  - unfold bind. destruct (body x s) as [[[] | e] s1]; [| reflexivity].
    rewrite IH. reflexivity.
Qed.

(** An iteration that starts a new period: what it installs by
    [startNewPeriod] is what it leaves. *)
Lemma generateFrame_sample_starts_period (outPos : nat) (this : Generator)
    (outBuf : Float64Array) :
  atPeriodStart this = true ->
  fst (generateFrame_sample outPos (this, outBuf)) = Ok tt ->
  exists this1 : Generator,
    startNewPeriod this = (Ok tt, this1)
    /\ installed (fst (snd (generateFrame_sample outPos (this, outBuf))))
       = installed this1
    /\ newFParms (fst (snd (generateFrame_sample outPos (this, outBuf))))
       = newFParms this1
    /\ exists p' : PeriodState,
         pState (fst (snd (generateFrame_sample outPos (this, outBuf))))
         = Some p'
         /\ positionInPeriod p' = lit 0 + lit 1.
Proof.
  intros Hstart.
  assert (Hrun0 : generateFrame_sample outPos (this, outBuf)
                  = match startNewPeriod this with
                    | (Ok _, this1) => sampleTail outPos (this1, outBuf)
                    | (Throw e, this1) => (Throw e, (this1, outBuf))
                    end).
  { rewrite generateFrame_sample_unfold. cbn [fst].
    rewrite Hstart, run_bind. unfold onGenerator, zoom. cbn [fst snd].
    destruct (startNewPeriod this) as [[[] | e] this1]; reflexivity. }
  rewrite Hrun0.
  destruct (startNewPeriod this) as [[[] | e] this1] eqn:Hperiod;
    [| discriminate].
  intros Hok. exists this1. split; [reflexivity |].
  destruct (sampleTail_quiet outPos this1 outBuf (newFParms this1))
    as [Hrun Hinst].
  rewrite set_newFParms_same in Hrun.
  split; [exact Hinst |]. split; [rewrite Hrun at 1; reflexivity |].
  destruct (sampleTail_position _ _ _ Hok) as (p & p' & Hp & Hp' & Hpos).
  exists p'. split; [exact Hp' |]. rewrite Hpos.
  destruct (startNewPeriod_scheduled _ Hperiod)
    as (parms0 & p0 & _ & Hp0 & _ & _ & _ & Hzero).
  rewrite Hp0 in Hp. injection Hp as <-. rewrite Hzero. reflexivity.
Qed.

(** C1.  Frame parameters are adopted at the start of an F0 period only.
    For a call [generateFrame parms] with an object other than the active
    one:
    - when all its samples lie within the running period, the call leaves
      what the period start installed (the active frame parameters, the
      frame state, the period lengths and the coefficients of every filter)
      as it is and keeps [parms] pending; its samples and its effect on the
      generator are the same for every other object that could have been
      supplied;
    - the iteration that starts the next period makes [parms] the active
      parameters, clears [newFParms], and leaves the frame state and the
      filter coefficients that the setters compute from [parms], at
      position 1 of the new period;
    - after any [k] iterations of the call, a stretch of the remaining
      iterations that starts no period leaves what is installed, and what
      is pending, as the [k]-th iteration left it: so also after an
      adoption in the same call, when nothing is pending.
    For every iteration of the loop, in any state of the generator: one that
    does not start a period installs nothing, whatever is pending or not,
    runs the same for every pending object, and advances the position in
    the period by one when it returns; one that starts a period with
    nothing pending keeps the active parameters, the frame state and the
    coefficients of the filters that the frame parameters set. *)
Theorem frame_parameters_adopted_at_period_start :
  forall (this : Generator) (outBuf : Float64Array) (parms : FrameParms),
    sameObject parms (fParms this) = false ->
    let pending := set_newFParms (Some parms) this in
    (withinPeriod (length outBuf) 0 (pending, outBuf) = true ->
     let result := generateFrame parms (this, outBuf) in
     installed (fst (snd result)) = installed this
     /\ newFParms (fst (snd result)) = Some parms
     /\ forall other : FrameParms,
          sameObject other (fParms this) = false ->
          let result' := generateFrame other (this, outBuf) in
          fst result' = fst result
          /\ snd (snd result') = snd (snd result)
          /\ fst (snd result') = set_newFParms (Some other) (fst (snd result)))
    /\ (atPeriodStart this = true ->
        forall outPos : nat,
          let result := generateFrame_sample outPos (pending, outBuf) in
          fst result = Ok tt ->
          fParms (fst (snd result)) = Some parms
          /\ newFParms (fst (snd result)) = None
          /\ adopted parms this (fst (snd result))
          /\ exists p' : PeriodState,
               pState (fst (snd result)) = Some p'
               /\ positionInPeriod p' = lit 0 + lit 1)
    /\ (forall k n : nat,
          length outBuf = (k + n)%nat ->
          let mid := generateFrame_loop 0 k (pending, outBuf) in
          fst mid = Ok tt ->
          withinPeriod n k (snd mid) = true ->
          let result := generateFrame parms (this, outBuf) in
          result = generateFrame_loop k n (snd mid)
          /\ installed (fst (snd result)) = installed (fst (snd mid))
          /\ newFParms (fst (snd result)) = newFParms (fst (snd mid)))
    /\ (forall (g : Generator) (buf : Float64Array) (outPos : nat),
          let result := generateFrame_sample outPos (g, buf) in
          (atPeriodStart g = false ->
           installed (fst (snd result)) = installed g
           /\ newFParms (fst (snd result)) = newFParms g
           /\ (forall x : option FrameParms,
                 generateFrame_sample outPos (set_newFParms x g, buf)
                 = (fst result,
                    (set_newFParms x (fst (snd result)), snd (snd result))))
           /\ (fst result = Ok tt ->
               exists p p' : PeriodState,
                 pState g = Some p
                 /\ pState (fst (snd result)) = Some p'
                 /\ positionInPeriod p' = positionInPeriod p + lit 1))
          /\ (atPeriodStart g = true ->
              newFParms g = None ->
              fst result = Ok tt ->
              withoutPeriod (installed (fst (snd result)))
              = withoutPeriod (installed g)
              /\ newFParms (fst (snd result)) = None
              /\ exists p' : PeriodState,
                   pState (fst (snd result)) = Some p'
                   /\ positionInPeriod p' = lit 0 + lit 1)).
Proof.
  intros this outBuf parms Hfresh pending.
  assert (Hrun : forall q : FrameParms,
            sameObject q (fParms this) = false ->
            generateFrame q (this, outBuf)
            = generateFrame_loop 0 (length outBuf)
                (set_newFParms (Some q) this, outBuf)).
  { intros q Hq. unfold generateFrame. rewrite run_bind_get. cbn [fst snd].
    rewrite Hq. reflexivity. }
  assert (Hloop : forall (n k : nat) (g : Generator) (buf : Float64Array),
            withinPeriod n k (g, buf) = true ->
            installed (fst (snd (generateFrame_loop k n (g, buf)))) = installed g
            /\ newFParms (fst (snd (generateFrame_loop k n (g, buf))))
               = newFParms g).
  { intros n k g buf Hwithin.
    destruct (generateFrame_loop_within_period n k g buf (newFParms g) Hwithin)
      as [Hp Hinst].
    rewrite set_newFParms_same in Hp.
    split; [exact Hinst | rewrite Hp at 1; reflexivity]. }
  split; [| split; [| split]].
  - intros Hwithin result.
    subst result. rewrite (Hrun parms Hfresh). fold pending.
    destruct (Hloop _ _ _ _ Hwithin) as [Hinst Hpending].
    split; [exact Hinst |]. split; [exact Hpending |].
    intros other Hother result'. subst result'. rewrite (Hrun other Hother).
    change (set_newFParms (Some other) this)
      with (set_newFParms (Some other) pending).
    destruct (generateFrame_loop_within_period (length outBuf) 0 pending outBuf
                (Some other) Hwithin) as [Hp _].
    rewrite Hp. repeat split.
  - intros Hstart outPos result Hok. subst result.
    destruct (@generateFrame_sample_starts_period outPos pending outBuf
                Hstart Hok) as (this1 & Hperiod & Hinst & Hnew & Hpos).
    destruct (@startNewPeriod_adopts pending parms eq_refl) as [Hf Hn].
    rewrite Hperiod in Hf, Hn. cbn [snd] in Hf, Hn.
    split; [| split; [| split]].
    + match goal with |- fParms ?g = _ =>
        change (fParms g) with (in_fParms (installed g))
      end.
      rewrite Hinst. exact Hf.
    + rewrite Hnew. exact Hn.
    + apply (@adopted_same parms this this1).
      * rewrite Hinst. reflexivity.
      * exact (@startNewPeriod_adopted pending this1 parms eq_refl Hperiod).
    + exact Hpos.
  - intros k n Hlen mid Hmid Hwithin result. subst result.
    rewrite (Hrun parms Hfresh), Hlen. fold pending.
    assert (Hsplit : generateFrame_loop 0 (k + n) (pending, outBuf)
                     = generateFrame_loop k n (snd mid)).
    { unfold generateFrame_loop. rewrite seq_app, forEach_app, run_bind.
      fold (generateFrame_loop 0 k). fold mid.
      destruct mid as [[[] | e] s']; [reflexivity | discriminate Hmid]. }
    rewrite Hsplit. split; [reflexivity |].
    destruct (snd mid) as [g buf]. apply Hloop. exact Hwithin.
  - intros g buf outPos result. subst result. split.
    + intros Hmid.
      destruct (@generateFrame_sample_within_period outPos g buf (newFParms g)
                  Hmid) as [Hp Hinst].
      cbv zeta in Hp, Hinst. rewrite set_newFParms_same in Hp.
      split; [exact Hinst |]. split; [rewrite Hp at 1; reflexivity |].
      split.
      * intros x.
        apply (@generateFrame_sample_within_period outPos g buf x Hmid).
      * rewrite generateFrame_sample_unfold. cbn [fst].
        rewrite Hmid, run_bind_ret. apply sampleTail_position.
    + intros Hstart Hnone Hok.
      destruct (@generateFrame_sample_starts_period outPos g buf Hstart Hok)
        as (this1 & Hperiod & Hinst & Hnew & Hpos).
      destruct (startNewPeriod_keeps_frame g Hnone) as [Hframe Hn].
      rewrite Hperiod in Hframe, Hn. cbn [snd] in Hframe, Hn.
      split; [rewrite Hinst; exact Hframe |].
      split; [rewrite Hnew; exact Hn | exact Hpos].
Qed.

End GeneratorProperties.

(* ------------------------------------------------------------------ *)
(** ** Binary64 arithmetic

    Order, rounding, [Math.round], products and quotients of binary64
    numbers, from the specification of the operations in [SpecFloat]. *)

Section Binary64Arithmetic.

Local Open Scope Z_scope.

Lemma digits2_pos_bounds (m : positive) :
  2 ^ (Zpos (digits2_pos m) - 1) <= Zpos m < 2 ^ Zpos (digits2_pos m).
Proof.
  induction m as [m IH | m IH |]; cbn [digits2_pos].
  - rewrite Pos2Z.inj_succ.
    replace (Z.succ (Zpos (digits2_pos m)) - 1)
      with (Z.succ (Zpos (digits2_pos m) - 1)) by lia.
    rewrite !Z.pow_succ_r by lia. lia.
  - rewrite Pos2Z.inj_succ.
    replace (Z.succ (Zpos (digits2_pos m)) - 1)
      with (Z.succ (Zpos (digits2_pos m) - 1)) by lia.
    rewrite !Z.pow_succ_r by lia. lia.
  - cbn. lia.
Qed.

Lemma bounded_spec (m : positive) (e : Z) :
  bounded prec emax m e = true ->
  -1074 <= e <= 971
  /\ Zpos m < 2 ^ 53
  /\ (-1074 < e -> 2 ^ 52 <= Zpos m).
Proof.
  unfold bounded, canonical_mantissa, fexp, emin.
  change prec with 53. change emax with 1024.
  intros H. apply andb_prop in H. destruct H as [Hc He].
  apply Z.eqb_eq in Hc. apply Z.leb_le in He.
  pose proof (digits2_pos_bounds m) as [Hlo Hhi].
  set (d := Zpos (digits2_pos m)) in *.
  assert (Hd : 1 <= d) by (subst d; lia).
  split; [lia |]. split.
  - apply Z.lt_le_trans with (1 := Hhi). apply Z.pow_le_mono_r; lia.
  - intros Hnormal. replace d with 53 in Hlo by lia. exact Hlo.
Qed.

Lemma finite_units (m : positive) (e : Z) :
  bounded prec emax m e = true ->
  0 < Zpos m * 2 ^ (e + 1074) < 2 ^ 2098.
Proof.
  intros H. apply bounded_spec in H. destruct H as (He & Hm & _).
  assert (Hp : 0 < 2 ^ (e + 1074)) by (apply Z.pow_pos_nonneg; lia).
  split; [lia |].
  apply Z.lt_le_trans with (2 ^ 53 * 2 ^ (e + 1074)).
  - apply Z.mul_lt_mono_pos_r; assumption.
  - rewrite <- Z.pow_add_r by lia. apply Z.pow_le_mono_r; lia.
Qed.

Lemma compare_scaled (m1 m2 : positive) (e1 e2 : Z) :
  bounded prec emax m1 e1 = true ->
  bounded prec emax m2 e2 = true ->
  match e1 ?= e2 with
  | Lt => Lt
  | Gt => Gt
  | Eq => Pos.compare_cont Eq m1 m2
  end
  = (Zpos m1 * 2 ^ (e1 + 1074) ?= Zpos m2 * 2 ^ (e2 + 1074)).
Proof.
  intros H1 H2. apply bounded_spec in H1, H2.
  destruct H1 as (He1 & Hm1 & Hn1), H2 as (He2 & Hm2 & Hn2).
  assert (Hstep : forall (a b : positive) (ea eb : Z),
            -1074 <= ea -> ea < eb -> Zpos a < 2 ^ 53 -> 2 ^ 52 <= Zpos b ->
            Zpos a * 2 ^ (ea + 1074) < Zpos b * 2 ^ (eb + 1074)).
  { intros a b ea eb Hea Hlt Ha Hb.
    assert (Hpa : 0 < 2 ^ (ea + 1074)) by (apply Z.pow_pos_nonneg; lia).
    apply Z.lt_le_trans with (2 ^ 53 * 2 ^ (ea + 1074)).
    { apply Z.mul_lt_mono_pos_r; assumption. }
    apply Z.le_trans with (2 ^ 52 * 2 ^ (eb + 1074)).
    - rewrite <- !Z.pow_add_r by lia. apply Z.pow_le_mono_r; lia.
    - apply Z.mul_le_mono_nonneg_r; [apply Z.pow_nonneg; lia | exact Hb]. }
  destruct (e1 ?= e2) eqn:Hcmp.
  - apply Z.compare_eq in Hcmp. subst e2.
    change (Pos.compare_cont Eq m1 m2) with (Zpos m1 ?= Zpos m2).
    apply Zmult_compare_compat_r. apply Z.lt_gt, Z.pow_pos_nonneg; lia.
  - rewrite Z.compare_lt_iff in Hcmp. symmetry. apply Z.compare_lt_iff.
    apply Hstep; [lia | exact Hcmp | exact Hm1 | apply Hn2; lia].
  - rewrite Z.compare_gt_iff in Hcmp. symmetry. apply Z.compare_gt_iff.
    apply Hstep; [lia | exact Hcmp | exact Hm2 | apply Hn1; lia].
Qed.

(** Comparison of binary64 numbers is comparison of their values. *)
Lemma SFcompare_units (x y : spec_float) :
  valid_binary x = true -> valid_binary y = true ->
  x <> S754_nan -> y <> S754_nan ->
  SFcompare x y = Some (units x ?= units y).
Proof.
  intros Hx Hy Hnx Hny.
  destruct x as [sx | sx | | sx mx ex]; [| | congruence |];
    destruct y as [sy | sy | | sy my ey]; try congruence; cbn [SFcompare units].
  - reflexivity.
  - destruct sy; reflexivity.
  - apply finite_units in Hy. destruct sy; cbn [cond_Zopp]; f_equal; symmetry;
      [apply Z.compare_gt_iff | apply Z.compare_lt_iff]; lia.
  - destruct sx; reflexivity.
  - destruct sx, sy; reflexivity.
  - apply finite_units in Hy.
    assert (0 < 2 ^ 2098) by (apply Z.pow_pos_nonneg; lia).
    destruct sx, sy; cbn [cond_Zopp]; f_equal; symmetry;
      try (apply Z.compare_gt_iff; lia); apply Z.compare_lt_iff; lia.
  - apply finite_units in Hx. destruct sx; cbn [cond_Zopp]; f_equal; symmetry;
      [apply Z.compare_lt_iff | apply Z.compare_gt_iff]; lia.
  - apply finite_units in Hx.
    assert (0 < 2 ^ 2098) by (apply Z.pow_pos_nonneg; lia).
    destruct sx, sy; cbn [cond_Zopp]; f_equal; symmetry;
      try (apply Z.compare_gt_iff; lia); apply Z.compare_lt_iff; lia.
  - pose proof (@finite_units _ _ Hx). pose proof (@finite_units _ _ Hy).
    cbn [valid_binary] in Hx, Hy.
    destruct sx, sy; cbn [cond_Zopp]; f_equal.
    + rewrite Z.compare_opp,
        (Z.compare_antisym (Zpos mx * 2 ^ (ex + 1074))),
        <- (@compare_scaled _ _ _ _ Hx Hy).
      destruct (ex ?= ey); reflexivity.
    + symmetry. apply Z.compare_lt_iff. lia.
    + symmetry. apply Z.compare_gt_iff. lia.
    + apply compare_scaled; assumption.
Qed.

Lemma SFcompare_some (x y : spec_float) (c : comparison) :
  SFcompare x y = Some c -> x <> S754_nan /\ y <> S754_nan.
Proof. destruct x, y; cbn; intros H; split; congruence. Qed.

Lemma compare_units (x y : float) :
  Prim2SF x <> S754_nan -> Prim2SF y <> S754_nan ->
  SFcompare (Prim2SF x) (Prim2SF y)
  = Some (units (Prim2SF x) ?= units (Prim2SF y)).
Proof. intros Hx Hy. apply SFcompare_units; auto using Prim2SF_valid. Qed.

Lemma leb_units (x y : float) :
  (x <=? y)%float = true
  <-> Prim2SF x <> S754_nan /\ Prim2SF y <> S754_nan
      /\ units (Prim2SF x) <= units (Prim2SF y).
Proof.
  rewrite leb_spec. unfold SFleb. split.
  - intros H. destruct (SFcompare (Prim2SF x) (Prim2SF y)) as [c |] eqn:Hc;
      [| discriminate].
    destruct (@SFcompare_some _ _ _ Hc) as [Hx Hy].
    rewrite (@compare_units _ _ Hx Hy) in Hc. injection Hc as <-.
    repeat split; try assumption.
    destruct (units (Prim2SF x) ?= units (Prim2SF y)) eqn:Hu;
      try discriminate.
    + apply Z.compare_eq in Hu. lia.
    + rewrite Z.compare_lt_iff in Hu. lia.
  - intros (Hx & Hy & Hle). rewrite (@compare_units _ _ Hx Hy).
    destruct (units (Prim2SF x) ?= units (Prim2SF y)) eqn:Hu; try reflexivity.
    rewrite Z.compare_gt_iff in Hu. lia.
Qed.

Lemma ltb_units (x y : float) :
  (x <? y)%float = true
  <-> Prim2SF x <> S754_nan /\ Prim2SF y <> S754_nan
      /\ units (Prim2SF x) < units (Prim2SF y).
Proof.
  rewrite ltb_spec. unfold SFltb. split.
  - intros H. destruct (SFcompare (Prim2SF x) (Prim2SF y)) as [c |] eqn:Hc;
      [| discriminate].
    destruct (@SFcompare_some _ _ _ Hc) as [Hx Hy].
    rewrite (@compare_units _ _ Hx Hy) in Hc. injection Hc as <-.
    repeat split; try assumption.
    destruct (units (Prim2SF x) ?= units (Prim2SF y)) eqn:Hu;
      try discriminate.
    rewrite Z.compare_lt_iff in Hu. lia.
  - intros (Hx & Hy & Hlt). rewrite (@compare_units _ _ Hx Hy).
    apply Z.compare_lt_iff in Hlt. rewrite Hlt. reflexivity.
Qed.

(** *** Rounding to a binary64 number *)

Lemma fexp_binary64 (x : Z) : fexp prec emax x = Z.max (x - 53) (-1074).
Proof. reflexivity. Qed.

Lemma shr_1_m (mrs : shr_record) :
  0 <= shr_m mrs -> shr_m (shr_1 mrs) = shr_m mrs / 2.
Proof.
  destruct mrs as [m r s]. cbn [shr_m]. intros Hm.
  destruct m as [| p | p]; [reflexivity | | lia].
  destruct p as [p | p |]; cbn [shr_1 shr_m].
  - apply Z.div_unique with 1; lia.
  - apply Z.div_unique with 0; lia.
  - reflexivity.
Qed.

Lemma iter_pos_shr_1_m (p : positive) :
  forall mrs : shr_record,
    0 <= shr_m mrs ->
    shr_m (iter_pos shr_1 p mrs) = shr_m mrs / 2 ^ Zpos p.
Proof.
  assert (Hpow : forall q : positive, 0 < 2 ^ Zpos q)
    by (intros q; apply Z.pow_pos_nonneg; lia).
  induction p as [p IH | p IH |]; intros mrs Hm; cbn [iter_pos].
  - assert (H1 : 0 <= shr_m (shr_1 mrs))
      by (rewrite shr_1_m by assumption; apply Z.div_pos; lia).
    assert (H2 : 0 <= shr_m (iter_pos shr_1 p (shr_1 mrs)))
      by (rewrite IH by assumption; apply Z.div_pos; [lia | apply Hpow]).
    rewrite IH, IH, shr_1_m by assumption.
    pose proof (Hpow p).
    rewrite !Z.div_div by lia. f_equal.
    replace (Zpos p~1) with (1 + Zpos p + Zpos p) by lia.
    rewrite !Z.pow_add_r by lia. change (2 ^ 1) with 2. ring.
  - assert (H2 : 0 <= shr_m (iter_pos shr_1 p mrs))
      by (rewrite IH by assumption; apply Z.div_pos; [lia | apply Hpow]).
    rewrite IH, IH by assumption.
    pose proof (Hpow p).
    rewrite !Z.div_div by lia. f_equal.
    replace (Zpos p~0) with (Zpos p + Zpos p) by lia.
    rewrite Z.pow_add_r by lia. reflexivity.
  - rewrite shr_1_m by assumption. reflexivity.
Qed.

Lemma shr_spec (mrs : shr_record) (e k : Z) :
  0 <= shr_m mrs ->
  shr_m (fst (shr mrs e k)) = shr_m mrs / 2 ^ Z.max k 0
  /\ snd (shr mrs e k) = e + Z.max k 0.
Proof.
  intros Hm. destruct k as [| p | p]; cbn [shr fst snd Z.max Z.compare].
  - rewrite Z.div_1_r. split; [reflexivity | lia].
  - rewrite iter_pos_shr_1_m by assumption. split; reflexivity.
  - rewrite Z.div_1_r. split; [reflexivity | lia].
Qed.

Lemma round_nearest_even_bounds (m : Z) (l : location) :
  m <= round_nearest_even m l <= m + 1.
Proof.
  destruct l as [| []]; cbn [round_nearest_even]; try lia.
  destruct (Z.even m); lia.
Qed.

Lemma shr_record_of_loc_m (m : Z) (l : location) :
  shr_m (shr_record_of_loc m l) = m.
Proof. destruct l as [| []]; reflexivity. Qed.

(** The two shifts of [binary_round_aux], with the rounded mantissa [m1]
    between them. *)
Lemma binary_round_aux_spec (s : bool) (mz ez : Z) (l : location) :
  0 <= mz ->
  let k1 := Z.max (fexp prec emax (Zdigits2 mz + ez) - ez) 0 in
  exists m1 : Z,
    mz / 2 ^ k1 <= m1 <= mz / 2 ^ k1 + 1
    /\ let e1 := ez + k1 in
       let k2 := Z.max (fexp prec emax (Zdigits2 m1 + e1) - e1) 0 in
       binary_round_aux prec emax s mz ez l
       = match m1 / 2 ^ k2 with
         | Z0 => S754_zero s
         | Zpos m =>
             if e1 + k2 <=? 971 then S754_finite s m (e1 + k2)
             else S754_infinity s
         | Zneg _ => S754_nan
         end.
Proof.
  intros Hmz k1. unfold binary_round_aux, shr_fexp.
  assert (Hrec : 0 <= shr_m (shr_record_of_loc mz l))
    by (rewrite shr_record_of_loc_m; exact Hmz).
  destruct (@shr_spec (shr_record_of_loc mz l) ez
              (fexp prec emax (Zdigits2 mz + ez) - ez) Hrec) as [Hm He].
  destruct (shr (shr_record_of_loc mz l) ez
              (fexp prec emax (Zdigits2 mz + ez) - ez)) as [mrs' e'].
  cbn [fst snd] in Hm, He. rewrite shr_record_of_loc_m in Hm. fold k1 in Hm, He.
  set (m1 := round_nearest_even (shr_m mrs') (loc_of_shr_record mrs')).
  exists m1.
  pose proof (round_nearest_even_bounds (shr_m mrs') (loc_of_shr_record mrs'))
    as Hround.
  fold m1 in Hround. rewrite Hm in Hround. split; [exact Hround |].
  assert (Hm0 : 0 <= mz / 2 ^ k1)
    by (apply Z.div_pos; [lia | apply Z.pow_pos_nonneg; lia]).
  assert (Hrec1 : 0 <= shr_m (shr_record_of_loc m1 loc_Exact))
    by (cbn; lia).
  destruct (@shr_spec (shr_record_of_loc m1 loc_Exact) e'
              (fexp prec emax (Zdigits2 m1 + e') - e') Hrec1) as [Hm2 He2].
  destruct (shr (shr_record_of_loc m1 loc_Exact) e'
              (fexp prec emax (Zdigits2 m1 + e') - e')) as [mrs'' e''].
  cbn [fst snd shr_record_of_loc shr_m] in Hm2, He2.
  cbv zeta. rewrite <- He, Hm2, He2. reflexivity.
Qed.

Lemma binary_round_aux_nonneg (mz ez : Z) (l : location) :
  0 <= mz ->
  binary_round_aux prec emax false mz ez l <> S754_nan
  /\ 0 <= units (binary_round_aux prec emax false mz ez l).
Proof.
  intros Hmz.
  destruct (@binary_round_aux_spec false mz ez l Hmz) as (m1 & Hm1 & ->).
  cbv zeta.
  set (k2 := Z.max _ 0).
  assert (Hm0 : 0 <= mz / 2 ^ Z.max (fexp prec emax (Zdigits2 mz + ez) - ez) 0)
    by (apply Z.div_pos; [lia | apply Z.pow_pos_nonneg; lia]).
  assert (Hm2 : 0 <= m1 / 2 ^ k2)
    by (apply Z.div_pos; [lia | apply Z.pow_pos_nonneg; lia]).
  destruct (m1 / 2 ^ k2) as [| m | m]; [| | lia].
  - split; [discriminate | cbn; lia].
  - destruct (_ <=? 971); (split; [discriminate |]); cbn [units cond_Zopp].
    + apply Z.mul_nonneg_nonneg; [lia | apply Z.pow_nonneg; lia].
    + apply Z.pow_nonneg; lia.
Qed.

(** A product or quotient that lies below a binary64 number is not rounded
    beyond it. *)
Lemma binary_round_aux_below (M : positive) (E : Z) (mK : positive) (eK : Z) :
  -2148 <= E ->
  E <= fexp prec emax (Zpos (digits2_pos M) + E) ->
  bounded prec emax mK eK = true ->
  Zpos M * 2 ^ (E + 2148) < Zpos mK * 2 ^ (eK + 2148) ->
  let r := binary_round_aux prec emax false (Zpos M) E loc_Exact in
  r <> S754_nan /\ 0 <= units r <= units (S754_finite false mK eK).
Proof.
  intros HE Hk HK Hlt r.
  destruct (@binary_round_aux_nonneg (Zpos M) E loc_Exact ltac:(lia))
    as [Hnan Hnonneg].
  fold r in Hnan, Hnonneg. split; [exact Hnan |]. split; [exact Hnonneg |].
  destruct (@binary_round_aux_spec false (Zpos M) E loc_Exact ltac:(lia))
    as (m1 & Hm1 & Hr).
  fold r in Hr. cbv zeta in Hr. cbn [Zdigits2] in Hm1, Hr.
  rewrite !fexp_binary64 in *.
  pose proof (digits2_pos_bounds M) as [HdM _].
  set (d := Zpos (digits2_pos M)) in *.
  assert (Hd : 1 <= d) by (unfold d; lia).
  apply bounded_spec in HK. destruct HK as (HeK & HmK & _).
  set (k1 := Z.max (Z.max (d + E - 53) (-1074) - E) 0) in *.
  set (e1 := E + k1) in *.
  (* the exponent after the first shift is at most the one of the bound *)
  assert (HA : d + E - 53 <= eK).
  { assert (Hpow : 2 ^ (d - 1 + (E + 2148)) < 2 ^ (53 + (eK + 2148))).
    { rewrite (Z.pow_add_r 2 (d - 1) (E + 2148)),
        (Z.pow_add_r 2 53 (eK + 2148)) by lia.
      assert (0 < 2 ^ (E + 2148)) by (apply Z.pow_pos_nonneg; lia).
      assert (0 < 2 ^ (eK + 2148)) by (apply Z.pow_pos_nonneg; lia).
      apply Z.le_lt_trans with (Zpos M * 2 ^ (E + 2148)).
      { apply Z.mul_le_mono_nonneg_r; lia. }
      apply Z.lt_trans with (1 := Hlt).
      apply Z.mul_lt_mono_pos_r; lia. }
    apply Z.pow_lt_mono_r_iff in Hpow; lia. }
  assert (He1 : -1074 <= e1 <= eK) by lia.
  set (Kint := Zpos mK * 2 ^ (eK - e1)).
  assert (Hk1 : 0 < 2 ^ k1) by (apply Z.pow_pos_nonneg; lia).
  assert (HB : Zpos M < Kint * 2 ^ k1).
  { assert (Hp : 0 < 2 ^ (E + 2148)) by (apply Z.pow_pos_nonneg; lia).
    apply Z.mul_lt_mono_pos_r with (1 := Hp).
    apply Z.lt_le_trans with (1 := Hlt). apply Z.eq_le_incl.
    unfold Kint. rewrite <- !Z.mul_assoc, <- !Z.pow_add_r by lia.
    do 2 f_equal. lia. }
  assert (Hm0 : Zpos M / 2 ^ k1 < Kint).
  { apply Z.div_lt_upper_bound; [exact Hk1 |]. lia. }
  assert (Hm0' : 0 <= Zpos M / 2 ^ k1) by (apply Z.div_pos; lia).
  assert (Hm1K : 0 <= m1 <= Kint) by lia.
  assert (HKunits : Kint * 2 ^ (e1 + 1074) = Zpos mK * 2 ^ (eK + 1074)).
  { unfold Kint. rewrite <- Z.mul_assoc, <- Z.pow_add_r by lia.
    do 2 f_equal. lia. }
  set (k2 := Z.max (Z.max (Zdigits2 m1 + e1 - 53) (-1074) - e1) 0) in *.
  assert (Hk2 : 0 < 2 ^ k2) by (apply Z.pow_pos_nonneg; lia).
  assert (He2 : e1 + k2 <= eK).
  { destruct m1 as [| q | q]; [cbn [Zdigits2] in *; lia | | lia].
    cbn [Zdigits2] in *.
    pose proof (digits2_pos_bounds q) as [Hdq _].
    set (d1 := Zpos (digits2_pos q)) in *.
    assert (Hd1 : 1 <= d1) by (unfold d1; lia).
    assert (Hpow : 2 ^ (d1 - 1 + (e1 + 1074)) < 2 ^ (53 + (eK + 1074))).
    { rewrite (Z.pow_add_r 2 (d1 - 1) (e1 + 1074)),
        (Z.pow_add_r 2 53 (eK + 1074)) by lia.
      assert (0 < 2 ^ (e1 + 1074)) by (apply Z.pow_pos_nonneg; lia).
      assert (0 < 2 ^ (eK + 1074)) by (apply Z.pow_pos_nonneg; lia).
      apply Z.le_lt_trans with (Zpos q * 2 ^ (e1 + 1074)).
      { apply Z.mul_le_mono_nonneg_r; lia. }
      apply Z.le_lt_trans with (Kint * 2 ^ (e1 + 1074)).
      { apply Z.mul_le_mono_nonneg_r; lia. }
      rewrite HKunits. apply Z.mul_lt_mono_pos_r; lia. }
    apply Z.pow_lt_mono_r_iff in Hpow; lia. }
  assert (Hm2 : m1 / 2 ^ k2 * 2 ^ k2 <= m1).
  { rewrite Z.mul_comm. apply Z.mul_div_le. exact Hk2. }
  assert (Hm2' : 0 <= m1 / 2 ^ k2) by (apply Z.div_pos; lia).
  rewrite Hr. destruct (m1 / 2 ^ k2) as [| m | m] eqn:Hq; [| | lia].
  - cbn [units cond_Zopp].
    apply Z.mul_nonneg_nonneg; [lia | apply Z.pow_nonneg; lia].
  - replace (e1 + k2 <=? 971) with true by (symmetry; apply Z.leb_le; lia).
    cbn [units cond_Zopp]. rewrite <- HKunits.
    replace (e1 + k2 + 1074) with (k2 + (e1 + 1074)) by lia.
    rewrite Z.pow_add_r by lia.
    assert (0 <= 2 ^ (e1 + 1074)) by (apply Z.pow_nonneg; lia).
    rewrite Z.mul_assoc.
    apply Z.mul_le_mono_nonneg_r; [assumption | lia].
Qed.

Lemma binary_round_aux_canonical (s : bool) (m : positive) (e : Z) :
  bounded prec emax m e = true ->
  binary_round_aux prec emax s (Zpos m) e loc_Exact = S754_finite s m e.
Proof.
  unfold bounded, canonical_mantissa. intros H.
  apply andb_prop in H. destruct H as [Hc He]. apply Z.eqb_eq in Hc.
  unfold binary_round_aux, shr_fexp. cbn [Zdigits2 shr_record_of_loc].
  rewrite Hc, Z.sub_diag. cbn [shr shr_m loc_of_shr_record round_nearest_even
                                Zdigits2 shr_record_of_loc].
  rewrite Hc, Z.sub_diag. cbn [shr shr_m]. rewrite He. reflexivity.
Qed.

Lemma digits2_pos_iter_xO (p j : positive) :
  digits2_pos (Pos.iter xO p j) = (digits2_pos p + j)%positive.
Proof.
  induction j as [| j IH] using Pos.peano_ind.
  - cbn. rewrite Pos.add_1_r. reflexivity.
  - rewrite Pos.iter_succ. cbn [digits2_pos]. rewrite IH.
    rewrite Pos.add_succ_r. reflexivity.
Qed.

Lemma Zpos_iter_xO (p j : positive) :
  Zpos (Pos.iter xO p j) = Zpos p * 2 ^ Zpos j.
Proof.
  induction j as [| j IH] using Pos.peano_ind.
  - cbn [Pos.iter]. change (2 ^ 1) with 2. lia.
  - rewrite Pos.iter_succ, Pos2Z.inj_xO, IH, Pos2Z.inj_succ,
      Z.pow_succ_r by lia. ring.
Qed.

(** An integer below [2^53] is a binary64 number. *)
Lemma binary_round_integer (s : bool) (p : positive) :
  Zpos p < 2 ^ 53 ->
  exists (m : positive) (e : Z),
    binary_round prec emax s p 0 = S754_finite s m e
    /\ bounded prec emax m e = true
    /\ Zpos m * 2 ^ (e + 1074) = Zpos p * 2 ^ 1074.
Proof.
  intros Hp. pose proof (digits2_pos_bounds p) as [Hlo Hhi].
  assert (Hd : Zpos (digits2_pos p) <= 53).
  { assert (Hpow : 2 ^ (Zpos (digits2_pos p) - 1) < 2 ^ 53) by lia.
    apply Z.pow_lt_mono_r_iff in Hpow; lia. }
  unfold binary_round, shl_align. rewrite fexp_binary64, Z.add_0_r.
  replace (Z.max (Zpos (digits2_pos p) - 53) (-1074) - 0)
    with (Zpos (digits2_pos p) - 53) by lia.
  destruct (Zpos (digits2_pos p) - 53) as [| j | j] eqn:Hj; [| lia |].
  - assert (Hb : bounded prec emax p 0 = true).
    { unfold bounded, canonical_mantissa. rewrite fexp_binary64, Z.add_0_r.
      replace (Zpos (digits2_pos p)) with 53 by lia. reflexivity. }
    exists p, 0. rewrite (@binary_round_aux_canonical s _ _ Hb).
    split; [reflexivity | split; [exact Hb | reflexivity]].
  - replace (Z.max (Zneg j) (-1074)) with (Zneg j) by lia.
    assert (Hb : bounded prec emax (Pos.iter xO p j) (Zneg j) = true).
    { unfold bounded, canonical_mantissa.
      rewrite fexp_binary64, digits2_pos_iter_xO, Pos2Z.inj_add.
      change (emax - prec) with 971.
      apply andb_true_intro. split; [apply Z.eqb_eq | apply Z.leb_le]; lia. }
    exists (Pos.iter xO p j), (Zneg j).
    rewrite (@binary_round_aux_canonical s _ _ Hb).
    split; [reflexivity | split; [exact Hb |]].
    rewrite Zpos_iter_xO, <- Z.mul_assoc, <- Z.pow_add_r by lia.
    do 2 f_equal. lia.
Qed.

Lemma of_Z_units (n : Z) :
  Z.abs n < 2 ^ 53 ->
  Prim2SF (F64.of_Z n) <> S754_nan
  /\ units (Prim2SF (F64.of_Z n)) = n * 2 ^ 1074.
Proof.
  intros Hn. unfold F64.of_Z.
  destruct n as [| p | p]; cbn [binary_normalize].
  - rewrite Prim2SF_SF2Prim by reflexivity. split; [discriminate | reflexivity].
  - destruct (@binary_round_integer false p Hn) as (m & e & -> & Hb & Hu).
    rewrite Prim2SF_SF2Prim by exact Hb. split; [discriminate | exact Hu].
  - destruct (@binary_round_integer true p Hn) as (m & e & -> & Hb & Hu).
    rewrite Prim2SF_SF2Prim by exact Hb. split; [discriminate |].
    cbn [units cond_Zopp]. rewrite Hu. lia.
Qed.

(** [Math.round] is [floor (x + 1/2)]. *)
Lemma round_units (x : float) :
  Prim2SF x <> S754_nan ->
  Prim2SF (F64.round x) <> S754_nan
  /\ units (Prim2SF (F64.round x))
     = (units (Prim2SF x) + 2 ^ 1073) / 2 ^ 1074 * 2 ^ 1074.
Proof.
  intros Hnan. unfold F64.round.
  pose proof (Prim2SF_valid x) as Hvalid.
  assert (Hpow : 0 < 2 ^ 1074) by (apply Z.pow_pos_nonneg; lia).
  assert (Hhalf : 2 ^ 1074 = 2 * 2 ^ 1073)
    by (rewrite <- Z.pow_succ_r by lia; reflexivity).
  assert (Hwhole : forall v : Z,
            (v * 2 ^ 1074 + 2 ^ 1073) / 2 ^ 1074 * 2 ^ 1074 = v * 2 ^ 1074).
  { intros v. f_equal. rewrite Z.add_comm, Z.div_add by lia.
    rewrite Z.div_small; lia. }
  destruct (Prim2SF x) as [s | s | | s m e] eqn:Hx; [| | congruence |].
  - rewrite Hx. split; [discriminate |]. cbn [units].
    rewrite Z.add_0_l, Z.div_small by lia. reflexivity.
  - rewrite Hx. split; [discriminate |]. cbn [units].
    replace (cond_Zopp s (2 ^ 2098))
      with (cond_Zopp s (2 ^ 1024) * 2 ^ 1074).
    { symmetry. apply Hwhole. }
    change 2098 with (1024 + 1074). rewrite Z.pow_add_r by lia.
    destruct s; cbn [cond_Zopp]; lia.
  - cbn [valid_binary] in Hvalid. apply bounded_spec in Hvalid.
    destruct Hvalid as (He & Hm & _).
    destruct e as [| e | k].
    + rewrite Hx. split; [discriminate |]. cbn [units].
      replace (cond_Zopp s (Zpos m * 2 ^ (0 + 1074)))
        with (cond_Zopp s (Zpos m) * 2 ^ 1074)
        by (destruct s; cbn [cond_Zopp Z.add]; lia).
      symmetry. apply Hwhole.
    + rewrite Hx. split; [discriminate |]. cbn [units].
      replace (cond_Zopp s (Zpos m * 2 ^ (Zpos e + 1074)))
        with (cond_Zopp s (Zpos m * 2 ^ Zpos e) * 2 ^ 1074).
      { symmetry. apply Hwhole. }
      rewrite Z.pow_add_r by lia. destruct s; cbn [cond_Zopp]; lia.
    + cbv zeta. rewrite Z.shiftr_div_pow2 by lia.
      set (z := cond_Zopp s (Zpos m)).
      assert (Hk : 0 < 2 ^ Zpos k) by (apply Z.pow_pos_nonneg; lia).
      assert (Hk1 : 2 ^ Zpos k = 2 * 2 ^ (Zpos k - 1)).
      { rewrite <- Z.pow_succ_r by lia. f_equal. lia. }
      assert (Hk' : 0 < 2 ^ (1074 - Zpos k)) by (apply Z.pow_pos_nonneg; lia).
      assert (Hunits : (cond_Zopp s (Zpos m * 2 ^ (Zneg k + 1074)) + 2 ^ 1073)
                       / 2 ^ 1074
                       = (z + 2 ^ (Zpos k - 1)) / 2 ^ Zpos k).
      { replace (cond_Zopp s (Zpos m * 2 ^ (Zneg k + 1074)) + 2 ^ 1073)
          with ((z + 2 ^ (Zpos k - 1)) * 2 ^ (1074 - Zpos k)).
        - replace (2 ^ 1074) with (2 ^ Zpos k * 2 ^ (1074 - Zpos k)).
          + apply Z.div_mul_cancel_r; lia.
          + rewrite <- Z.pow_add_r by lia. f_equal. lia.
        - rewrite Z.mul_add_distr_r, <- Z.pow_add_r by lia.
          replace (Zpos k - 1 + (1074 - Zpos k)) with 1073 by lia.
          replace (Zneg k + 1074) with (1074 - Zpos k) by lia.
          subst z. destruct s; cbn [cond_Zopp]; lia. }
      cbn [units]. rewrite Hunits.
      set (n := (z + 2 ^ (Zpos k - 1)) / 2 ^ Zpos k).
      assert (Hn : Z.abs n < 2 ^ 53).
      { assert (- 2 ^ 53 < n < 2 ^ 53); [| lia].
        assert (Hz : - 2 ^ 53 < z < 2 ^ 53)
          by (subst z; destruct s; cbn [cond_Zopp]; lia).
        assert (0 < 2 ^ 53) by (apply Z.pow_pos_nonneg; lia).
        assert (0 < 2 ^ (Zpos k - 1)) by (apply Z.pow_pos_nonneg; lia).
        subst n. split.
        - apply Z.lt_le_trans with (- 2 ^ 53 + 1); [lia |].
          apply Z.div_le_lower_bound; [lia |]. nia.
        - apply Z.div_lt_upper_bound; [lia |]. nia. }
      destruct (n =? 0) eqn:Hzero.
      * apply Z.eqb_eq in Hzero. rewrite Hzero.
        destruct s; (split; [| reflexivity]);
          match goal with |- Prim2SF ?c <> _ =>
            change (Prim2SF c) with (S754_zero true) ||
            change (Prim2SF c) with (S754_zero false)
          end; discriminate.
      * apply of_Z_units. exact Hn.
Qed.

Lemma units_one : units (Prim2SF 1) = 2 ^ 1074.
Proof.
  change (Prim2SF 1) with (S754_finite false (2 ^ 52) (-52)).
  cbn [units cond_Zopp]. change (Zpos (2 ^ 52)) with (2 ^ 52).
  rewrite <- Z.pow_add_r by lia. reflexivity.
Qed.

Lemma units_half : units (Prim2SF 0.5) = 2 ^ 1073.
Proof.
  change (Prim2SF 0.5) with (S754_finite false (2 ^ 52) (-53)).
  cbn [units cond_Zopp]. change (Zpos (2 ^ 52)) with (2 ^ 52).
  rewrite <- Z.pow_add_r by lia. reflexivity.
Qed.

Lemma is_finite_spec (x : float) :
  is_finite x = true ->
  match Prim2SF x with
  | S754_zero _ | S754_finite _ _ _ => True
  | _ => False
  end.
Proof.
  unfold is_finite, is_nan, is_infinity. rewrite !eqb_spec, abs_spec.
  change (Prim2SF infinity) with (S754_infinity false).
  destruct (Prim2SF x) as [s | s | | s m e]; cbn; try discriminate; trivial.
  destruct s; discriminate.
Qed.

(** The quotient of a positive finite number by a positive one. *)
Lemma div_nonneg (a b : float) :
  (0 <? a)%float = true -> is_finite a = true -> (0 <? b)%float = true ->
  Prim2SF (a / b) <> S754_nan /\ 0 <= units (Prim2SF (a / b)).
Proof.
  intros Ha Hfin Hb. apply ltb_units in Ha, Hb. apply is_finite_spec in Hfin.
  change (units (Prim2SF 0)) with 0 in Ha, Hb.
  destruct Ha as (_ & _ & Ha), Hb as (_ & Hnb & Hb).
  rewrite div_spec. unfold SF64div, SFdiv.
  destruct (Prim2SF a) as [sa | sa | | sa ma ea]; try contradiction;
    [cbn in Ha; lia |].
  destruct (Prim2SF b) as [sb | sb | | sb mb eb]; [cbn in Hb; lia | | congruence |].
  - split; [discriminate | cbn; lia].
  - assert (Hsa : sa = false).
    { destruct sa; [| reflexivity]. cbn [units cond_Zopp] in Ha.
      assert (0 < 2 ^ (ea + 1074) \/ 2 ^ (ea + 1074) = 0)
        by (pose proof (Z.pow_nonneg 2 (ea + 1074)); lia).
      nia. }
    assert (Hsb : sb = false).
    { destruct sb; [| reflexivity]. cbn [units cond_Zopp] in Hb.
      assert (0 < 2 ^ (eb + 1074) \/ 2 ^ (eb + 1074) = 0)
        by (pose proof (Z.pow_nonneg 2 (eb + 1074)); lia).
      nia. }
    subst sa sb. cbn [xorb].
    destruct (SFdiv_core_binary prec emax (Zpos ma) ea (Zpos mb) eb)
      as [[mz ez] lz] eqn:Hcore.
    apply binary_round_aux_nonneg.
    unfold SFdiv_core_binary in Hcore.
    match type of Hcore with
    | (let '(q, r) := Z.div_eucl ?m' _ in _) = _ =>
        assert (Hm' : 0 <= m');
          [| pose proof (Z.div_pos m' (Zpos mb) Hm' ltac:(lia)) as Hq;
             unfold Z.div in Hq;
             destruct (Z.div_eucl m' (Zpos mb)) as [q r0] ]
    end.
    + destruct (_ - _ - _); [lia | | lia].
      apply Z.shiftl_nonneg. lia.
    + injection Hcore as <- _ _. exact Hq.
Qed.

(** A number above 1 times a ratio in (0,1) stays in between 0 and the
    number. *)
Lemma mul_below (p r : float) :
  (1 <? p)%float = true -> (0 <? r)%float = true -> (r <? 1)%float = true ->
  Prim2SF (p * r) <> S754_nan
  /\ 0 <= units (Prim2SF (p * r)) <= units (Prim2SF p).
Proof.
  intros Hp Hr0 Hr1. apply ltb_units in Hp, Hr0, Hr1.
  rewrite units_one in Hp, Hr1. change (units (Prim2SF 0)) with 0 in Hr0.
  destruct Hp as (_ & Hnp & Hp), Hr0 as (_ & Hnr & Hr0), Hr1 as (_ & _ & Hr1).
  pose proof (Prim2SF_valid p) as Hvp. pose proof (Prim2SF_valid r) as Hvr.
  assert (Hpow : 0 < 2 ^ 1074) by (apply Z.pow_pos_nonneg; lia).
  rewrite mul_spec. unfold SF64mul, SFmul.
  destruct (Prim2SF r) as [sr | sr | | sr mr er]; [cbn in Hr0; lia | | congruence |].
  { exfalso. destruct sr; cbn [units cond_Zopp] in Hr0, Hr1.
    - assert (0 < 2 ^ 2098) by (apply Z.pow_pos_nonneg; lia). lia.
    - assert (2 ^ 1074 <= 2 ^ 2098) by (apply Z.pow_le_mono_r; lia). lia. }
  cbn [valid_binary] in Hvr. pose proof (finite_units _ _ Hvr) as Hur.
  apply bounded_spec in Hvr. destruct Hvr as (Her & Hmr & _).
  assert (Hsr : sr = false)
    by (destruct sr; [cbn [units cond_Zopp] in Hr0; lia | reflexivity]).
  subst sr. cbn [units cond_Zopp] in Hr0, Hr1.
  destruct (Prim2SF p) as [sp | sp | | sp mp ep]; [cbn in Hp; lia | | congruence |].
  { assert (0 < 2 ^ 2098) by (apply Z.pow_pos_nonneg; lia).
    destruct sp; cbn [units cond_Zopp] in Hp; [lia |].
    cbn [xorb units cond_Zopp]. split; [discriminate | lia]. }
  cbn [valid_binary] in Hvp. pose proof (finite_units _ _ Hvp) as Hup.
  pose proof (bounded_spec _ _ Hvp) as (Hep & Hmp & Hnormal).
  assert (Hsp : sp = false)
    by (destruct sp; [cbn [units cond_Zopp] in Hp; lia | reflexivity]).
  subst sp. cbn [units cond_Zopp xorb] in Hp |- *.
  assert (Hmp52 : 2 ^ 52 <= Zpos mp).
  { apply Hnormal. destruct (Z.eq_dec ep (-1074)) as [-> |]; [| lia].
    exfalso. change (-1074 + 1074) with 0 in Hp. rewrite Z.pow_0_r in Hp.
    assert (2 ^ 53 <= 2 ^ 1074) by (apply Z.pow_le_mono_r; lia). lia. }
  apply binary_round_aux_below; [lia | | exact Hvp |].
  - rewrite fexp_binary64.
    pose proof (digits2_pos_bounds (mp * mr)) as [_ Hhi].
    assert (Hd : 52 < Zpos (digits2_pos (mp * mr))).
    { apply (Z.pow_lt_mono_r_iff 2); [lia | lia |].
      apply Z.le_lt_trans with (2 := Hhi). rewrite Pos2Z.inj_mul. nia. }
    lia.
  - replace (Zpos (mp * mr) * 2 ^ (ep + er + 2148))
      with (Zpos mp * 2 ^ (ep + 1074) * (Zpos mr * 2 ^ (er + 1074))).
    + replace (Zpos mp * 2 ^ (ep + 2148))
        with (Zpos mp * 2 ^ (ep + 1074) * 2 ^ 1074).
      * apply Z.mul_lt_mono_pos_l; [lia | exact Hr1].
      * rewrite <- Z.mul_assoc, <- Z.pow_add_r by lia. do 2 f_equal. lia.
    + rewrite Pos2Z.inj_mul.
      replace (ep + er + 2148) with ((ep + 1074) + (er + 1074)) by lia.
      rewrite (Z.pow_add_r 2 (ep + 1074) (er + 1074)) by lia. ring.
Qed.

Lemma round_whole (u : Z) :
  0 <= u -> 0 <= (u + 2 ^ 1073) / 2 ^ 1074 * 2 ^ 1074.
Proof.
  intros Hu. assert (0 < 2 ^ 1074) by (apply Z.pow_pos_nonneg; lia).
  assert (0 < 2 ^ 1073) by (apply Z.pow_pos_nonneg; lia).
  apply Z.mul_nonneg_nonneg; [apply Z.div_pos |]; lia.
Qed.

(** The two lengths that [startNewPeriod] computes, in binary64. *)
Lemma binary64_lengths (fs f0m ratio : float) :
  let period := (if 0 <? f0m then F64.round (fs / f0m) else 1)%float in
  let open := (if 1 <? period then F64.round (period * ratio) else 0)%float in
  (0 <? fs)%float = true -> is_finite fs = true ->
  (0 <? ratio)%float = true -> (ratio <? 1)%float = true ->
  (0 <=? open)%float = true
  /\ (open <=? period)%float = true
  /\ (1 <=? period)%float
     = (if 0 <? f0m then 0.5 <=? fs / f0m else true)%float.
Proof.
  intros period open Hfs Hfin Hr0 Hr1. subst open period.
  assert (Hpow : 0 < 2 ^ 1074) by (apply Z.pow_pos_nonneg; lia).
  assert (Hhalf : 2 ^ 1074 = 2 * 2 ^ 1073)
    by (rewrite <- Z.pow_succ_r by lia; reflexivity).
  destruct (0 <? f0m)%float eqn:Hf0; [| repeat split].
  destruct (@div_nonneg fs f0m Hfs Hfin Hf0) as [Hnq Hq].
  destruct (@round_units (fs / f0m) Hnq) as [Hnp Hp].
  set (q := (fs / f0m)%float) in *. set (p := F64.round q) in *.
  assert (Hp0 : 0 <= units (Prim2SF p))
    by (rewrite Hp; apply round_whole; exact Hq).
  split; [| split].
  - destruct (1 <? p)%float eqn:Hbig.
    + destruct (@mul_below p ratio Hbig Hr0 Hr1) as (Hny & Hy & _).
      destruct (@round_units (p * ratio) Hny) as [Hno Ho].
      apply leb_units. split; [discriminate |]. split; [exact Hno |].
      change (units (Prim2SF 0)) with 0. rewrite Ho. apply round_whole, Hy.
    + reflexivity.
  - destruct (1 <? p)%float eqn:Hbig.
    + destruct (@mul_below p ratio Hbig Hr0 Hr1) as (Hny & Hy0 & Hy).
      destruct (@round_units (p * ratio) Hny) as [Hno Ho].
      apply leb_units. split; [exact Hno |]. split; [exact Hnp |].
      rewrite Ho. rewrite Hp in Hy |- *.
      apply Z.mul_le_mono_nonneg_r; [lia |].
      set (v := (units (Prim2SF q) + 2 ^ 1073) / 2 ^ 1074) in *.
      apply Z.le_trans with ((v * 2 ^ 1074 + 2 ^ 1073) / 2 ^ 1074).
      * apply Z.div_le_mono; lia.
      * rewrite Z.add_comm, Z.div_add by lia. rewrite Z.div_small; lia.
    + apply leb_units. split; [discriminate |]. split; [exact Hnp |].
      exact Hp0.
  - apply eq_true_iff_eq. rewrite !leb_units, units_one, units_half, Hp.
    split.
    + intros (_ & _ & Hone). split; [discriminate |]. split; [exact Hnq |].
      destruct (Z_lt_le_dec (units (Prim2SF q)) (2 ^ 1073)) as [Hsmall |];
        [| assumption].
      rewrite Z.div_small in Hone; lia.
    + intros (_ & _ & Hge). split; [discriminate |]. split; [exact Hnp |].
      replace (2 ^ 1074) with (1 * 2 ^ 1074) at 1 by lia.
      apply Z.mul_le_mono_nonneg_r; [lia |].
      apply Z.div_le_lower_bound; lia.
Qed.

End Binary64Arithmetic.

(* ------------------------------------------------------------------ *)
(** ** dB values and the period lengths, in binary64 *)

Section Binary64.

Variable M : MathLib float.

#[local] Instance binary64 : JsNumber := F64Number M.

Local Open Scope js_scope.

(** C6.  For every binary64 number [d], [dbToLin d] is 0 when [d <= -99] or
    [d] is NaN, and [Math.pow(10, d / 20)] otherwise.  With a [Math.pow] for
    which [pow(10, 0)] is 1 and [pow(10, -1)] is 0.1: [dbToLin 0 = 1],
    [dbToLin (-20) = 0.1], [dbToLin (-99) = 0] and [dbToLin NaN = 0]. *)
Theorem dbToLin_values :
  Math_pow (lit 10) (lit 0) = lit 1 ->
  Math_pow (lit 10) (lit (-1)) = lit 0.1 ->
  (forall d : num, (d <=? lit (-99)) = true \/ isNaN d = true -> dbToLin d = lit 0)
  /\ (forall d : num,
        (d <=? lit (-99)) = false -> isNaN d = false ->
        dbToLin d = Math_pow (lit 10) (d / lit 20))
  /\ dbToLin (lit 0) = lit 1
  /\ dbToLin (lit (-20)) = lit 0.1
  /\ dbToLin (lit (-99)) = lit 0
  /\ dbToLin NaN = lit 0.
Proof.
  intros Hpow0 Hpow1.
  assert (Hlow : forall d : num,
            (d <=? lit (-99)) = true \/ isNaN d = true -> dbToLin d = lit 0).
  { intros d [Hd | Hd]; unfold dbToLin; rewrite Hd; [reflexivity |].
    now rewrite orb_true_r. }
  assert (Hhigh : forall d : num,
            (d <=? lit (-99)) = false -> isNaN d = false ->
            dbToLin d = Math_pow (lit 10) (d / lit 20)).
  { intros d Hd Hnan. unfold dbToLin. now rewrite Hd, Hnan. }
  split; [exact Hlow |]. split; [exact Hhigh |]. split; [| split; [| split]].
  - rewrite Hhigh by (vm_compute; reflexivity).
    replace (lit 0 / lit 20) with (lit 0) by (vm_compute; reflexivity).
    exact Hpow0.
  - rewrite Hhigh by (vm_compute; reflexivity).
    replace (lit (-20) / lit 20) with (lit (-1)) by (vm_compute; reflexivity).
    exact Hpow1.
  - apply Hlow. left. vm_compute. reflexivity.
  - apply Hlow. right. vm_compute. reflexivity.
Qed.

(** C3 (as amended).  In binary64: when [startNewPeriod] returns, the period
    state holds the modulated F0 of the active parameters, and
    - when the modulated F0 is not greater than 0, the period length is 1
      and the open phase length is 0; otherwise the period length is
      [round (fs / F0)];
    - for a positive finite sample rate and an open phase ratio in (0,1),
      [0 <= openPhaseLength <= periodLength], and the period length is at
      least 1 exactly when the modulated F0 is not greater than 0 or the
      quotient [fs / F0], as computed, is at least 0.5. *)
Theorem startNewPeriod_lengths :
  forall this this' : Generator,
    startNewPeriod this = (Ok tt, this') ->
    exists (parms : FrameParms) (p : PeriodState),
      fParms this' = Some parms
      /\ pState this' = Some p
      /\ ps_f0 p
         = performFrequencyModulation (f0 parms) (flutterLevel parms)
             (absPosition this' / sampleRate (mParms this')
              + flutterTimeOffset this')
      /\ ((ps_f0 p >? lit 0) = false ->
          periodLength p = lit 1 /\ openPhaseLength p = lit 0)
      /\ ((ps_f0 p >? lit 0) = true ->
          periodLength p = Math_round (sampleRate (mParms this') / ps_f0 p))
      /\ ((lit 0 <? sampleRate (mParms this')) = true ->
          isFinite (sampleRate (mParms this')) = true ->
          (lit 0 <? openPhaseRatio parms) = true ->
          (openPhaseRatio parms <? lit 1) = true ->
          (lit 0 <=? openPhaseLength p) = true
          /\ (openPhaseLength p <=? periodLength p) = true
          /\ (lit 1 <=? periodLength p)
             = (if ps_f0 p >? lit 0
                then lit (1 # 2) <=? sampleRate (mParms this') / ps_f0 p
                else true)).
Proof.
  intros this this' Hrun.
  destruct (startNewPeriod_scheduled _ Hrun)
    as (parms & p & Hparms & Hp & Hf0 & Hperiod & Hopen & _).
  exists parms, p. rewrite Hopen, Hperiod.
  repeat (split; [assumption |]).
  unfold newPeriodLength, newOpenPhaseLength.
  split; [intros ->; split; reflexivity |].
  split; [intros ->; reflexivity |].
  exact (@binary64_lengths (sampleRate (mParms this')) (ps_f0 p)
           (openPhaseRatio parms)).
Qed.

End Binary64.

(* ================================================================== *)
(** * Concrete runs

    Binary64 runs use the reference [Math] library, a sample rate of 44100
    Hz and the frame parameters of the demo application. *)

(** From a fact computed about a run that returned to the fact about its
    result. *)
Lemma omap_Ok {A B : Type} (f : A -> B) {o : Outcome A} {a : A} {b : B} :
  o = Ok a -> omap f o = Ok b -> f a = b.
Proof. intros ->. cbn. congruence. Qed.

Section RunsBinary64.

#[local] Existing Instance F64Ref.

Local Open Scope js_scope.

(** Witness of C7, its failing input.  [new AntiResonator(44100)] followed
    by [set(1e-6, 1e-15)]: the arguments are accepted, [a0] is 0, and the
    filter, which the constructor left in passthrough mode, still returns
    its input: the step for the input 1 returns 1, not 0. *)
Lemma AntiResonator_degenerate_set_passes_input :
  let this := AntiResonator_new (lit 44100) in
  let this' := snd (AntiResonator_set (lit 1e-6) (lit 1e-15) this) in
  fst (AntiResonator_set (lit 1e-6) (lit 1e-15) this) = Ok tt
  /\ (AntiResonator_a0 (lit 44100) (lit 1e-6) (lit 1e-15) ==? lit 0) = true
  /\ ares_passthrough this = true
  /\ AntiResonator_step (lit 1) this' = (Ok (lit 1), this')
  /\ (lit 1 ==? lit 0) = false.
Proof.
  intros this this'.
  assert (Hset : fst (AntiResonator_set (lit 1e-6) (lit 1e-15) this) = Ok tt)
    by (vm_compute; reflexivity).
  assert (Ha0 : (AntiResonator_a0 (ares_sampleRate this) (lit 1e-6) (lit 1e-15)
                 ==? lit 0) = true) by (vm_compute; reflexivity).
  assert (Hpass : ares_passthrough this = true) by reflexivity.
  destruct (AntiResonator_set_cases this (lit 1e-6) (lit 1e-15) Hset)
    as (_ & _ & _ & Hzero).
  destruct (Hzero Ha0) as (_ & _ & _ & _ & _ & Hstep & _).
  split; [exact Hset |]. split; [exact Ha0 |]. split; [exact Hpass |].
  split; [exact (Hstep Hpass (lit 1)) |].
  vm_compute. reflexivity.
Defined.

(** Witness of C6: the reference [Math.pow] has the two values. *)
Lemma dbToLin_values_witness :
  Math_pow (lit 10) (lit 0) = lit 1
  /\ Math_pow (lit 10) (lit (-1)) = lit 0.1
  /\ dbToLin (lit 0) = lit 1
  /\ dbToLin (lit (-20)) = lit 0.1
  /\ dbToLin (lit (-99)) = lit 0
  /\ dbToLin NaN = lit 0.
Proof.
  assert (H0 : Math_pow (lit 10) (lit 0) = lit 1) by (vm_compute; reflexivity).
  assert (H1 : Math_pow (lit 10) (lit (-1)) = lit 0.1)
    by (vm_compute; reflexivity).
  split; [exact H0 |]. split; [exact H1 |].
  destruct (@dbToLin_values F64.refMath H0 H1) as (_ & _ & Hvalues).
  exact Hvalues.
Defined.

(** Witness of C1.  After three samples of a first frame the generator is
    within a period of 179 samples: a call with another parameter object
    and a buffer of four samples installs nothing and keeps the object
    pending.  On a new generator the first iteration starts a period and
    adopts the pending object; the three iterations after it, with nothing
    pending any more, leave what it installed. *)
Lemma frame_parameters_adopted_witness :
  exists s : Generator * Float64Array,
    firstFrame (demoMainParms impulsive) (demoFrameParms 1) 3 = Ok s
    /\ sameObject (demoFrameParms 2) (fParms (fst s)) = false
    /\ withinPeriod 4 0
         (set_newFParms (Some (demoFrameParms 2)) (fst s), repeat (lit 0) 4)
       = true
    /\ (let result := generateFrame (demoFrameParms 2) (fst s, repeat (lit 0) 4) in
        installed (fst (snd result)) = installed (fst s)
        /\ newFParms (fst (snd result)) = Some (demoFrameParms 2))
    /\ exists first : Generator,
         Generator_new (demoMainParms impulsive) demoRandom = Ok first
         /\ atPeriodStart first = true
         /\ (let result :=
               generateFrame_sample 0
                 (set_newFParms (Some (demoFrameParms 2)) first, [lit 0]) in
             fst result = Ok tt
             /\ fParms (fst (snd result)) = Some (demoFrameParms 2)
             /\ newFParms (fst (snd result)) = None
             /\ adopted (demoFrameParms 2) first (fst (snd result)))
         /\ (let mid :=
               generateFrame_loop 0 1
                 (set_newFParms (Some (demoFrameParms 2)) first,
                  repeat (lit 0) 4) in
             let result :=
               generateFrame (demoFrameParms 2) (first, repeat (lit 0) 4) in
             fst mid = Ok tt
             /\ withinPeriod 3 1 (snd mid) = true
             /\ installed (fst (snd result)) = installed (fst (snd mid))
             /\ newFParms (fst (snd result)) = newFParms (fst (snd mid))).
Proof.
  destruct (firstFrame (demoMainParms impulsive) (demoFrameParms 1) 3)
    as [[this outBuf] | e] eqn:Hrun.
  2: { assert (Hok : omap (fun _ => tt)
                       (firstFrame (demoMainParms impulsive) (demoFrameParms 1) 3)
                     = Ok tt) by (vm_compute; reflexivity).
       rewrite Hrun in Hok. discriminate Hok. }
  exists (this, outBuf). cbn [fst snd]. split; [reflexivity |].
  assert (Hfresh : sameObject (demoFrameParms 2) (fParms this) = false).
  { apply (omap_Ok (fun s => sameObject (demoFrameParms 2) (fParms (fst s))) Hrun).
    vm_compute. reflexivity. }
  assert (Hwithin : withinPeriod 4 0
                      (set_newFParms (Some (demoFrameParms 2)) this,
                       repeat (lit 0) 4) = true).
  { apply (omap_Ok (fun s => withinPeriod 4 0
                               (set_newFParms (Some (demoFrameParms 2)) (fst s),
                                repeat (lit 0) 4)) Hrun).
    vm_compute. reflexivity. }
  split; [exact Hfresh |]. split; [exact Hwithin |].
  split.
  - destruct (frame_parameters_adopted_at_period_start this (repeat (lit 0) 4)
                (demoFrameParms 2) Hfresh) as [Hmid _].
    destruct (Hmid Hwithin) as (Hinstalled & Hpending & _).
    split; assumption.
  - destruct (Generator_new (demoMainParms impulsive) demoRandom)
      as [first | e] eqn:Hnew.
    2: { assert (Hok : omap (fun _ => tt)
                         (Generator_new (demoMainParms impulsive) demoRandom)
                       = Ok tt) by (vm_compute; reflexivity).
         rewrite Hnew in Hok. discriminate Hok. }
    exists first. split; [reflexivity |].
    assert (Hnone : sameObject (demoFrameParms 2) (fParms first) = false).
    { apply (omap_Ok (fun g => sameObject (demoFrameParms 2) (fParms g)) Hnew).
      vm_compute. reflexivity. }
    assert (Hstart : atPeriodStart first = true).
    { apply (omap_Ok atPeriodStart Hnew). vm_compute. reflexivity. }
    split; [exact Hstart |].
    split.
    + destruct (frame_parameters_adopted_at_period_start first [lit 0]
                  (demoFrameParms 2) Hnone) as (_ & Hadopt & _).
      cbv zeta.
      assert (Hok : fst (generateFrame_sample 0
                           (set_newFParms (Some (demoFrameParms 2)) first,
                            [lit 0])) = Ok tt).
      { apply (omap_Ok (fun g => fst (generateFrame_sample 0
                                       (set_newFParms (Some (demoFrameParms 2)) g,
                                        [lit 0]))) Hnew).
        vm_compute. reflexivity. }
      split; [exact Hok |].
      destruct (Hadopt Hstart 0%nat Hok) as (Hf & Hn & Ha & _).
      split; [exact Hf | split; [exact Hn | exact Ha]].
    + destruct (frame_parameters_adopted_at_period_start first (repeat (lit 0) 4)
                  (demoFrameParms 2) Hnone) as (_ & _ & Hrest & _).
      cbv zeta.
      assert (Hok : fst (generateFrame_loop 0 1
                           (set_newFParms (Some (demoFrameParms 2)) first,
                            repeat (lit 0) 4)) = Ok tt).
      { apply (omap_Ok (fun g => fst (generateFrame_loop 0 1
                                       (set_newFParms (Some (demoFrameParms 2)) g,
                                        repeat (lit 0) 4))) Hnew).
        vm_compute. reflexivity. }
      assert (Hquiet : withinPeriod 3 1
                         (snd (generateFrame_loop 0 1
                                 (set_newFParms (Some (demoFrameParms 2)) first,
                                  repeat (lit 0) 4))) = true).
      { apply (omap_Ok (fun g => withinPeriod 3 1
                                   (snd (generateFrame_loop 0 1
                                           (set_newFParms
                                              (Some (demoFrameParms 2)) g,
                                            repeat (lit 0) 4)))) Hnew).
        vm_compute. reflexivity. }
      split; [exact Hok |]. split; [exact Hquiet |].
      destruct (Hrest 1%nat 3%nat eq_refl Hok Hquiet) as (_ & Hinst & Hpending).
      split; assumption.
Defined.

(** Counterexample to C2 as stated.  With F2 as the only parallel resonator
    that is not muted, the branch returns the negative of the sum that has
    the sign [(-1)^(i+1)], and a value that is not 0: the two differ. *)
Lemma parallel_sum_sign_counterexample :
  omap (fun s =>
          let this := fst s in
          match fst (computeParallelBranch (lit 1) this),
                parallelSumOf (fun i => minusOneToThe (i + 1)) this (lit 1) with
          | Ok y, Some claimed => (y ==? claimed, y ==? - claimed, y ==? lit 0)
          | _, _ => (true, false, true)
          end)
    (firstFrame (demoMainParms impulsive) (withParallelF2 (demoFrameParms 1)) 3)
  = Ok (false, true, false).
Proof. vm_compute. reflexivity. Qed.

(** Witness of C2 (as amended), in the same state. *)
Lemma computeParallelBranch_sum_witness :
  exists (s : Generator * Float64Array) (parms : FrameParms) (p : PeriodState),
    firstFrame (demoMainParms impulsive) (withParallelF2 (demoFrameParms 1)) 3
    = Ok s
    /\ fParms (fst s) = Some parms
    /\ pState (fst s) = Some p
    /\ length (oralFormantPar (fst s)) = maxOralFormants
    /\ fst (computeParallelBranch (lit 1) (fst s))
       = Ok (parallelSum minusOneToThe (fst s)
               (parallelSource (fst s) parms p (lit 1))
               (parallelSource2 (fst s) parms p
                  (parallelSource (fst s) parms p (lit 1)))).
Proof.
  destruct (firstFrame (demoMainParms impulsive)
              (withParallelF2 (demoFrameParms 1)) 3)
    as [[this outBuf] | e] eqn:Hrun.
  2: { assert (Hok : omap (fun _ => tt)
                       (firstFrame (demoMainParms impulsive)
                          (withParallelF2 (demoFrameParms 1)) 3)
                     = Ok tt) by (vm_compute; reflexivity).
       rewrite Hrun in Hok. discriminate Hok. }
  assert (Hstate : match fParms this, pState this with
                   | Some _, Some _ => length (oralFormantPar this)
                   | _, _ => 0%nat
                   end = maxOralFormants).
  { apply (omap_Ok (fun s => match fParms (fst s), pState (fst s) with
                             | Some _, Some _ => length (oralFormantPar (fst s))
                             | _, _ => 0%nat
                             end) Hrun).
    vm_compute. reflexivity. }
  destruct (fParms this) as [parms |] eqn:Hparms; [| discriminate Hstate].
  destruct (pState this) as [p |] eqn:Hp; [| discriminate Hstate].
  exists (this, outBuf), parms, p. cbn [fst].
  split; [reflexivity |]. split; [exact Hparms |]. split; [exact Hp |].
  split; [exact Hstate |].
  exact (computeParallelBranch_sum this (lit 1) Hparms Hp Hstate).
Defined.

(** Counterexample to C3 as stated.  With F0 = 100000 Hz and no flutter,
    [round(44100 / 100000)] is 0: the first period has the length 0, which
    is not at least 1. *)
Lemma period_length_counterexample :
  omap (fun s =>
          option_map (fun p => (ps_f0 p ==? lit 100000, periodLength p ==? lit 0,
                                lit 1 <=? periodLength p))
            (pState (fst s)))
    (firstFrame (demoMainParms impulsive)
       (withPitch (lit 100000) (lit 0) (demoFrameParms 1)) 1)
  = Ok (Some (true, true, false)).
Proof. vm_compute. reflexivity. Qed.

(** Counterexample to C4 as stated, in both directions.  After a first
    frame of one sample with the object [1], two successive calls with the
    object [2] and buffers of one sample both return: the calls stay within
    the period, so the object [2] is pending and the object [1] is still the
    active one.  For the same reason a call with the object [1] throws
    although the preceding call was given the distinct object [2].  Two
    successive calls with the same object and empty buffers on a new
    generator both return as well. *)
Lemma reuse_check_counterexample :
  omap (fun _ => tt)
    (nextFrame (demoFrameParms 2) 1
       (nextFrame (demoFrameParms 2) 1
          (firstFrame (demoMainParms impulsive) (demoFrameParms 1) 1)))
  = Ok tt
  /\ omap (fun _ => tt)
       (nextFrame (demoFrameParms 1) 1
          (nextFrame (demoFrameParms 2) 1
             (firstFrame (demoMainParms impulsive) (demoFrameParms 1) 1)))
     = Throw FrameParmsReused
  /\ omap (fun _ => tt)
       (nextFrame (demoFrameParms 1) 0
          (firstFrame (demoMainParms impulsive) (demoFrameParms 1) 0))
     = Ok tt.
Proof. vm_compute. repeat split. Qed.



(** Counterexample to C8 as stated.  After the caller has assigned the
    number 3 to [mParms.glottalSourceType], [startGlottalSourcePeriod]
    returns without an error, and so does a whole further frame that
    starts a new period. *)
Lemma period_start_guard_counterexample :
  omap (fun s => fst (startGlottalSourcePeriod
                        (assign_glottalSourceType 3%Z (fst s))))
    (firstFrame (demoMainParms impulsive) (demoFrameParms 1) 1)
  = Ok (Ok tt)
  /\ omap (fun s => fst (generateFrame (demoFrameParms 2)
                          (assign_glottalSourceType 3%Z (fst s),
                           repeat (lit 0) 200)))
       (firstFrame (demoMainParms impulsive) (demoFrameParms 1) 1)
     = Ok (Ok tt).
Proof. vm_compute. split; reflexivity. Qed.

(** Witness of C8 (as amended): the glottal source type 3. *)
Lemma undefined_glottalSourceType_witness :
  glottalSourceType (demoMainParms 3%Z) <> impulsive
  /\ glottalSourceType (demoMainParms 3%Z) <> natural
  /\ glottalSourceType (demoMainParms 3%Z) <> noise
  /\ Generator_new (demoMainParms 3%Z) demoRandom
     = Throw UndefinedGlottalSourceType
  /\ (forall this : Generator,
        mParms this = demoMainParms 3%Z ->
        startGlottalSourcePeriod this = (Ok tt, this)).
Proof.
  assert (H0 : glottalSourceType (demoMainParms 3%Z) <> impulsive)
    by discriminate.
  assert (H1 : glottalSourceType (demoMainParms 3%Z) <> natural)
    by discriminate.
  assert (H2 : glottalSourceType (demoMainParms 3%Z) <> noise)
    by discriminate.
  destruct (undefined_glottalSourceType (demoMainParms 3%Z) demoRandom H0 H1 H2)
    as (_ & _ & Hnew & Hstart).
  repeat (split; [assumption |]).
  split; [| exact Hstart].
  apply Hnew. vm_compute. reflexivity.
Defined.

(** Counterexample to C9 as stated.  After a first frame of one sample its
    parameter object is the active one: a call with the same object and an
    empty buffer throws, and [newFParms] stays empty. *)
Lemma empty_buffer_counterexample :
  omap (fun s =>
          let result := generateFrame (demoFrameParms 1) (fst s, []) in
          (fst result,
           match newFParms (fst (snd result)) with
           | Some _ => true
           | None => false
           end))
    (firstFrame (demoMainParms impulsive) (demoFrameParms 1) 1)
  = Ok (Throw FrameParmsReused, false).
Proof. vm_compute. reflexivity. Qed.

(** Witness of C3 (as amended): the first period of a new generator with the
    demo parameters. *)
Lemma startNewPeriod_lengths_witness :
  exists (first this' : Generator) (p : PeriodState),
    Generator_new (demoMainParms natural) demoRandom = Ok first
    /\ startNewPeriod (set_newFParms (Some (demoFrameParms 1)) first)
       = (Ok tt, this')
    /\ pState this' = Some p
    /\ (lit 0 <=? openPhaseLength p) = true
    /\ (openPhaseLength p <=? periodLength p) = true
    /\ (lit 1 <=? periodLength p) = true.
Proof.
  pose (check := fun first : Generator =>
          let result :=
            startNewPeriod (set_newFParms (Some (demoFrameParms 1)) first) in
          let this' := snd result in
          (fst result,
           match fParms this', pState this' with
           | Some parms, Some p =>
               (lit 0 <? sampleRate (mParms this'))
               && isFinite (sampleRate (mParms this'))
               && (lit 0 <? openPhaseRatio parms)
               && (openPhaseRatio parms <? lit 1)
               && (if ps_f0 p >? lit 0
                   then lit (1 # 2) <=? sampleRate (mParms this') / ps_f0 p
                   else true)
           | _, _ => false
           end)).
  assert (Hcheck : omap check (Generator_new (demoMainParms natural) demoRandom)
                   = Ok (Ok tt, true)) by (vm_compute; reflexivity).
  destruct (Generator_new (demoMainParms natural) demoRandom)
    as [first | e] eqn:Hnew; [| discriminate Hcheck].
  apply (omap_Ok check eq_refl) in Hcheck. unfold check in Hcheck.
  destruct (startNewPeriod (set_newFParms (Some (demoFrameParms 1)) first))
    as [outcome this'] eqn:Hrun.
  cbn [fst snd] in Hcheck.
  injection Hcheck as Houtcome Hbounds. subst outcome.
  pose proof (@startNewPeriod_lengths F64.refMath _ _ Hrun) as Hlengths.
  change (binary64 F64.refMath) with F64Ref in Hlengths.
  destruct Hlengths as (parms & p & Hparms & Hp & _ & _ & _ & Hlengths).
  rewrite Hparms, Hp in Hbounds.
  apply andb_prop in Hbounds as [Hbounds Hf0].
  apply andb_prop in Hbounds as [Hbounds Hbelow].
  apply andb_prop in Hbounds as [Hbounds Habove].
  apply andb_prop in Hbounds as [Hpositive Hfinite].
  destruct (Hlengths Hpositive Hfinite Habove Hbelow) as (Hopen & Hle & Hperiod).
  exists first, this', p.
  repeat (split; [first [reflexivity | assumption] |]).
  rewrite Hperiod. exact Hf0.
Defined.

End RunsBinary64.

(* ================================================================== *)
(** * Further properties

    Properties of the code besides those that the specification states:
    the constructor and [generateFrame], the errors that they throw, the
    polynomial arithmetic and the transfer function. *)

(* ------------------------------------------------------------------ *)
(** ** Calls that return *)

Lemma returnsFrom_ret {S A : Type} (P : S -> Prop) (a : A) : returnsFrom P (ret a).
Proof. intros s Hs. split; [now exists a | exact Hs]. Qed.

Lemma returnsFrom_gets {S A : Type} (P : S -> Prop) (f : S -> A) :
  returnsFrom P (gets f).
Proof. intros s Hs. split; [now exists (f s) | exact Hs]. Qed.

Lemma returnsFrom_get {S : Type} (P : S -> Prop) : returnsFrom P get.
Proof. intros s Hs. split; [now exists s | exact Hs]. Qed.

Lemma returnsFrom_modify {S : Type} (P : S -> Prop) (f : S -> S) :
  (forall s, P s -> P (f s)) -> returnsFrom P (modify f).
Proof. intros Hf s Hs. split; [now exists tt | now apply Hf]. Qed.

Lemma returnsFrom_bind {S A B : Type} (P : S -> Prop) (m : M S A) (k : A -> M S B) :
  returnsFrom P m -> (forall a, returnsFrom P (k a)) -> returnsFrom P (bind m k).
Proof.
  intros Hm Hk s Hs. unfold bind. destruct (Hm s Hs) as [[a Ha] Hs'].
  destruct (m s) as [[a' | e] s']; cbn [fst snd] in *; [| discriminate].
  now apply Hk.
Qed.

Lemma returnsFrom_defined {S A : Type} (P : S -> Prop) (proj : S -> option A) :
  (forall s, P s -> proj s <> None) -> returnsFrom P (defined proj).
Proof.
  intros Hproj s Hs. unfold defined. specialize (Hproj s Hs).
  destruct (proj s) as [a |]; [| congruence].
  split; [now exists a | exact Hs].
Qed.

Lemma returnsFrom_zoom {S T A : Type} (P : S -> Prop) (proj : S -> T)
    (upd : T -> S -> S) (m : M T A) :
  returnsFrom (fun _ => True) m ->
  (forall t s, P s -> P (upd t s)) ->
  returnsFrom P (zoom proj upd m).
Proof.
  intros Hm Hupd s Hs. unfold zoom. destruct (Hm (proj s) I) as [[a Ha] _].
  destruct (m (proj s)) as [r t']. cbn [fst snd] in *. subst r.
  split; [now exists a | now apply Hupd].
Qed.

Lemma returnsFrom_zoomNth {S T A : Type} (P : S -> Prop) (proj : S -> list T)
    (upd : list T -> S -> S) (i : nat) (m : M T A) :
  returnsFrom (fun _ => True) m ->
  (forall s, P s -> (i < length (proj s))%nat) ->
  (forall l s, P s -> length l = length (proj s) -> P (upd l s)) ->
  returnsFrom P (zoomNth proj upd i m).
Proof.
  intros Hm Hproj Hupd s Hs. unfold zoomNth. specialize (Hproj s Hs).
  destruct (nth_error (proj s) i) as [t |] eqn:Hnth.
  - destruct (Hm t I) as [[a Ha] _].
    destruct (m t) as [r t']. cbn [fst snd] in *. subst r.
    split; [now exists a |]. apply Hupd; [exact Hs |].
    rewrite length_app, length_firstn. cbn [length]. rewrite length_skipn. lia.
  - apply nth_error_None in Hnth. lia.
Qed.

Lemma returnsFrom_fold_left {S A B : Type} (P : S -> Prop) (xs : list B)
    (body : B -> A -> M S A) :
  (forall x a, returnsFrom P (body x a)) ->
  forall init : M S A,
    returnsFrom P init ->
    returnsFrom P (fold_left (fun acc x => bind acc (body x)) xs init).
Proof.
  intros Hbody. induction xs as [| x xs IH]; intros init Hinit; cbn.
  - exact Hinit.
  - apply IH. apply returnsFrom_bind; [exact Hinit | intros a; apply Hbody].
Qed.

Section MoreGeneratorProperties.
Context {N : JsNumber}.
Local Open Scope js_scope.


Lemma returnsFrom_True {S A : Type} (m : M S A) :
  (forall s, exists a, fst (m s) = Ok a) -> returnsFrom (fun _ => True) m.
Proof. intros Hm s _. split; [apply Hm | exact I]. Qed.

Lemma LpFilter1_step_returns (x : num) : returnsFrom (fun _ => True) (LpFilter1_step x).
Proof.
  apply returnsFrom_True. intros this. unfold LpFilter1_step.
  destruct (lp_passthrough this), (lp_muted this); eexists; reflexivity.
Qed.

Lemma Resonator_step_returns (x : num) : returnsFrom (fun _ => True) (Resonator_step x).
Proof.
  apply returnsFrom_True. intros this. unfold Resonator_step.
  destruct (res_passthrough this), (res_muted this); eexists; reflexivity.
Qed.

Lemma AntiResonator_step_returns (x : num) : returnsFrom (fun _ => True) (AntiResonator_step x).
Proof.
  apply returnsFrom_True. intros this. unfold AntiResonator_step.
  destruct (ares_passthrough this), (ares_muted this); eexists; reflexivity.
Qed.

Lemma DifferencingFilter_step_returns (x : num) : returnsFrom (fun _ => True) (DifferencingFilter_step x).
Proof. apply returnsFrom_True. intros this. eexists. reflexivity. Qed.

Lemma getWhiteNoise_returns : returnsFrom (fun _ => True) getWhiteNoise.
Proof. apply returnsFrom_True. intros rnd. eexists. reflexivity. Qed.

Lemma LpNoiseSource_getNext_returns : returnsFrom (fun _ => True) LpNoiseSource_getNext.
Proof.
  apply returnsFrom_True. intros [rnd src].
  unfold LpNoiseSource_getNext, onRandom, onThis, getWhiteNoise, Math_random,
    bind, zoom, ret. cbn [fst snd].
  destruct (proj1 (@LpFilter1_step_returns
                     (rnd_values rnd (rnd_drawn rnd) * lit 2 - lit 1)
                     (lpFilter src) I)) as [y Hy].
  destruct (LpFilter1_step _ (lpFilter src)) as [r f]. cbn [fst] in *. subst r.
  now exists y.
Qed.

Lemma ImpulsiveGlottalSource_getNext_returns : returnsFrom (fun _ => True) ImpulsiveGlottalSource_getNext.
Proof.
  apply returnsFrom_True. intros this.
  unfold ImpulsiveGlottalSource_getNext, bind, get, ret, modify, zoomOpt.
  destruct (igs_resonator this) as [r |] eqn:Hr; [| now eexists].
  cbn [igs_set_positionInPeriod igs_resonator]. rewrite Hr.
  match goal with |- context [Resonator_step ?p r] =>
    destruct (proj1 (@Resonator_step_returns p r I)) as [y Hy];
    destruct (Resonator_step p r) as [o r']
  end.
  cbn [fst] in *. subst o. now exists y.
Qed.

Lemma NaturalGlottalSource_getNext_returns : returnsFrom (fun _ => True) NaturalGlottalSource_getNext.
Proof.
  apply returnsFrom_True. intros this. unfold NaturalGlottalSource_getNext.
  cbn [ngs_openPhaseLength]. destruct (_ >=? _); eexists; reflexivity.
Qed.

Lemma running_fields (this : Generator) :
  running this ->
  fParms this <> None
  /\ length (oralFormantCasc this) = maxOralFormants
  /\ length (oralFormantPar this) = maxOralFormants
  /\ match glottalSource this with
     | impulsiveGSource_getNext => impulsiveGSource this <> None
     | naturalGSource_getNext => naturalGSource this <> None
     | getWhiteNoise_function => True
     end.
Proof.
  intros [Hasm Hp]. unfold assembled, wired, wiring in Hasm.
  apply andb_prop in Hasm as [Hwired Himp].
  apply andb_prop in Hwired as [Hwired Hpar].
  apply andb_prop in Hwired as [Hsrc Hcasc].
  apply Nat.eqb_eq in Hpar, Hcasc.
  destruct (pState this); [| congruence].
  destruct (fParms this); [| discriminate Himp].
  repeat (split; [congruence || assumption |]).
  destruct (glottalSource this); [| | exact I].
  - destruct (impulsiveGSource this); [discriminate | discriminate Hsrc].
  - destruct (naturalGSource this); [discriminate | discriminate Hsrc].
Qed.

Lemma callGlottalSource_returns : returnsFrom running callGlottalSource.
Proof.
  intros this Hrun. destruct (running_fields Hrun) as (_ & _ & _ & Hsrc).
  unfold callGlottalSource. rewrite run_bind_gets.
  destruct Hrun as [Hasm Hp].
  unfold running, assembled, wired, wiring in *.
  destruct (glottalSource this) eqn:Hg; unfold zoomOpt, zoom.
  - destruct (impulsiveGSource this) as [src |] eqn:Hi; [| congruence].
    destruct (proj1 (@ImpulsiveGlottalSource_getNext_returns src I)) as [y Hy].
    destruct (ImpulsiveGlottalSource_getNext src) as [o src']. cbn [fst snd] in *.
    subst o. split; [now exists y |]. cbn. rewrite Hg. now split.
  - destruct (naturalGSource this) as [src |] eqn:Hi; [| congruence].
    destruct (proj1 (@NaturalGlottalSource_getNext_returns src I)) as [y Hy].
    destruct (NaturalGlottalSource_getNext src) as [o src']. cbn [fst snd] in *.
    subst o. split; [now exists y |]. cbn. rewrite Hg. now split.
  - destruct (getWhiteNoise (random this)) as [o rnd'] eqn:Hn.
    unfold getWhiteNoise, Math_random, bind, ret in Hn. injection Hn as <- <-.
    cbn [fst snd]. split; [now eexists |]. cbn. rewrite Hg. now split.
Qed.

Ltac running_same :=
  first
    [ intros ? ? Hs; exact Hs
    | intros l s Hs Hlen;
      destruct Hs as [Hasm Hp]; split; [| exact Hp];
      unfold assembled, wiring in *;
      cbn [set_oralFormantCasc set_oralFormantPar glottalSource impulsiveGSource
           naturalGSource oralFormantCasc oralFormantPar pState fParms] in *;
      rewrite Hlen; exact Hasm ].

Ltac returns_steps :=
  repeat first
    [ apply returnsFrom_ret
    | apply returnsFrom_gets
    | apply returnsFrom_get
    | apply callGlottalSource_returns
    | apply returnsFrom_bind; [| intros ? ]
    | apply returnsFrom_defined; intros s Hs;
      solve [ apply (running_fields Hs) | apply Hs ]
    | apply returnsFrom_fold_left; [ intros ? ? |]
    | apply returnsFrom_zoom;
      [ first [ apply LpFilter1_step_returns | apply Resonator_step_returns
              | apply AntiResonator_step_returns
              | apply DifferencingFilter_step_returns
              | apply getWhiteNoise_returns | apply LpNoiseSource_getNext_returns ]
      | running_same ]
    | apply returnsFrom_zoomNth;
      [ apply Resonator_step_returns
      | intros s Hs; destruct (running_fields Hs) as (_ & Hc & Hp & _);
        cbn [oralFormantCasc oralFormantPar]; unfold maxOralFormants in *; lia
      | running_same ]
    | match goal with
      | |- returnsFrom _ (if ?b then _ else _) => destruct b
      | |- returnsFrom _ (let _ := _ in _) => cbv zeta
      end ].

Lemma computeCascadeBranch_returns (voice : num) :
  returnsFrom running (computeCascadeBranch voice).
Proof. unfold computeCascadeBranch, withRandom. returns_steps. Qed.

Lemma computeParallelBranch_returns (voice : num) :
  returnsFrom running (computeParallelBranch voice).
Proof. unfold computeParallelBranch, withRandom. returns_steps. Qed.

Lemma computeNextOutputSignalSample_returns :
  returnsFrom running computeNextOutputSignalSample.
Proof.
  unfold computeNextOutputSignalSample.
  returns_steps;
    first [ apply computeCascadeBranch_returns
          | apply computeParallelBranch_returns ].
Qed.

Lemma returnsFrom_onGenerator {A : Type} (P : Generator -> Prop) (m : M Generator A) :
  returnsFrom P m ->
  returnsFrom (fun s : Generator * Float64Array => P (fst s)) (onGenerator m).
Proof.
  intros Hm [this outBuf] Hs. cbn [fst] in Hs. unfold onGenerator, zoom.
  cbn [fst snd]. destruct (Hm this Hs) as [[a Ha] Hs'].
  destruct (m this) as [r this']. cbn [fst snd] in *. subst r.
  split; [now exists a | exact Hs'].
Qed.

Lemma running_incrementPosition :
  returnsFrom running (zoomOpt pState set_pState (modify incrementPosition)).
Proof.
  intros this [Hasm Hp]. unfold zoomOpt, modify.
  destruct (pState this) as [p |] eqn:Hps; [| congruence].
  cbn [fst snd]. split; [now exists tt |].
  split; [| discriminate].
  unfold assembled, wiring in *. cbn. rewrite Hps in Hasm. exact Hasm.
Qed.

Lemma sampleTail_returns (outPos : nat) :
  returnsFrom (fun s : Generator * Float64Array => running (fst s))
    (sampleTail outPos).
Proof.
  unfold sampleTail.
  apply returnsFrom_bind; [| intros v].
  { apply returnsFrom_onGenerator, computeNextOutputSignalSample_returns. }
  apply returnsFrom_bind; [| intros _].
  { apply returnsFrom_modify. intros s Hs. exact Hs. }
  apply returnsFrom_bind; [| intros _].
  { apply returnsFrom_onGenerator, running_incrementPosition. }
  apply returnsFrom_onGenerator, returnsFrom_modify. intros s Hs. exact Hs.
Qed.

(** Within a period every iteration of the loop of [generateFrame] returns. *)
Lemma generateFrame_loop_returns (n : nat) :
  forall (outPos : nat) (this : Generator) (outBuf : Float64Array),
    assembled this = true ->
    withinPeriod n outPos (this, outBuf) = true ->
    fst (generateFrame_loop outPos n (this, outBuf)) = Ok tt.
Proof.
  induction n as [| n IH]; intros outPos this outBuf Hasm Hwithin.
  - reflexivity.
  - cbn [withinPeriod fst] in Hwithin.
    apply andb_prop in Hwithin. destruct Hwithin as [Hmid Hrest].
    apply negb_true_iff in Hmid.
    assert (Hrun : running this).
    { split; [exact Hasm |]. unfold atPeriodStart in Hmid.
      destruct (pState this); [discriminate | discriminate Hmid]. }
    unfold generateFrame_loop. cbn [seq forEach]. unfold bind.
    rewrite generateFrame_sample_unfold in *. cbn [fst] in *.
    rewrite Hmid, run_bind_ret in *.
    destruct (@sampleTail_returns outPos (this, outBuf) Hrun) as [[[] Hok] Hrun'].
    destruct (sampleTail outPos (this, outBuf)) as [r [this1 buf1]].
    cbn [fst snd] in *. subst r.
    apply (IH (S outPos) this1 buf1); [apply Hrun' | exact Hrest].
Qed.

(* ------------------------------------------------------------------ *)
(** ** What the generator keeps *)

Lemma keeps_zoomOpt_defined {S T A B : Type} (obs : S -> B) (proj : S -> option T)
    (upd : option T -> S -> S) (m : M T A) :
  (forall t t' s, proj s = Some t -> obs (upd (Some t') s) = obs s) ->
  keeps obs (zoomOpt proj upd m).
Proof.
  intros Hupd s. unfold zoomOpt. destruct (proj s) as [t |] eqn:Hp; [| reflexivity].
  destruct (m t) as [r t']. now apply Hupd with (t := t).
Qed.

Lemma keeps_zoomNth_length {S T A B : Type} (obs : S -> B) (proj : S -> list T)
    (upd : list T -> S -> S) (i : nat) (m : M T A) :
  (forall l s, length l = length (proj s) -> obs (upd l s) = obs s) ->
  keeps obs (zoomNth proj upd i m).
Proof.
  intros Hupd s. unfold zoomNth.
  destruct (nth_error (proj s) i) as [t |] eqn:Hnth; [| reflexivity].
  destruct (m t) as [r t']. apply Hupd.
  assert (i < length (proj s))%nat by (apply nth_error_Some; congruence).
  rewrite length_app, length_firstn. cbn [length]. rewrite length_skipn. lia.
Qed.

Lemma keeps_onGenerator {A B : Type} (obs : Generator -> B) (m : M Generator A) :
  keeps obs m ->
  keeps (fun s : Generator * Float64Array => obs (fst s)) (onGenerator m).
Proof.
  intros Hm [this outBuf]. unfold onGenerator, zoom. cbn [fst snd].
  specialize (Hm this). destruct (m this) as [r this']. exact Hm.
Qed.

Ltac same_frame :=
  first
    [ reflexivity
    | intros ? ? s Hsome; unfold frameOf, wiring;
      cbn [set_impulsiveGSource set_naturalGSource set_pState glottalSource
           impulsiveGSource naturalGSource oralFormantCasc oralFormantPar
           pState fParms newFParms];
      rewrite Hsome; reflexivity
    | intros l s Hlen; unfold frameOf, wiring;
      cbn [set_oralFormantCasc set_oralFormantPar glottalSource
           impulsiveGSource naturalGSource oralFormantCasc oralFormantPar
           pState fParms newFParms];
      rewrite Hlen; reflexivity ].

Ltac kept_steps :=
  repeat first
    [ assumption
    | apply keeps_ret
    | apply keeps_get
    | apply keeps_gets
    | apply keeps_throw
    | apply keeps_defined
    | apply keeps_modify; reflexivity
    | apply keeps_bind; [| intros ? ]
    | apply keeps_zoom; reflexivity
    | apply keeps_zoomOpt_defined; solve [ same_frame ]
    | apply keeps_zoomNth_length; solve [ same_frame ]
    | apply keeps_forEach; intros ?
    | apply keeps_fold_left; [ intros ? ? |]
    | match goal with
      | |- keeps _ (if ?b then _ else _) => destruct b
      | |- keeps _ (match ?x with _ => _ end) => destruct x
      | |- keeps _ (let _ := _ in _) => cbv zeta
      end ].

Lemma computeNextOutputSignalSample_keeps_frame :
  keeps frameOf computeNextOutputSignalSample.
Proof.
  unfold computeNextOutputSignalSample, computeCascadeBranch,
    computeParallelBranch, callGlottalSource, withRandom.
  kept_steps.
Qed.

Lemma sampleTail_keeps_frame (outPos : nat) :
  keeps (fun s : Generator * Float64Array => frameOf (fst s)) (sampleTail outPos).
Proof.
  unfold sampleTail.
  pose proof (keeps_onGenerator computeNextOutputSignalSample_keeps_frame).
  apply keeps_bind; [assumption | intros v].
  apply keeps_bind; [apply keeps_modify; reflexivity | intros _].
  apply keeps_bind; [| intros _]; apply keeps_onGenerator; kept_steps.
Qed.

Lemma startNewPeriod_keeps_wiring : keeps wiring startNewPeriod.
Proof.
  unfold startNewPeriod, startUsingNewFrameParameters, startGlottalSourcePeriod,
    assign_fState.
  kept_steps.
Qed.

Lemma startNewPeriod_keeps_active (this : Generator) :
  newFParms this = None ->
  fParms (snd (startNewPeriod this)) = fParms this.
Proof.
  intros Hnone. unfold startNewPeriod.
  rewrite run_bind_get, Hnone, run_bind_ret.
  match goal with |- fParms (snd (?m this)) = _ =>
    assert (Hk : keeps (fun g => (fParms g, newFParms g)) m);
      [| specialize (Hk this); cbn in Hk; now injection Hk ]
  end.
  pose proof startGlottalSourcePeriod_keeps_parms.
  kept_steps.
Qed.

Lemma startNewPeriod_supplied : preserves supplied startNewPeriod.
Proof.
  intros this Hs. left.
  destruct (newFParms this) as [p |] eqn:Hnew.
  - destruct (startNewPeriod_adopts this Hnew) as [-> _]. discriminate.
  - rewrite (startNewPeriod_keeps_active this Hnew).
    destruct Hs as [Hf | [_ Hn]]; [exact Hf | congruence].
Qed.

Lemma frameOf_supplied (this this' : Generator) :
  frameOf this' = frameOf this -> supplied this -> supplied this'.
Proof.
  unfold supplied. intros Heq Hs.
  pose proof (f_equal (fun x => snd (fst (fst x))) Heq) as Hf.
  pose proof (f_equal (fun x => snd (fst x)) Heq) as Hn.
  pose proof (f_equal snd Heq) as Hp. cbn in Hf, Hn, Hp.
  rewrite Hf, Hn.
  destruct Hs as [Hs | [Hnone Hs]]; [now left | right].
  split; [| exact Hs]. rewrite Hnone in Hp.
  destruct (pState this'); [discriminate Hp | reflexivity].
Qed.

Lemma generateFrame_sample_supplied (outPos : nat) :
  preserves (fun s : Generator * Float64Array => supplied (fst s))
    (generateFrame_sample outPos).
Proof.
  intros [this outBuf] Hs. cbn [fst] in Hs.
  rewrite generateFrame_sample_unfold. cbn [fst]. unfold bind.
  destruct (atPeriodStart this).
  - unfold onGenerator, zoom. cbn [fst snd].
    pose proof (startNewPeriod_supplied Hs) as Hs1.
    destruct (startNewPeriod this) as [[[] | e] this1]; cbn [fst snd] in *;
      [| exact Hs1].
    apply (frameOf_supplied (sampleTail_keeps_frame outPos (this1, outBuf)) Hs1).
  - cbn [ret]. apply (frameOf_supplied (sampleTail_keeps_frame outPos (this, outBuf)) Hs).
Qed.

Lemma generateFrame_sample_keeps_wiring (outPos : nat) :
  keeps (fun s : Generator * Float64Array => wiring (fst s))
    (generateFrame_sample outPos).
Proof.
  intros [this outBuf]. rewrite generateFrame_sample_unfold. cbn [fst]. unfold bind.
  assert (Htail : forall s, wiring (fst (snd (sampleTail outPos s))) = wiring (fst s)).
  { intros s.
    exact (f_equal (fun x => fst (fst (fst x))) (sampleTail_keeps_frame outPos s)). }
  destruct (atPeriodStart this).
  - unfold onGenerator, zoom. cbn [fst snd].
    pose proof (startNewPeriod_keeps_wiring this) as Hw.
    destruct (startNewPeriod this) as [[[] | e] this1]; cbn [fst snd] in *;
      [| exact Hw].
    rewrite Htail. exact Hw.
  - cbn [ret]. apply Htail.
Qed.

Lemma preserves_forEach {S B : Type} (P : S -> Prop) (xs : list B)
    (body : B -> M S unit) :
  (forall x, preserves P (body x)) -> preserves P (forEach xs body).
Proof.
  intros Hbody. induction xs as [| x xs IH]; intros s Hs; cbn.
  - exact Hs.
  - unfold bind. specialize (Hbody x s Hs).
    destruct (body x s) as [[[] | e] s']; cbn [snd] in *; [now apply IH | exact Hbody].
Qed.

Lemma Generator_new_assembled (mp : MainParms) (rnd : Random) (this : Generator) :
  Generator_new mp rnd = Ok this -> assembled this = true.
Proof.
  unfold Generator_new, Math_random, obind, construct, initGlottalSource.
  destruct (Resonator_set _ _ _ _) as [[[] | e] r]; [| discriminate].
  intros Hnew.
  destruct (glottalSourceType mp) as [| p | p];
    [| destruct p as [p | p |]; [| destruct p |] |];
    try discriminate Hnew;
    destruct (LpNoiseSource_new (sampleRate mp)) as [src | e];
    try discriminate Hnew;
    injection Hnew as <-; reflexivity.
Qed.

Lemma generateFrame_assembled (parms : FrameParms) :
  preserves (fun s : Generator * Float64Array => assembled (fst s) = true)
    (generateFrame parms).
Proof.
  intros [this outBuf] Hasm. cbn [fst] in Hasm.
  unfold generateFrame. rewrite run_bind_get. cbn [fst snd].
  destruct (sameObject parms (fParms this)); [exact Hasm |].
  unfold bind at 1, onGenerator at 1, zoom, modify. cbn [fst snd].
  set (pending := set_newFParms (Some parms) this).
  assert (Hw : wiring (fst (snd (forEach (seq 0 (length outBuf)) generateFrame_sample
                                  (pending, outBuf)))) = wiring this).
  { pose proof (@keeps_forEach _ _ _ (fun s : Generator * Float64Array => wiring (fst s))
                  (seq 0 (length outBuf)) generateFrame_sample
                  generateFrame_sample_keeps_wiring (pending, outBuf)) as Hk.
    exact Hk. }
  assert (Hs : supplied (fst (snd (forEach (seq 0 (length outBuf)) generateFrame_sample
                                     (pending, outBuf))))).
  { apply (@preserves_forEach _ _ (fun s : Generator * Float64Array => supplied (fst s))
             (seq 0 (length outBuf)) generateFrame_sample
             generateFrame_sample_supplied (pending, outBuf)).
    cbn [fst]. unfold supplied, pending.
    cbn [set_newFParms fParms pState newFParms].
    unfold assembled in Hasm. apply andb_prop in Hasm as [_ Himp].
    destruct (fParms this); [left; discriminate | right].
    split; [| discriminate].
    destruct (pState this); [discriminate Himp | reflexivity]. }
  unfold assembled in *. rewrite Hw.
  apply andb_prop in Hasm as [Hwired _]. rewrite Hwired. cbn [andb].
  destruct Hs as [Hf | [Hp _]].
  - destruct (fParms _); [| congruence]. now destruct (pState _).
  - now rewrite Hp.
Qed.

Lemma Reachable_assembled (mp : MainParms) (rnd : Random) (this : Generator) :
  Reachable mp rnd this -> assembled this = true.
Proof.
  induction 1 as [this Hnew | this parms outBuf _ IH].
  - exact (@Generator_new_assembled mp rnd this Hnew).
  - exact (@generateFrame_assembled parms (this, outBuf) IH).
Qed.

(** X2.  A call of [generateFrame] that stays within the running period
    cannot fail. For a generator that the constructor returned and calls of
    [generateFrame] have used since, whether they returned or threw: when
    the supplied object is not the active one and no iteration of the call
    starts a new period, the call returns. *)
Theorem generateFrame_returns_within_period :
  forall (mp : MainParms) (rnd : Random) (this : Generator)
         (parms : FrameParms) (outBuf : Float64Array),
    Reachable mp rnd this ->
    sameObject parms (fParms this) = false ->
    withinPeriod (length outBuf) 0 (set_newFParms (Some parms) this, outBuf) = true ->
    fst (generateFrame parms (this, outBuf)) = Ok tt.
Proof.
  intros mp rnd this parms outBuf Hreach Hfresh Hwithin.
  pose proof (Reachable_assembled Hreach) as Hasm.
  unfold generateFrame. rewrite run_bind_get. cbn [fst snd]. rewrite Hfresh.
  apply (@generateFrame_loop_returns (length outBuf) 0
           (set_newFParms (Some parms) this) outBuf); [exact Hasm | exact Hwithin].
Qed.

(* ------------------------------------------------------------------ *)
(** ** The progress of a call *)

Lemma computeNextOutputSignalSample_needs_period (this : Generator) (v : num) :
  fst (computeNextOutputSignalSample this) = Ok v -> pState this <> None.
Proof.
  intros Hok Hnone. unfold computeNextOutputSignalSample in Hok.
  assert (Hcall : isDefined (pState (snd (callGlottalSource this))) = false).
  { assert (Hk : keeps frameOf callGlottalSource)
      by (unfold callGlottalSource; kept_steps).
    pose proof (f_equal snd (Hk this)) as Hp. cbn [snd frameOf] in Hp.
    rewrite Hp, Hnone. reflexivity. }
  unfold bind at 1 in Hok.
  destruct (callGlottalSource this) as [[voice | e] this1]; [| discriminate Hok].
  cbn [snd] in Hcall.
  unfold bind at 1, zoom in Hok.
  destruct (LpFilter1_step voice (tiltFilter this1)) as [[voice' | e] f];
    [| discriminate Hok].
  rewrite run_bind_gets in Hok. unfold bind at 1, defined in Hok.
  cbn [set_tiltFilter pState] in Hok.
  destruct (pState this1); [discriminate Hcall | discriminate Hok].
Qed.

(** One iteration of the loop of [generateFrame]: when it returns, the
    position has advanced by one and only the element [outPos] of the buffer
    may have changed; when it throws, the position and the buffer are as
    before. *)
Lemma generateFrame_sample_progress (outPos : nat) (this : Generator)
    (outBuf : Float64Array) :
  let result := generateFrame_sample outPos (this, outBuf) in
  let this' := fst (snd result) in
  let outBuf' := snd (snd result) in
  mParms this' = mParms this
  /\ flutterTimeOffset this' = flutterTimeOffset this
  /\ match fst result with
     | Ok _ =>
         absPosition this' = absPosition this + lit 1
         /\ exists v, outBuf' = writeAt outPos v outBuf
     | Throw _ => absPosition this' = absPosition this /\ outBuf' = outBuf
     end.
Proof.
  set (fixed := fun g : Generator => (mParms g, flutterTimeOffset g, absPosition g)).
  assert (Hstart : keeps fixed startNewPeriod).
  { unfold startNewPeriod, startUsingNewFrameParameters, startGlottalSourcePeriod,
      assign_fState.
    kept_steps;
      first [ apply keeps_zoomOpt; reflexivity | apply keeps_zoomNth; reflexivity ]. }
  assert (Hnext : keeps fixed computeNextOutputSignalSample).
  { unfold computeNextOutputSignalSample, computeCascadeBranch,
      computeParallelBranch, callGlottalSource, withRandom.
    kept_steps;
      first [ apply keeps_zoomOpt; reflexivity | apply keeps_zoomNth; reflexivity ]. }
  intros result this' outBuf'. subst result this' outBuf'.
  rewrite generateFrame_sample_unfold. cbn [fst].
  assert (Htail : forall this0 : Generator,
            let result := sampleTail outPos (this0, outBuf) in
            mParms (fst (snd result)) = mParms this0
            /\ flutterTimeOffset (fst (snd result)) = flutterTimeOffset this0
            /\ match fst result with
               | Ok _ =>
                   absPosition (fst (snd result)) = absPosition this0 + lit 1
                   /\ exists v, snd (snd result) = writeAt outPos v outBuf
               | Throw _ =>
                   absPosition (fst (snd result)) = absPosition this0
                   /\ snd (snd result) = outBuf
               end).
  { intros this0. unfold sampleTail, bind, onGenerator, zoom, modify.
    cbn [fst snd].
    pose proof (Hnext this0) as Hfixed.
    pose proof (@computeNextOutputSignalSample_needs_period this0) as Hneeds.
    pose proof (computeNextOutputSignalSample_keeps_frame this0) as Hframe.
    destruct (computeNextOutputSignalSample this0) as [[v | e] this1];
      cbn [fst snd] in *; unfold fixed in Hfixed;
      injection Hfixed as Hmp Hflutter Habs.
    - unfold zoomOpt.
      pose proof (f_equal snd Hframe) as Hp. cbn in Hp.
      specialize (Hneeds v eq_refl).
      destruct (pState this0); [| congruence].
      destruct (pState this1) as [p1 |]; [| discriminate Hp].
      cbn [fst snd set_pState set_absPosition mParms flutterTimeOffset absPosition].
      repeat (split; [assumption || (rewrite Habs; reflexivity) |]).
      now exists v.
    - repeat (split; [assumption |]). reflexivity. }
  rewrite run_bind.
  destruct (atPeriodStart this).
  - unfold onGenerator, zoom. cbn [fst snd].
    pose proof (Hstart this) as Hfixed. unfold fixed in Hfixed.
    destruct (startNewPeriod this) as [[[] | e] this1]; cbn [fst snd] in *;
      injection Hfixed as Hmp Hflutter Habs.
    + specialize (Htail this1). cbv zeta in Htail.
      rewrite Hmp, Hflutter, Habs in Htail. exact Htail.
    + repeat (split; [assumption |]). reflexivity.
  - cbn [ret]. apply Htail.
Qed.

Lemma skipn_writeAt (i j : nat) (v : num) (outBuf : Float64Array) :
  (i < j)%nat -> skipn j (writeAt i v outBuf) = skipn j outBuf.
Proof.
  intros Hij. unfold writeAt.
  destruct (i <? length outBuf)%nat eqn:Hi; [| reflexivity].
  apply Nat.ltb_lt in Hi.
  rewrite skipn_app, length_firstn, Nat.min_l by lia.
  rewrite (skipn_all2 (firstn i outBuf)) by (rewrite length_firstn; lia).
  cbn [app]. destruct (j - i)%nat as [| m] eqn:Hm; [lia |].
  rewrite skipn_cons, skipn_skipn. f_equal. lia.
Qed.

Lemma generateFrame_loop_progress (n : nat) :
  forall (outPos : nat) (this : Generator) (outBuf : Float64Array),
    let result := generateFrame_loop outPos n (this, outBuf) in
    let this' := fst (snd result) in
    let outBuf' := snd (snd result) in
    exists k : nat,
      (k <= n)%nat
      /\ absPosition this' = Nat.iter k (fun x => x + lit 1) (absPosition this)
      /\ skipn (outPos + k) outBuf' = skipn (outPos + k) outBuf
      /\ mParms this' = mParms this
      /\ flutterTimeOffset this' = flutterTimeOffset this
      /\ (fst result = Ok tt -> k = n).
Proof.
  induction n as [| n IH]; intros outPos this outBuf.
  - exists 0%nat. cbn. repeat split; lia.
  - unfold generateFrame_loop. cbn [seq forEach]. rewrite run_bind.
    destruct (generateFrame_sample_progress outPos this outBuf)
      as (Hmp & Hflutter & Hstep).
    destruct (generateFrame_sample outPos (this, outBuf)) as [[[] | e] [this1 buf1]];
      cbn [fst snd] in *.
    + destruct Hstep as [Habs [v Hbuf]].
      destruct (IH (S outPos) this1 buf1) as (k & Hk & Habs' & Hskip & Hmp' & Hfl' & Hok).
      unfold generateFrame_loop in *. cbv zeta in *.
      exists (S k). rewrite Habs', Hmp', Hfl', Habs, Hmp, Hflutter.
      split; [lia |]. split; [now rewrite Nat.iter_succ_r |].
      split.
      { replace (outPos + S k)%nat with (S outPos + k)%nat by lia.
        rewrite Hskip, Hbuf. apply skipn_writeAt. lia. }
      repeat (split; [reflexivity |]).
      intros Hrun. f_equal. now apply Hok.
    + destruct Hstep as [Habs Hbuf]. exists 0%nat.
      rewrite Nat.add_0_r, Hbuf, Habs, Hmp, Hflutter. cbn.
      repeat split; try lia. discriminate.
Qed.

(** X3.  What a call of [generateFrame] has done when it ends, whether it
    returned or threw: it completed [k] iterations, the absolute position
    has been incremented [k] times, the elements of the buffer from index
    [k] on are untouched, the buffer has kept its length, and [mParms] and
    the flutter time offset are as before. When the call returns, [k] is the
    length of the buffer. *)
Theorem generateFrame_progress :
  forall (this : Generator) (outBuf : Float64Array) (parms : FrameParms),
    let result := generateFrame parms (this, outBuf) in
    let this' := fst (snd result) in
    let outBuf' := snd (snd result) in
    exists k : nat,
      (k <= length outBuf)%nat
      /\ absPosition this' = Nat.iter k (fun x => x + lit 1) (absPosition this)
      /\ skipn k outBuf' = skipn k outBuf
      /\ length outBuf' = length outBuf
      /\ mParms this' = mParms this
      /\ flutterTimeOffset this' = flutterTimeOffset this
      /\ (fst result = Ok tt -> k = length outBuf).
Proof.
  intros this outBuf parms result this' outBuf'.
  pose proof (generateFrame_keeps_length parms (this, outBuf)) as Hlen.
  cbn [snd] in Hlen. fold result in Hlen. fold outBuf' in Hlen.
  subst outBuf' this' result.
  unfold generateFrame in *. rewrite run_bind_get in *. cbn [fst snd] in *.
  destruct (sameObject parms (fParms this)).
  - exists 0%nat. cbn. repeat split; try lia. discriminate.
  - destruct (generateFrame_loop_progress (length outBuf) 0
                (set_newFParms (Some parms) this) outBuf)
      as (k & Hk & Habs & Hskip & Hmp & Hfl & Hok).
    exists k. repeat (split; [assumption |]). exact Hok.
Qed.

(* ------------------------------------------------------------------ *)
(** ** Parameters that the period start rejects *)

Lemma startUsingNewFrameParameters_keeps_period :
  keeps (fun this => (fParms this, newFParms this, pState this, absPosition this))
    startUsingNewFrameParameters.
Proof.
  unfold startUsingNewFrameParameters, assign_fState.
  kept_steps;
    first [ apply keeps_zoomOpt; reflexivity | apply keeps_zoomNth; reflexivity ].
Qed.

(** X4.  Parameters that the period start rejects are active nevertheless.
    When a call of [generateFrame] starts a period in its first iteration
    and a filter setter of [startUsingNewFrameParameters] throws, the call
    throws that error, the buffer, the period state and the position are as
    before, but the supplied object has become the active one: a further
    call with the same object throws "FrameParms structure must not be
    re-used." *)
Theorem rejected_parameters_become_active :
  forall (this : Generator) (outBuf : Float64Array) (parms : FrameParms) (e : Error),
    sameObject parms (fParms this) = false ->
    atPeriodStart this = true ->
    outBuf <> [] ->
    fst (startUsingNewFrameParameters
           (set_newFParms None (set_fParms (Some parms) this))) = Throw e ->
    let result := generateFrame parms (this, outBuf) in
    let this' := fst (snd result) in
    fst result = Throw e
    /\ snd (snd result) = outBuf
    /\ fParms this' = Some parms
    /\ newFParms this' = None
    /\ pState this' = pState this
    /\ absPosition this' = absPosition this
    /\ forall outBuf2 : Float64Array,
         generateFrame parms (this', outBuf2)
         = (Throw FrameParmsReused, (this', outBuf2)).
Proof.
  intros this outBuf parms e Hfresh Hstart Hbuf Hreject result this'.
  assert (Hrun : result
                 = (Throw e,
                    (snd (startUsingNewFrameParameters
                            (set_newFParms None (set_fParms (Some parms) this))),
                     outBuf))).
  { subst result. unfold generateFrame. rewrite run_bind_get. cbn [fst snd].
    rewrite Hfresh. rewrite run_bind. unfold onGenerator at 1, zoom, modify.
    cbn [fst snd].
    destruct outBuf as [| x outBuf]; [congruence |].
    cbn [length seq forEach]. rewrite run_bind, generateFrame_sample_unfold.
    cbn [fst].
    change (atPeriodStart (set_newFParms (Some parms) this))
      with (atPeriodStart this).
    rewrite Hstart, run_bind. unfold onGenerator, zoom. cbn [fst snd].
    unfold startNewPeriod at 1. rewrite run_bind_get.
    cbn [set_newFParms newFParms].
    rewrite run_bind, !run_bind_modify.
    change (set_newFParms None (set_fParms (Some parms)
              (set_newFParms (Some parms) this)))
      with (set_newFParms None (set_fParms (Some parms) this)).
    destruct (startUsingNewFrameParameters
                (set_newFParms None (set_fParms (Some parms) this)))
      as [[[] | e'] this1]; cbn [fst snd] in *; [discriminate Hreject |].
    injection Hreject as ->. reflexivity. }
  subst this'. rewrite Hrun. cbn [fst snd].
  pose proof (startUsingNewFrameParameters_keeps_period
                (set_newFParms None (set_fParms (Some parms) this))) as Hkeeps.
  cbn [set_newFParms set_fParms fParms newFParms pState absPosition] in Hkeeps.
  injection Hkeeps as Hf Hn Hp Ha.
  repeat (split; [assumption || reflexivity |]).
  intros outBuf2. unfold generateFrame. rewrite run_bind_get. cbn [fst snd].
  rewrite Hf. unfold sameObject. now rewrite Nat.eqb_refl.
Qed.

(* ------------------------------------------------------------------ *)
(** ** The constructor *)

(** X1.  [new Generator(mParms)] throws three errors only: "Invalid
    resonator parameters." when the output low-pass filter rejects half the
    sample rate as its bandwidth, "Undefined glottal source type.", and
    "Invalid filter parameters." from the noise sources. It throws for every
    sample rate with [1000 >= sampleRate / 2], whatever the glottal source
    type. A generator that it returns has no active or pending parameters
    and no period state, is at position 0, and has drawn one random number,
    for its flutter time offset. *)
Theorem Generator_new_cases :
  forall (mp : MainParms) (rnd : Random),
    (forall e, Generator_new mp rnd = Throw e ->
       e = InvalidResonatorParameters \/ e = UndefinedGlottalSourceType
       \/ e = InvalidFilterParameters)
    /\ ((lit 1000 >=? sampleRate mp / lit 2) = true ->
        exists e, Generator_new mp rnd = Throw e)
    /\ (forall this, Generator_new mp rnd = Ok this ->
          mParms this = mp
          /\ fParms this = None
          /\ newFParms this = None
          /\ pState this = None
          /\ atPeriodStart this = true
          /\ absPosition this = lit 0
          /\ flutterTimeOffset this = rnd_values rnd (rnd_drawn rnd) * lit 1000
          /\ rnd_values (random this) = rnd_values rnd
          /\ rnd_drawn (random this) = S (rnd_drawn rnd)).
Proof.
  intros mp rnd.
  assert (Hnoise : forall e, LpNoiseSource_new (sampleRate mp) = Throw e ->
                     e = InvalidFilterParameters).
  { intros e. unfold LpNoiseSource_new, obind, construct, LpFilter1_set.
    cbv zeta. destruct (_ || _); [| discriminate]. congruence. }
  assert (Hlow : (lit 1000 >=? sampleRate mp / lit 2) = true ->
                 exists e, LpNoiseSource_new (sampleRate mp) = Throw e).
  { intros Hfs. unfold LpNoiseSource_new, obind, construct, LpFilter1_set.
    cbv zeta. cbn [LpFilter1_new lp_sampleRate]. rewrite Hfs.
    rewrite orb_true_r. cbn [orb]. now eexists. }
  unfold Generator_new, Math_random, obind, construct, initGlottalSource.
  destruct (Resonator_set _ _ _ _) as [[[] | e0] r] eqn:Hset.
  2: { unfold Resonator_set in Hset. destruct (_ || _); [| discriminate Hset].
       injection Hset as <- _.
       split; [intros e He; injection He as <-; now left |].
       split; [intros _; now eexists | discriminate]. }
  destruct (glottalSourceType mp) as [| p | p];
    [| destruct p as [p | p |]; [| destruct p |] |];
    try (split; [intros e He; injection He as <-; right; now left |];
         split; [intros _; now eexists | discriminate]);
    (destruct (LpNoiseSource_new (sampleRate mp)) as [src | e1] eqn:Hsrc;
     [ split; [discriminate |];
       split; [intros Hfs; destruct (Hlow Hfs) as [e He]; discriminate He |];
       intros this Hnew; injection Hnew as <-; repeat split
     | split; [intros e He; injection He as <-; right; right; now apply Hnoise |];
       split; [intros _; now eexists | discriminate] ]).
Qed.

(* ------------------------------------------------------------------ *)
(** ** Zero gain *)

Lemma startUsingNewFrameParameters_gain (this : Generator) (parms : FrameParms) :
  fParms this = Some parms ->
  gainLin (fState (snd (startUsingNewFrameParameters this)))
  = dbToLin (gainDb parms).
Proof.
  intros Hparms. unfold startUsingNewFrameParameters.
  rewrite run_bind_get, run_bind. unfold defined at 1. rewrite Hparms.
  unfold assign_fState at 1 2. rewrite !run_bind_modify.
  match goal with |- gainLin (fState (snd (?m ?s))) = _ =>
    assert (Hk : keeps (fun g => gainLin (fState g)) m);
      [| rewrite (Hk s); reflexivity ]
  end.
  unfold assign_fState.
  kept_steps;
    first [ apply keeps_zoomOpt; reflexivity | apply keeps_zoomNth; reflexivity ].
Qed.

Lemma startNewPeriod_gain (this this' : Generator) (parms : FrameParms) :
  newFParms this = Some parms ->
  startNewPeriod this = (Ok tt, this') ->
  gainLin (fState this') = dbToLin (gainDb parms) /\ newFParms this' = None.
Proof.
  intros Hnew Hrun.
  destruct (startNewPeriod_adopts this Hnew) as [_ Hnone].
  rewrite Hrun in Hnone. cbn [snd] in Hnone. split; [| exact Hnone].
  unfold startNewPeriod in Hrun. rewrite run_bind_get, Hnew in Hrun.
  rewrite run_bind, !run_bind_modify in Hrun.
  pose proof (@startUsingNewFrameParameters_gain
                (set_newFParms None (set_fParms (Some parms) this)) parms eq_refl)
    as Hgain.
  destruct (startUsingNewFrameParameters
              (set_newFParms None (set_fParms (Some parms) this)))
    as [[[] | e] this1]; [| discriminate Hrun].
  cbn [snd] in Hgain. rewrite <- Hgain.
  match type of Hrun with ?m this1 = _ =>
    assert (Hk : keeps (fun g => gainLin (fState g)) m)
  end.
  { unfold startGlottalSourcePeriod.
    kept_steps;
      first [ apply keeps_zoomOpt; reflexivity | apply keeps_zoomNth; reflexivity ]. }
  specialize (Hk this1). rewrite Hrun in Hk. exact Hk.
Qed.

Lemma startNewPeriod_keeps_gain (this : Generator) :
  newFParms this = None ->
  gainLin (fState (snd (startNewPeriod this))) = gainLin (fState this)
  /\ newFParms (snd (startNewPeriod this)) = None.
Proof.
  intros Hnone. unfold startNewPeriod.
  rewrite run_bind_get, Hnone, run_bind_ret.
  match goal with |- gainLin (fState (snd (?m this))) = _ /\ _ =>
    assert (Hk : keeps (fun g => (gainLin (fState g), newFParms g)) m);
      [| split;
         [ exact (f_equal fst (Hk this))
         | transitivity (newFParms this);
           [ exact (f_equal snd (Hk this)) | exact Hnone ] ] ]
  end.
  unfold startGlottalSourcePeriod.
  kept_steps;
    first [ apply keeps_zoomOpt; reflexivity | apply keeps_zoomNth; reflexivity ].
Qed.

(** The output sample is a product with the linear gain. *)
Lemma computeNextOutputSignalSample_gain (this : Generator) (v : num) :
  fst (computeNextOutputSignalSample this) = Ok v ->
  exists out : num, v = out * gainLin (fState this).
Proof.
  intros Hok. unfold computeNextOutputSignalSample in Hok.
  assert (Hcall : fState (snd (callGlottalSource this)) = fState this).
  { assert (Hk : keeps fState callGlottalSource)
      by (unfold callGlottalSource; kept_steps;
          first [ apply keeps_zoomOpt; reflexivity ]).
    apply Hk. }
  rewrite run_bind in Hok.
  destruct (callGlottalSource this) as [[voice | e] this1]; [| discriminate Hok].
  cbn [snd] in Hcall.
  rewrite run_bind in Hok. unfold zoom at 1 in Hok.
  destruct (LpFilter1_step voice (tiltFilter this1)) as [[voice' | e] f];
    [| discriminate Hok].
  rewrite run_bind_gets in Hok. cbn [set_tiltFilter fState] in Hok.
  rewrite Hcall in Hok.
  repeat match type of Hok with
         | fst (bind ?m ?k ?s) = _ =>
             rewrite (run_bind m k s) in Hok;
             destruct (m s) as [[? | ?] ?]; [| discriminate Hok]
         end.
  cbn in Hok. injection Hok as <-. now eexists.
Qed.

Section Silence.

(** The law of the number system that makes a zero gain silence the output:
    a product with 0 is [0], [-0] or [NaN]. *)
Hypothesis mul_zero : forall x : num, silent (x * lit 0) = true.

Lemma generateFrame_sample_silent (parms : FrameParms) (outPos : nat)
    (this this' : Generator) (outBuf outBuf' : Float64Array) :
  zeroGain parms = true ->
  gainIsZero parms this ->
  generateFrame_sample outPos (this, outBuf) = (Ok tt, (this', outBuf')) ->
  gainIsZero parms this'
  /\ exists v : num, silent v = true /\ outBuf' = writeAt outPos v outBuf.
Proof.
  intros Hzero Hinv Hrun.
  assert (Hdb : dbToLin (gainDb parms) = lit 0).
  { unfold dbToLin. unfold zeroGain in Hzero. now rewrite Hzero. }
  rewrite generateFrame_sample_unfold in Hrun. cbn [fst] in Hrun.
  assert (Htail : forall this0 : Generator,
            gainLin (fState this0) = lit 0 ->
            (newFParms this0 = None \/ newFParms this0 = Some parms) ->
            sampleTail outPos (this0, outBuf) = (Ok tt, (this', outBuf')) ->
            gainIsZero parms this'
            /\ exists v : num, silent v = true /\ outBuf' = writeAt outPos v outBuf).
  { intros this0 Hgain Hpending Htail.
    pose proof (sampleTail_keeps_frame outPos (this0, outBuf)) as Hframe.
    rewrite Htail in Hframe. cbn [fst snd] in Hframe.
    pose proof (f_equal (fun x => snd (fst x)) Hframe) as Hn. cbn in Hn.
    unfold sampleTail in Htail. rewrite run_bind in Htail.
    unfold onGenerator at 1, zoom in Htail. cbn [fst snd] in Htail.
    pose proof (@computeNextOutputSignalSample_gain this0) as Hv.
    assert (Hfs : keeps fState computeNextOutputSignalSample).
    { unfold computeNextOutputSignalSample, computeCascadeBranch,
        computeParallelBranch, callGlottalSource, withRandom.
      kept_steps;
        first [ apply keeps_zoomOpt; reflexivity | apply keeps_zoomNth; reflexivity ]. }
    specialize (Hfs this0).
    destruct (computeNextOutputSignalSample this0) as [[v | e] this1];
      [| discriminate Htail].
    cbn [fst snd] in *. destruct (Hv v eq_refl) as [out Hout].
    rewrite run_bind_modify in Htail. cbn [fst snd] in Htail.
    rewrite run_bind in Htail. unfold onGenerator at 1, zoom, zoomOpt in Htail.
    cbn [fst snd] in Htail.
    destruct (pState this1) as [p1 |]; [| discriminate Htail].
    unfold modify at 1 in Htail. cbn [fst snd] in Htail.
    unfold onGenerator, zoom, modify in Htail. cbn [fst snd] in Htail.
    injection Htail as <- <-.
    split.
    - left. cbn [set_absPosition set_pState fState newFParms] in *.
      rewrite Hfs. split; [exact Hgain |]. rewrite Hn. exact Hpending.
    - exists v. split; [| reflexivity]. rewrite Hout, Hgain. apply mul_zero. }
  rewrite run_bind in Hrun.
  destruct (atPeriodStart this) eqn:Hstart.
  - unfold onGenerator at 1, zoom in Hrun. cbn [fst snd] in Hrun.
    destruct (startNewPeriod this) as [[[] | e] this1] eqn:Hperiod;
      [| discriminate Hrun].
    cbn [fst snd] in Hrun.
    destruct (newFParms this) as [q |] eqn:Hnew.
    + assert (Hq : q = parms).
      { destruct Hinv as [[_ [Hn | Hn]] | [_ Hn]]; congruence. }
      subst q.
      destruct (startNewPeriod_gain this Hnew Hperiod) as [Hgain Hnone].
      apply (Htail this1); [congruence | now left | exact Hrun].
    + destruct (startNewPeriod_keeps_gain this Hnew) as [Hgain Hnone].
      rewrite Hperiod in Hgain, Hnone. cbn [snd] in Hgain, Hnone.
      destruct Hinv as [[Hg _] | [_ Hn]]; [| congruence].
      apply (Htail this1); [congruence | now left | exact Hrun].
  - cbn [ret] in Hrun.
    destruct Hinv as [[Hg Hp] | [Hs _]]; [| congruence].
    apply (Htail this); assumption.
Qed.

Lemma firstn_writeAt (i : nat) (v : num) (outBuf : Float64Array) :
  (i < length outBuf)%nat ->
  firstn (S i) (writeAt i v outBuf) = firstn i outBuf ++ [v].
Proof.
  intros Hi. unfold writeAt.
  destruct (i <? length outBuf)%nat eqn:Hlt; [| apply Nat.ltb_ge in Hlt; lia].
  rewrite firstn_app, length_firstn, Nat.min_l by lia.
  rewrite firstn_all2 by (rewrite length_firstn; lia).
  replace (S i - i)%nat with 1%nat by lia. reflexivity.
Qed.

Lemma generateFrame_loop_silent (parms : FrameParms) (n : nat) :
  forall (outPos : nat) (this this' : Generator) (outBuf outBuf' : Float64Array),
    zeroGain parms = true ->
    gainIsZero parms this ->
    (outPos + n <= length outBuf)%nat ->
    Forall (fun v => silent v = true) (firstn outPos outBuf) ->
    generateFrame_loop outPos n (this, outBuf) = (Ok tt, (this', outBuf')) ->
    gainIsZero parms this'
    /\ Forall (fun v => silent v = true) (firstn (outPos + n) outBuf').
Proof.
  induction n as [| n IH];
    intros outPos this this' outBuf outBuf' Hzero Hinv Hfits Hdone Hrun.
  - cbn in Hrun. injection Hrun as <- <-. rewrite Nat.add_0_r. now split.
  - unfold generateFrame_loop in Hrun. cbn [seq forEach] in Hrun.
    rewrite run_bind in Hrun.
    destruct (generateFrame_sample outPos (this, outBuf))
      as [[[] | e] [this1 buf1]] eqn:Hsample; [| discriminate Hrun].
    destruct (@generateFrame_sample_silent parms outPos this this1 outBuf buf1
                Hzero Hinv Hsample)
      as [Hinv1 [v [Hv Hbuf]]].
    replace (outPos + S n)%nat with (S outPos + n)%nat by lia.
    apply (IH (S outPos) this1 this' buf1 outBuf'); try assumption.
    + rewrite Hbuf, writeAt_length. lia.
    + rewrite Hbuf, firstn_writeAt by lia.
      apply Forall_app. split; [exact Hdone | now constructor].
Qed.

(** With a zero gain every sample of a frame is silent. *)
Lemma generateFrame_silent (parms : FrameParms) (this this' : Generator)
    (outBuf outBuf' : Float64Array) :
  zeroGain parms = true ->
  gainLin (fState this) = lit 0 \/ atPeriodStart this = true ->
  generateFrame parms (this, outBuf) = (Ok tt, (this', outBuf')) ->
  (gainLin (fState this') = lit 0 \/ atPeriodStart this' = true)
  /\ Forall (fun v => silent v = true) outBuf'.
Proof.
  intros Hzero Hinv Hrun.
  pose proof (generateFrame_keeps_length parms (this, outBuf)) as Hlen.
  rewrite Hrun in Hlen. cbn [snd] in Hlen.
  unfold generateFrame in Hrun. rewrite run_bind_get in Hrun.
  cbn [fst snd] in Hrun.
  destruct (sameObject parms (fParms this)); [discriminate Hrun |].
  rewrite run_bind in Hrun. unfold onGenerator at 1, zoom, modify in Hrun.
  cbn [fst snd] in Hrun.
  destruct (@generateFrame_loop_silent parms (length outBuf) 0
              (set_newFParms (Some parms) this) this' outBuf outBuf' Hzero)
    as [Hinv' Hall].
  - destruct Hinv as [Hg | Hs]; [left | right]; split;
      first [assumption | now right | reflexivity].
  - lia.
  - constructor.
  - exact Hrun.
  - split.
    + destruct Hinv' as [[Hg _] | [Hs _]]; [now left | now right].
    + cbn [Nat.add] in Hall. rewrite <- Hlen, firstn_all in Hall. exact Hall.
Qed.

Hypothesis zero_silent : silent (lit 0) = true.

Lemma Forall_firstn_skipn {T : Type} (P : T -> Prop) (n : nat) (l : list T) :
  Forall P l -> Forall P (firstn n l) /\ Forall P (skipn n l).
Proof.
  intros Hl. rewrite <- (firstn_skipn n l) in Hl. now apply Forall_app in Hl.
Qed.

Lemma Generator_new_no_period (mp : MainParms) (rnd : Random) (this : Generator) :
  Generator_new mp rnd = Ok this -> pState this = None.
Proof.
  unfold Generator_new, Math_random, obind, construct.
  destruct (Resonator_set _ _ _ _) as [[[] | e] r]; [| discriminate].
  destruct (initGlottalSource mp) as [sources | e]; [| discriminate].
  destruct (LpNoiseSource_new (sampleRate mp)) as [src | e]; [| discriminate].
  intros Hnew. now injection Hnew as <-.
Qed.

Lemma generateSound_frames_silent (mp : MainParms) (fParmsA : list FrameParms) :
  forall (pos : num) (this this' : Generator) (outBuf outBuf' : Float64Array),
    Forall (fun parms => zeroGain parms = true) fParmsA ->
    gainLin (fState this) = lit 0 \/ atPeriodStart this = true ->
    Forall (fun v => silent v = true) outBuf ->
    generateSound_frames mp fParmsA pos (this, outBuf) = (Ok tt, (this', outBuf')) ->
    Forall (fun v => silent v = true) outBuf'.
Proof.
  induction fParmsA as [| parms rest IH];
    intros pos this this' outBuf outBuf' Hzero Hinv Hbuf Hrun.
  - cbn in Hrun. now injection Hrun as <- <-.
  - inversion Hzero as [| ? ? Hparms Hrest]; subst.
    cbn [generateSound_frames] in Hrun. rewrite run_bind in Hrun.
    unfold onSubarray in Hrun. cbn [fst snd] in Hrun.
    destruct (subarray_range _ _ _) as [offset len].
    destruct (generateFrame parms (this, firstn len (skipn offset outBuf)))
      as [[[] | e] [this1 view1]] eqn:Hframe; [| discriminate Hrun].
    cbn [fst snd] in Hrun.
    destruct (@generateFrame_silent parms this this1 _ view1 Hparms Hinv Hframe)
      as [Hinv1 Hview].
    apply (IH _ _ _ _ _ Hrest Hinv1) in Hrun; [exact Hrun |].
    apply Forall_app. split; [now apply Forall_firstn_skipn |].
    apply Forall_app. split; [exact Hview | now apply Forall_firstn_skipn].
Qed.

Lemma generateSound_silent (mp : MainParms) (fParmsA : list FrameParms)
    (rnd : Random) (outBuf : Float64Array) :
  Forall (fun parms => zeroGain parms = true) fParmsA ->
  generateSound mp fParmsA rnd = Ok outBuf ->
  Forall (fun v => silent v = true) outBuf.
Proof.
  intros Hzero Hrun. unfold generateSound, obind in Hrun.
  destruct (Generator_new mp rnd) as [first | e] eqn:Hnew; [| discriminate Hrun].
  destruct (Float64Array_new _) as [zeros | e] eqn:Hzeros; [| discriminate Hrun].
  match type of Hrun with context [generateSound_frames ?a ?b ?c ?d] =>
    destruct (generateSound_frames a b c d) as [[[] | e] [last buf]] eqn:Hframes
  end; cbn [snd] in Hrun; [| discriminate Hrun].
  injection Hrun as ->.
  apply (@generateSound_frames_silent mp fParmsA (lit 0) first last zeros outBuf
           Hzero); [| | exact Hframes].
  - right. unfold atPeriodStart.
    now rewrite (@Generator_new_no_period mp rnd first Hnew).
  - unfold Float64Array_new in Hzeros.
    destruct (ToIntegerOrInfinity _) as [| z |]; try discriminate Hzeros.
    destruct (_ && _); [| discriminate Hzeros]. injection Hzeros as <-.
    apply Forall_forall. intros v Hv. apply repeat_spec in Hv. now subst v.
Qed.

End Silence.

End MoreGeneratorProperties.

(* ------------------------------------------------------------------ *)
(** ** The errors of [generateFrame] *)

Section ErrorsOnly.

Variables (S : Type) (E : Error -> Prop) (P : S -> Prop).

Lemma errorsOnly_ret {A : Type} (a : A) : errorsOnly E P (ret a).
Proof. intros s Hs. exact Hs. Qed.

Lemma errorsOnly_modify (f : S -> S) :
  (forall s, P s -> P (f s)) -> errorsOnly E P (modify f).
Proof. intros Hf s Hs. now apply Hf. Qed.

Lemma errorsOnly_bind {A B : Type} (m : M S A) (k : A -> M S B) :
  errorsOnly E P m -> (forall a, errorsOnly E P (k a)) -> errorsOnly E P (bind m k).
Proof.
  intros Hm Hk s Hs. unfold bind. specialize (Hm s Hs).
  destruct (m s) as [[a | e] s']; cbn [fst snd] in *; [now apply Hk | exact Hm].
Qed.

Lemma errorsOnly_get {A : Type} (k : S -> M S A) :
  (forall s0, errorsOnly E P (k s0)) -> errorsOnly E P (bind get k).
Proof. intros Hk s Hs. exact (Hk s s Hs). Qed.

Lemma errorsOnly_defined {T A : Type} (proj : S -> option T) (k : T -> M S A) :
  (forall s, P s -> proj s <> None) ->
  (forall t, errorsOnly E P (k t)) ->
  errorsOnly E P (bind (defined proj) k).
Proof.
  intros Hproj Hk s Hs. unfold bind, defined. specialize (Hproj s Hs).
  destruct (proj s) as [t |]; [exact (Hk t s Hs) | congruence].
Qed.

Lemma errorsOnly_zoom {T A : Type} (proj : S -> T) (upd : T -> S -> S) (m : M T A) :
  errorsOnly E (fun _ => True) m ->
  (forall t s, P s -> P (upd t s)) ->
  errorsOnly E P (zoom proj upd m).
Proof.
  intros Hm Hupd s Hs. unfold zoom. specialize (Hm (proj s) I).
  destruct (m (proj s)) as [[a | e] t']; cbn [fst snd] in *;
    [now apply Hupd | exact Hm].
Qed.

Lemma errorsOnly_zoomNth {T A : Type} (proj : S -> list T) (upd : list T -> S -> S)
    (i : nat) (m : M T A) :
  errorsOnly E (fun _ => True) m ->
  (forall s, P s -> (i < length (proj s))%nat) ->
  (forall l s, P s -> length l = length (proj s) -> P (upd l s)) ->
  errorsOnly E P (zoomNth proj upd i m).
Proof.
  intros Hm Hlen Hupd s Hs. unfold zoomNth. specialize (Hlen s Hs).
  destruct (nth_error (proj s) i) as [t |] eqn:Hnth.
  - specialize (Hm t I).
    destruct (m t) as [[a | e] t']; cbn [fst snd] in *; [| exact Hm].
    apply Hupd; [exact Hs |].
    rewrite length_app, length_firstn. cbn [length]. rewrite length_skipn. lia.
  - apply nth_error_None in Hnth. lia.
Qed.

Lemma errorsOnly_forEach {B : Type} (xs : list B) (body : B -> M S unit) :
  (forall x, In x xs -> errorsOnly E P (body x)) -> errorsOnly E P (forEach xs body).
Proof.
  induction xs as [| x xs IH]; intros Hbody; cbn [forEach].
  - apply errorsOnly_ret.
  - apply errorsOnly_bind; [apply Hbody; now left | intros _].
    apply IH. intros y Hy. apply Hbody. now right.
Qed.

End ErrorsOnly.

Section GeneratorErrors.

Context {N : JsNumber}.

Local Open Scope js_scope.

Lemma errorsOnly_throws {T A : Type} (E : Error -> Prop) (m : M T A) :
  (forall t e, fst (m t) = Throw e -> E e) -> errorsOnly E (fun _ => True) m.
Proof.
  intros Hm t _. specialize (Hm t).
  destruct (fst (m t)) as [a | e]; [exact I | now apply Hm].
Qed.

Lemma LpFilter1_set_errors (f g extraGain : num) :
  errorsOnly filterError (fun _ => True) (LpFilter1_set f g extraGain).
Proof.
  apply errorsOnly_throws. intros this e. unfold LpFilter1_set.
  destruct (_ || _); cbn [fst]; [| discriminate].
  intros [= <-]. now left.
Qed.

Lemma Resonator_set_errors (f bw dcGain : num) :
  errorsOnly filterError (fun _ => True) (Resonator_set f bw dcGain).
Proof.
  apply errorsOnly_throws. intros this e. unfold Resonator_set.
  destruct (_ || _); cbn [fst]; [| discriminate].
  intros [= <-]. right. now left.
Qed.

Lemma AntiResonator_set_errors (f bw : num) :
  errorsOnly filterError (fun _ => True) (AntiResonator_set f bw).
Proof.
  apply errorsOnly_throws. intros this e. unfold AntiResonator_set.
  destruct (_ || _); cbn [fst]; [intros [= <-]; right; right; now left |].
  cbv zeta. destruct (_ ==? _); discriminate.
Qed.

Lemma Resonator_adjustPeakGain_errors (peakGain : num) :
  errorsOnly filterError (fun _ => True) (Resonator_adjustPeakGain peakGain).
Proof.
  apply errorsOnly_throws. intros this e. unfold Resonator_adjustPeakGain.
  destruct (_ || _); cbn [fst]; [| discriminate].
  intros [= <-]. right. right. now right.
Qed.

Ltac setter_errors :=
  repeat first
    [ apply errorsOnly_ret
    | apply errorsOnly_modify; intros; exact I
    | apply LpFilter1_set_errors
    | apply Resonator_set_errors
    | apply AntiResonator_set_errors
    | apply Resonator_adjustPeakGain_errors
    | apply errorsOnly_bind; [| intros ?] ].

Lemma setTiltFilter_errors (tiltDb : num) :
  errorsOnly filterError (fun _ => True) (setTiltFilter tiltDb).
Proof.
  unfold setTiltFilter, LpFilter1_setPassthrough.
  destruct (negb _); setter_errors.
Qed.

Lemma setNasalFormantCasc_errors (fParms : FrameParms) :
  errorsOnly filterError (fun _ => True) (setNasalFormantCasc fParms).
Proof.
  unfold setNasalFormantCasc, Resonator_setPassthrough.
  destruct (_ && _); setter_errors.
Qed.

Lemma setNasalAntiformantCasc_errors (fParms : FrameParms) :
  errorsOnly filterError (fun _ => True) (setNasalAntiformantCasc fParms).
Proof.
  unfold setNasalAntiformantCasc, AntiResonator_setPassthrough.
  destruct (_ && _); setter_errors.
Qed.

Lemma setOralFormantCasc_errors (fParms : FrameParms) (i : nat) :
  errorsOnly filterError (fun _ => True) (setOralFormantCasc fParms i).
Proof.
  unfold setOralFormantCasc, Resonator_setPassthrough. cbv zeta.
  destruct (_ && _); setter_errors.
Qed.

Lemma setNasalFormantPar_errors (fParms : FrameParms) :
  errorsOnly filterError (fun _ => True) (setNasalFormantPar fParms).
Proof.
  unfold setNasalFormantPar, Resonator_setMute.
  destruct (_ && _); setter_errors.
Qed.

Lemma setOralFormantPar_errors (mParms : MainParms) (fParms : FrameParms) (i : nat) :
  errorsOnly filterError (fun _ => True) (setOralFormantPar mParms fParms i).
Proof.
  unfold setOralFormantPar, Resonator_setMute. cbv zeta.
  destruct (_ && _); setter_errors.
Qed.

Lemma startUsingNewFrameParameters_errors :
  errorsOnly filterError ready startUsingNewFrameParameters.
Proof.
  unfold startUsingNewFrameParameters, assign_fState.
  apply errorsOnly_get. intros this0. cbv zeta.
  apply errorsOnly_defined; [now intros s [Hf _] | intros parms].
  repeat first
    [ apply errorsOnly_modify; intros s Hs; exact Hs
    | apply errorsOnly_zoom;
        [ first [ apply setTiltFilter_errors | apply setNasalFormantCasc_errors
                | apply setNasalAntiformantCasc_errors | apply setNasalFormantPar_errors ]
        | intros t s Hs; exact Hs ]
    | apply errorsOnly_forEach; intros i Hi; apply in_seq in Hi;
      apply errorsOnly_zoomNth;
        [ first [ apply setOralFormantCasc_errors | apply setOralFormantPar_errors ]
        | intros s (_ & (Hc & Hp) & _); cbn [oralFormantCasc oralFormantPar]; lia
        | intros l s (Hf & (Hc & Hp) & Hsrc) Hl; repeat split;
          first [ exact Hf | exact Hsrc | cbn; congruence ] ]
    | apply errorsOnly_bind; [| intros ?] ].
Qed.

Lemma ImpulsiveGlottalSource_startPeriod_errors (openPhaseLength : num)
    (this : ImpulsiveGlottalSource) (e : Error) :
  fst (ImpulsiveGlottalSource_startPeriod openPhaseLength this) = Throw e ->
  filterError e.
Proof.
  unfold ImpulsiveGlottalSource_startPeriod.
  destruct (negb _); [discriminate |].
  unfold bind, get, modify, zoomOpt, ret.
  destruct (igs_resonator this) as [r |] eqn:Hr; cbn [fst snd igs_set_resonator igs_resonator].
  - rewrite Hr.
    pose proof (@Resonator_set_errors (lit 0) (igs_sampleRate this / openPhaseLength)
                  (lit 1) r I) as Hset.
    destruct (Resonator_set _ _ _ r) as [[[] | e'] r']; cbn [fst snd] in *.
    + cbn. discriminate.
    + now intros [= <-].
  - pose proof (@Resonator_set_errors (lit 0) (igs_sampleRate this / openPhaseLength)
                  (lit 1) (Resonator_new (igs_sampleRate this)) I) as Hset.
    destruct (Resonator_set _ _ _ _) as [[[] | e'] r']; cbn [fst snd] in *.
    + cbn. discriminate.
    + now intros [= <-].
Qed.

Lemma startGlottalSourcePeriod_errors (this : Generator) :
  sourcesExist this = true -> pState this <> None ->
  match fst (startGlottalSourcePeriod this) with
  | Ok _ => True
  | Throw e => filterError e
  end.
Proof.
  unfold sourcesExist, startGlottalSourcePeriod. intros Hsrc Hp.
  rewrite run_bind_get.
  destruct (pState this) as [p |] eqn:Hperiod; [clear Hp | congruence].
  destruct (glottalSourceType (mParms this)) as [| k | k].
  - unfold bind, defined, zoomOpt. rewrite Hperiod.
    destruct (impulsiveGSource this) as [src |]; [| discriminate Hsrc].
    pose proof (@ImpulsiveGlottalSource_startPeriod_errors (openPhaseLength p) src) as H.
    destruct (ImpulsiveGlottalSource_startPeriod _ src) as [[[] | e] src'];
      cbn [fst] in *; [exact I | now apply H].
  - destruct k as [k | k |].
    + exact I.
    + exact I.
    + unfold bind, defined, zoomOpt. rewrite Hperiod.
      destruct (naturalGSource this) as [src |]; [| discriminate Hsrc].
      exact I.
  - exact I.
Qed.

Lemma startNewPeriod_errors (this : Generator) :
  formantsExist this -> sourcesExist this = true -> supplied this ->
  match fst (startNewPeriod this) with
  | Ok _ => True
  | Throw e => filterError e
  end.
Proof.
  intros Hformants Hsrc Hsup. unfold startNewPeriod.
  rewrite run_bind_get, run_bind.
  assert (Hfirst :
    match (match newFParms this with
           | Some p =>
               bind (modify (set_fParms (Some p)))
                 (fun _ => bind (modify (set_newFParms None))
                             (fun _ => startUsingNewFrameParameters))
           | None => ret tt
           end) this with
    | (Ok _, this1) => ready this1
    | (Throw e, _) => filterError e
    end).
  { destruct (newFParms this) as [p |] eqn:Hnew.
    - rewrite !run_bind_modify.
      pose proof (@startUsingNewFrameParameters_errors
                    (set_newFParms None (set_fParms (Some p) this))) as H.
      destruct (startUsingNewFrameParameters _) as [[[] | e] this1];
        cbn [fst snd] in H; apply H; (split; [discriminate | split; assumption]).
    - cbn [ret]. split; [| split; assumption].
      destruct Hsup as [Hf | [_ Hn]]; [exact Hf | congruence]. }
  match goal with
  | |- context [match ?m this with _ => _ end] =>
      destruct (m this) as [[[] | e] this1]
  end; cbn [fst]; [| exact Hfirst].
  destruct Hfirst as (Hf & _ & Hsrc1).
  rewrite run_bind_get.
  set (this2 := snd ((if match pState this1 with None => true | Some _ => false end
                      then modify (set_pState (Some emptyPeriodState))
                      else ret tt) this1)).
  assert (H2 : fParms this2 = fParms this1 /\ sourcesExist this2 = sourcesExist this1
               /\ pState this2 <> None).
  { subst this2. destruct (pState this1) eqn:Hp; cbn.
    - rewrite Hp. repeat split. discriminate.
    - repeat split. discriminate. }
  destruct H2 as (Hf2 & Hsrc2 & Hp2).
  rewrite run_bind.
  replace ((if match pState this1 with None => true | Some _ => false end
            then modify (set_pState (Some emptyPeriodState))
            else ret tt) this1) with (Ok tt, this2)
    by (subst this2; destruct (pState this1); reflexivity).
  unfold bind at 1, defined at 1.
  destruct (pState this2) as [p2 |]; [clear Hp2 | congruence].
  rewrite run_bind_get. cbv zeta.
  unfold bind at 1, defined at 1.
  destruct (fParms this2) as [parms |] eqn:Hparms; [| congruence].
  rewrite run_bind_modify.
  apply startGlottalSourcePeriod_errors.
  - unfold sourcesExist in *. cbn. congruence.
  - cbn. discriminate.
Qed.

Lemma assembled_formantsExist (this : Generator) :
  assembled this = true -> formantsExist this.
Proof.
  unfold assembled, wired, wiring, formantsExist. intros H.
  apply andb_prop in H as [H _]. apply andb_prop in H as [H Hp].
  apply andb_prop in H as [_ Hc].
  apply Nat.eqb_eq in Hc, Hp. now split.
Qed.

Lemma steady_from (this this' : Generator) :
  wiring this' = wiring this -> mParms this' = mParms this ->
  supplied this' -> steady this -> steady this'.
Proof.
  intros Hw Hmp Hsup (Hasm & Hsrc & _).
  unfold steady, assembled, sourcesExist in *. rewrite Hw, Hmp.
  apply andb_prop in Hasm as [Hwired _]. rewrite Hwired. cbn [andb].
  assert (Hi : isDefined (impulsiveGSource this') = isDefined (impulsiveGSource this))
    by exact (f_equal (fun w => snd (fst (fst (fst w)))) Hw).
  assert (Hn : isDefined (naturalGSource this') = isDefined (naturalGSource this))
    by exact (f_equal (fun w => snd (fst (fst w))) Hw).
  rewrite Hi, Hn.
  repeat split; [| exact Hsrc | exact Hsup].
  destruct Hsup as [Hf | [Hp _]].
  - destruct (fParms this'); [| congruence]. now destruct (pState this').
  - now rewrite Hp.
Qed.

Lemma generateFrame_sample_errors (outPos : nat) :
  errorsOnly filterError (fun s : Generator * Float64Array => steady (fst s))
    (generateFrame_sample outPos).
Proof.
  intros [this outBuf] Hsteady. cbn [fst] in Hsteady.
  pose proof (@generateFrame_sample_supplied _ outPos (this, outBuf)
                (proj2 (proj2 Hsteady))) as Hsup'.
  pose proof (generateFrame_sample_keeps_wiring outPos (this, outBuf)) as Hw.
  pose proof (generateFrame_sample_progress outPos this outBuf) as Hprog.
  cbv zeta in Hprog. destruct Hprog as (Hmp & _).
  cbn [fst] in Hsup', Hw.
  pose proof (steady_from Hw Hmp Hsup' Hsteady) as Hsteady'.
  destruct (fst (generateFrame_sample outPos (this, outBuf))) as [[] | e] eqn:Hrun;
    [exact Hsteady' |].
  clear Hsup' Hw Hmp Hsteady'.
  destruct Hsteady as (Hasm & Hsrc & Hsup).
  rewrite generateFrame_sample_unfold in Hrun. cbn [fst] in Hrun.
  unfold bind in Hrun.
  destruct (atPeriodStart this) eqn:Hstart.
  - unfold onGenerator, zoom in Hrun. cbn [fst snd] in Hrun.
    pose proof (@startNewPeriod_errors this (@assembled_formantsExist this Hasm) Hsrc Hsup)
      as Hperiod.
    pose proof (startNewPeriod_keeps_wiring this) as Hw.
    pose proof (startNewPeriod_supplied Hsup) as Hsup1.
    destruct (startNewPeriod this) as [[[] | e1] this1] eqn:Hnew; cbn [fst snd] in *.
    + apply startNewPeriod_scheduled in Hnew.
      destruct Hnew as (parms & p & Hf & Hp & _).
      assert (Hrunning : running this1).
      { split; [| congruence]. unfold assembled in *. rewrite Hw.
        apply andb_prop in Hasm as [Hwired _]. rewrite Hwired, Hf, Hp. reflexivity. }
      destruct (@sampleTail_returns _ outPos (this1, outBuf) Hrunning) as [[a Hok] _].
      congruence.
    + injection Hrun as <-. exact Hperiod.
  - cbn [ret] in Hrun.
    assert (Hrunning : running this).
    { split; [exact Hasm |]. unfold atPeriodStart in Hstart.
      destruct (pState this); [discriminate | discriminate Hstart]. }
    destruct (@sampleTail_returns _ outPos (this, outBuf) Hrunning) as [[a Hok] _].
    congruence.
Qed.

Lemma sourcesExist_from (this this' : Generator) :
  wiring this' = wiring this -> mParms this' = mParms this ->
  sourcesExist this' = sourcesExist this.
Proof.
  intros Hw Hmp. unfold sourcesExist. rewrite Hmp.
  assert (Hi : isDefined (impulsiveGSource this') = isDefined (impulsiveGSource this))
    by exact (f_equal (fun w => snd (fst (fst (fst w)))) Hw).
  assert (Hn : isDefined (naturalGSource this') = isDefined (naturalGSource this))
    by exact (f_equal (fun w => snd (fst (fst w))) Hw).
  now rewrite Hi, Hn.
Qed.

Lemma generateFrame_sample_keeps_sources (outPos : nat) :
  keeps (fun s : Generator * Float64Array => (mParms (fst s), wiring (fst s)))
    (generateFrame_sample outPos).
Proof.
  intros [this outBuf]. cbn [fst].
  pose proof (generateFrame_sample_keeps_wiring outPos (this, outBuf)) as Hw.
  pose proof (generateFrame_sample_progress outPos this outBuf) as Hprog.
  cbv zeta in Hprog. destruct Hprog as (Hmp & _). cbn [fst] in Hw.
  now rewrite Hw, Hmp.
Qed.

Lemma generateFrame_keeps_sources (parms : FrameParms) :
  keeps (fun s : Generator * Float64Array => (mParms (fst s), wiring (fst s)))
    (generateFrame parms).
Proof.
  intros [this outBuf]. unfold generateFrame. rewrite run_bind_get. cbn [fst snd].
  destruct (sameObject parms (fParms this)); [reflexivity |].
  rewrite run_bind. unfold onGenerator, zoom, modify. cbn [fst snd].
  pose proof (@keeps_forEach _ _ _
                (fun s : Generator * Float64Array => (mParms (fst s), wiring (fst s)))
                (seq 0 (length outBuf)) generateFrame_sample
                generateFrame_sample_keeps_sources
                (set_newFParms (Some parms) this, outBuf)) as Hk.
  exact Hk.
Qed.

Lemma Generator_new_sourcesExist (mp : MainParms) (rnd : Random) (this : Generator) :
  Generator_new mp rnd = Ok this -> sourcesExist this = true.
Proof.
  unfold Generator_new, Math_random, obind, construct, initGlottalSource, sourcesExist.
  destruct (Resonator_set _ _ _ _) as [[[] | e] r]; [| discriminate].
  intros Hnew.
  destruct (glottalSourceType mp) as [| p | p] eqn:Hkind;
    [| destruct p as [p | p |]; [| destruct p |] |];
    try discriminate Hnew;
    destruct (LpNoiseSource_new (sampleRate mp)) as [src | e];
    try discriminate Hnew;
    injection Hnew as <-; cbn; rewrite Hkind; reflexivity.
Qed.

Lemma Reachable_sourcesExist (mp : MainParms) (rnd : Random) (this : Generator) :
  Reachable mp rnd this -> sourcesExist this = true.
Proof.
  induction 1 as [this Hnew | this parms outBuf _ IH].
  - exact (@Generator_new_sourcesExist mp rnd this Hnew).
  - pose proof (generateFrame_keeps_sources parms (this, outBuf)) as Hk.
    cbn [fst] in Hk.
    rewrite (sourcesExist_from (f_equal snd Hk) (f_equal fst Hk)). exact IH.
Qed.

Lemma pending_steady (this : Generator) (parms : FrameParms) :
  assembled this = true -> sourcesExist this = true ->
  steady (set_newFParms (Some parms) this).
Proof.
  intros Hasm Hsrc. split; [exact Hasm |]. split; [exact Hsrc |].
  unfold supplied. cbn [set_newFParms fParms pState newFParms].
  unfold assembled in Hasm. apply andb_prop in Hasm as [_ Himp].
  destruct (fParms this); [left; discriminate | right].
  split; [| discriminate].
  destruct (pState this); [discriminate Himp | reflexivity].
Qed.

(** The loop of [generateFrame] throws errors of the filter setters only. *)
Lemma generateFrame_loop_errors (mp : MainParms) (rnd : Random) (this : Generator)
    (parms : FrameParms) (outBuf : Float64Array) (e : Error) :
  Reachable mp rnd this ->
  fst (forEach (seq 0 (length outBuf)) generateFrame_sample
         (set_newFParms (Some parms) this, outBuf)) = Throw e ->
  filterError e.
Proof.
  intros Hreach Hrun.
  pose proof (@errorsOnly_forEach _ filterError
                (fun s : Generator * Float64Array => steady (fst s))
                _ (seq 0 (length outBuf)) generateFrame_sample
                (fun i _ => generateFrame_sample_errors i)
                (set_newFParms (Some parms) this, outBuf)) as Hloop.
  rewrite Hrun in Hloop. apply Hloop. cbn [fst].
  apply pending_steady;
    [exact (Reachable_assembled Hreach) | exact (Reachable_sourcesExist Hreach)].
Qed.

(** X15.  [generateFrame] throws parameter errors only. On a generator that
    the constructor returned and calls of [generateFrame] have used since,
    whether they returned or threw, a call of [generateFrame] that throws
    throws "FrameParms structure must not be re-used." or one of the four
    errors of the filter setters: it never reads a property of [undefined]
    and never throws "Undefined glottal source type." *)
Theorem generateFrame_errors :
  forall (mp : MainParms) (rnd : Random) (this : Generator)
         (parms : FrameParms) (outBuf : Float64Array) (e : Error),
    Reachable mp rnd this ->
    fst (generateFrame parms (this, outBuf)) = Throw e ->
    e = FrameParmsReused \/ filterError e.
Proof.
  intros mp rnd this parms outBuf e Hreach.
  unfold generateFrame. rewrite run_bind_get. cbn [fst snd].
  destruct (sameObject parms (fParms this)); [intros [= <-]; now left |].
  rewrite run_bind. unfold onGenerator at 1, zoom, modify. cbn [fst snd].
  intros Hrun. right.
  exact (generateFrame_loop_errors _ _ Hreach Hrun).
Qed.

Lemma Generator_new_no_TypeError (mp : MainParms) (rnd : Random) :
  Generator_new mp rnd <> Throw TypeError.
Proof.
  assert (Hnoise : LpNoiseSource_new (sampleRate mp) <> Throw TypeError).
  { unfold LpNoiseSource_new, obind, construct, LpFilter1_set.
    cbv zeta. destruct (_ || _); discriminate. }
  unfold Generator_new, Math_random, obind, construct, initGlottalSource.
  destruct (Resonator_set _ _ _ _) as [[[] | e0] r] eqn:Hset.
  2: { unfold Resonator_set in Hset. destruct (_ || _); [| discriminate Hset].
       injection Hset as <- _. discriminate. }
  destruct (glottalSourceType mp) as [| p | p];
    [| destruct p as [p | p |]; [| destruct p |] |];
    try discriminate;
    (destruct (LpNoiseSource_new (sampleRate mp)) as [src | e1];
     [discriminate | congruence]).
Qed.

Lemma filterError_not_TypeError (e : Error) :
  e = FrameParmsReused \/ filterError e -> e <> TypeError.
Proof. intros [-> | [-> | [-> | [-> | ->]]]]; discriminate. Qed.

Lemma generateFrame_no_TypeError (mp : MainParms) (rnd : Random) (this : Generator)
    (parms : FrameParms) (outBuf : Float64Array) :
  Reachable mp rnd this ->
  fst (generateFrame parms (this, outBuf)) <> Throw TypeError.
Proof.
  intros Hreach.
  unfold generateFrame. rewrite run_bind_get. cbn [fst snd].
  destruct (sameObject parms (fParms this)); [discriminate |].
  rewrite run_bind. unfold onGenerator at 1, zoom, modify. cbn [fst snd].
  intros Hrun. apply (generateFrame_loop_errors _ _ Hreach) in Hrun.
  now apply (@filterError_not_TypeError TypeError); [right |].
Qed.

Lemma generateSound_frames_no_TypeError (mp mp0 : MainParms) (rnd : Random)
    (fParmsA : list FrameParms) :
  forall (pos : num) (this : Generator) (outBuf : Float64Array),
    Reachable mp0 rnd this ->
    fst (generateSound_frames mp fParmsA pos (this, outBuf)) <> Throw TypeError.
Proof.
  induction fParmsA as [| parms rest IH]; intros pos this outBuf Hreach.
  - discriminate.
  - cbn [generateSound_frames]. rewrite run_bind.
    unfold onSubarray. cbn [fst snd].
    destruct (subarray_range _ _ _) as [offset len].
    destruct (generateFrame parms (this, firstn len (skipn offset outBuf)))
      as [[[] | e] [this1 view1]] eqn:Hframe; cbn [fst snd].
    + apply IH.
      change this1 with (fst (snd (@Ok unit tt, (this1, view1)))).
      rewrite <- Hframe. now apply Reachable_frame.
    + change (fst (@Throw unit e, (this1, view1)) <> Throw TypeError).
      rewrite <- Hframe. now apply (@generateFrame_no_TypeError mp0 rnd).
Qed.

(** X16.  [generateSound] never reads a property of [undefined]: for every
    [mParms] and every list of frames it returns a buffer or throws one of
    the errors that the program throws itself, or the [RangeError] of an
    invalid array length, never a [TypeError]. *)
Theorem generateSound_no_TypeError :
  forall (mp : MainParms) (fParmsA : list FrameParms) (rnd : Random),
    generateSound mp fParmsA rnd <> Throw TypeError.
Proof.
  intros mp fParmsA rnd. unfold generateSound, obind.
  pose proof (@Generator_new_no_TypeError mp rnd) as Hnew.
  destruct (Generator_new mp rnd) as [first | e] eqn:Hfirst; [| congruence].
  unfold Float64Array_new.
  destruct (ToIntegerOrInfinity _) as [| z |]; try discriminate.
  destruct (_ && _); [| discriminate].
  pose proof (@generateSound_frames_no_TypeError mp mp rnd fParmsA (lit 0) first
                (repeat (lit 0) (Z.to_nat z))
                (@Reachable_new _ mp rnd first Hfirst)) as Hframes.
  destruct (generateSound_frames _ _ _ _) as [[[] | e] s]; cbn [fst] in Hframes;
    [discriminate | congruence].
Qed.

End GeneratorErrors.

(* ------------------------------------------------------------------ *)
(** ** Zero gain, in binary64 *)

Section Binary64Silence.

Variable M : MathLib float.

Let number : JsNumber := F64Number M.
#[local] Existing Instance number.

Local Open Scope js_scope.

(** A binary64 product with 0 is [0], [-0] or [NaN]. *)
Lemma F64_mul_zero (x : num) : silent (x * lit 0) = true.
Proof.
  change ((PrimFloat.is_nan (x * 0) || (x * 0 =? 0))%float = true).
  unfold PrimFloat.is_nan. rewrite !FloatAxioms.eqb_spec, mul_spec.
  change (Prim2SF 0) with (S754_zero false).
  destruct (Prim2SF x) as [s | s | | s m e]; reflexivity.
Qed.

(** X5.  In binary64, a sound whose frames all have a gain of -99 dB or
    less, or [NaN], is silent: every sample of the buffer that
    [generateSound] returns is [0], [-0] or [NaN], whatever the other
    parameters are. *)
Theorem zero_gain_silence :
  forall (mp : MainParms) (fParmsA : list FrameParms) (rnd : Random)
         (outBuf : Float64Array),
    Forall (fun parms => zeroGain parms = true) fParmsA ->
    generateSound mp fParmsA rnd = Ok outBuf ->
    Forall (fun v => silent v = true) outBuf.
Proof.
  intros mp fParmsA rnd outBuf Hzero Hrun.
  exact (@generateSound_silent number F64_mul_zero eq_refl mp fParmsA rnd outBuf
           Hzero Hrun).
Qed.

End Binary64Silence.

(* ------------------------------------------------------------------ *)
(** ** Polynomial arithmetic and the transfer function *)

Section PolynomialProperties.

Context {N : JsNumber} {A : JsMathAbs N}.

Local Open Scope js_scope.

Lemma coefficient_map_seq (f : nat -> num) (k i : nat) :
  (i < k)%nat -> coefficient (map f (seq 0 k)) i = f i.
Proof.
  intros Hi. unfold coefficient.
  rewrite (nth_indep _ undefined (f 0%nat)) by (rewrite length_map, length_seq; lia).
  rewrite (map_nth f (seq 0 k) 0%nat i), seq_nth by lia. reflexivity.
Qed.

(** [addPoly] never throws: the sum has as many coefficients as the longer
    operand, and the shorter operand counts as 0 where it has none (the sum
    of two empty arrays is empty). *)
Lemma addPoly_coefficients :
  forall a1 a2 : Poly,
    length (addPoly a1 a2) = Nat.max (length a1) (length a2)
    /\ forall i : nat,
         (i < Nat.max (length a1) (length a2))%nat ->
         coefficient (addPoly a1 a2) i
         = (if (i <? length a1)%nat then coefficient a1 i else lit 0)
           + (if (i <? length a2)%nat then coefficient a2 i else lit 0).
Proof.
  intros a1 a2. unfold addPoly. cbv zeta.
  assert (Hk : Z.to_nat (Z.max (Z.of_nat (length a1) - 1) (Z.of_nat (length a2) - 1) + 1)
               = Nat.max (length a1) (length a2)) by lia.
  rewrite Hk. split.
  - now rewrite length_map, length_seq.
  - intros i Hi. rewrite coefficient_map_seq by exact Hi.
    assert (H1 : (Z.of_nat i <=? Z.of_nat (length a1) - 1)%Z = (i <? length a1)%nat).
    { destruct (i <? length a1)%nat eqn:E.
      - apply Nat.ltb_lt in E. apply Z.leb_le. lia.
      - apply Nat.ltb_ge in E. apply Z.leb_gt. lia. }
    assert (H2 : (Z.of_nat i <=? Z.of_nat (length a2) - 1)%Z = (i <? length a2)%nat).
    { destruct (i <? length a2)%nat eqn:E.
      - apply Nat.ltb_lt in E. apply Z.leb_le. lia.
      - apply Nat.ltb_ge in E. apply Z.leb_gt. lia. }
    now rewrite H1, H2.
Qed.

(** X7.  [multiplyPoly] throws "Zero length arrays." exactly when an operand
    is empty. Otherwise it returns [[0]] when an operand is the constant 0,
    whatever the other operand holds, and else a polynomial of [a1.length +
    a2.length - 1] coefficients. *)
Theorem multiplyPoly_shape :
  forall a1 a2 : Poly,
    match multiplyPoly a1 a2 with
    | Failed e => e = ZeroLengthArrays /\ (a1 = [] \/ a2 = [])
    | Returned a3 =>
        a1 <> [] /\ a2 <> []
        /\ (if Nat.eqb (length a1) 1 && (coefficient a1 0 ==? lit 0)
               || Nat.eqb (length a2) 1 && (coefficient a2 0 ==? lit 0)
            then a3 = [lit 0]
            else length a3 = (length a1 + length a2 - 1)%nat)
    end.
Proof.
  intros a1 a2. unfold multiplyPoly.
  destruct a1 as [| c1 a1]; [cbn; split; [reflexivity | now left] |].
  destruct a2 as [| c2 a2]; [cbn; split; [reflexivity | now right] |].
  cbn [length Nat.eqb orb].
  destruct (_ || _).
  - repeat split; discriminate.
  - cbv zeta. rewrite length_map, length_seq.
    repeat split; try discriminate. cbn [length]. lia.
Qed.

Lemma multiplyPoly_nonempty (a1 a2 : Poly) :
  a1 <> [] -> a2 <> [] ->
  exists a3 : Poly, multiplyPoly a1 a2 = Returned a3 /\ a3 <> [].
Proof.
  intros H1 H2. unfold multiplyPoly.
  destruct a1 as [| c1 a1]; [congruence |].
  destruct a2 as [| c2 a2]; [congruence |].
  cbn [length Nat.eqb orb].
  destruct (_ || _).
  - eexists. split; [reflexivity | discriminate].
  - eexists. split; [reflexivity |]. cbv zeta. cbn [seq map]. discriminate.
Qed.

Lemma addPoly_nonempty (a1 a2 : Poly) : a1 <> [] -> addPoly a1 a2 <> [].
Proof.
  intros H1 Hnil. apply (f_equal (@length _)) in Hnil.
  destruct (addPoly_coefficients a1 a2) as [Hlen _]. rewrite Hlen in Hnil.
  destruct a1; [congruence | cbn [length] in Hnil; lia].
Qed.

Lemma multiplyFractions_wellFormed (f1 f2 : Fraction) :
  wellFormed f1 -> wellFormed f2 ->
  exists f3 : Fraction, multiplyFractions f1 f2 = Returned f3 /\ wellFormed f3.
Proof.
  intros (t1 & b1 & -> & Ht1 & Hb1) (t2 & b2 & -> & Ht2 & Hb2).
  unfold multiplyFractions, multiplyPolyOf, polyOf. cbn [nth_error rbind].
  destruct (multiplyPoly_nonempty Ht1 Ht2) as (t3 & Ht3 & Hn3).
  destruct (multiplyPoly_nonempty Hb1 Hb2) as (b3 & Hb3 & Hm3).
  destruct t1 as [| c1 t1]; [congruence |].
  destruct b1 as [| d1 b1]; [congruence |].
  cbn [length Nat.eqb]. rewrite Ht3. cbn [rbind]. rewrite Hb3. cbn [rbind].
  eexists. split; [reflexivity |]. now exists t3, b3.
Qed.

Lemma addFractions_wellFormed (f1 f2 : Fraction) :
  wellFormed f1 -> wellFormed f2 ->
  exists f3 : Fraction, addFractions f1 f2 = Returned f3 /\ wellFormed f3.
Proof.
  intros (t1 & b1 & -> & Ht1 & Hb1) (t2 & b2 & -> & Ht2 & Hb2).
  unfold addFractions, polyOf. cbn [nth_error rbind].
  destruct (equalsPoly b1 b2 (lit 0)).
  - eexists. split; [reflexivity |].
    exists (addPoly t1 t2), b1. repeat split; [| exact Hb1].
    now apply addPoly_nonempty.
  - destruct (multiplyPoly_nonempty Ht1 Hb2) as (x1 & Hx1 & Hn1).
    destruct (multiplyPoly_nonempty Ht2 Hb1) as (x2 & Hx2 & Hn2).
    destruct (multiplyPoly_nonempty Hb1 Hb2) as (x3 & Hx3 & Hn3).
    rewrite Hx1. cbn [rbind]. rewrite Hx2. cbn [rbind]. rewrite Hx3. cbn [rbind].
    eexists. split; [reflexivity |].
    exists (addPoly x1 x2), x3. repeat split; [| exact Hn3].
    now apply addPoly_nonempty.
Qed.

Lemma returnedOrFilterError_rbind {T U : Type} (P : T -> Prop) (Q : U -> Prop)
    (r : Result T) (k : T -> Result U) :
  returnedOrFilterError P r ->
  (forall t, P t -> returnedOrFilterError Q (k t)) ->
  returnedOrFilterError Q (rbind r k).
Proof. intros Hr Hk. destruct r as [t | x]; [now apply Hk | exact Hr]. Qed.

Lemma raise_construct {T : Type} (init : T) (m : M T unit) :
  (forall e, ~ filterError e -> neverThrows e m) ->
  returnedOrFilterError (fun _ => True) (raise (construct init m)).
Proof.
  intros Hm. unfold construct.
  destruct (m init) as [[[] | e] t] eqn:Hrun; cbn; [exact I |].
  exists e. split; [reflexivity |].
  assert (Hdec : filterError e \/ ~ filterError e).
  { unfold filterError. destruct e; intuition congruence. }
  destruct Hdec as [Hf | Hf]; [exact Hf |].
  exfalso. apply (Hm e Hf init). now rewrite Hrun.
Qed.

Ltac setter_throws :=
  intros e He; unfold filterError in He;
  unfold setTiltFilter, setNasalFormantCasc, setNasalAntiformantCasc,
    setOralFormantCasc, setNasalFormantPar, setOralFormantPar,
    LpFilter1_setPassthrough, Resonator_setPassthrough, Resonator_setMute,
    AntiResonator_setPassthrough;
  cbv zeta;
  repeat first
    [ apply neverThrows_modify
    | apply neverThrows_bind; [| intros ? ]
    | apply LpFilter1_set_throws; intuition congruence
    | apply Resonator_set_throws; intuition congruence
    | apply AntiResonator_set_throws; intuition congruence
    | apply Resonator_adjustPeakGain_throws; intuition congruence
    | match goal with
      | |- neverThrows _ (if ?b then _ else _) => destruct b
      end ].

Lemma filter_fractions_wellFormed :
  (forall f : LpFilter1, wellFormed (LpFilter1_getTransferFunctionCoefficients f))
  /\ (forall r : Resonator, wellFormed (Resonator_getTransferFunctionCoefficients r))
  /\ (forall r : AntiResonator,
        wellFormed (AntiResonator_getTransferFunctionCoefficients r))
  /\ (forall d : DifferencingFilter,
        wellFormed (DifferencingFilter_getTransferFunctionCoefficients d)).
Proof.
  unfold LpFilter1_getTransferFunctionCoefficients,
    Resonator_getTransferFunctionCoefficients,
    AntiResonator_getTransferFunctionCoefficients,
    DifferencingFilter_getTransferFunctionCoefficients.
  repeat split; intros f;
    repeat match goal with |- context [if ?b then _ else _] => destruct b end;
    do 2 eexists; (split; [reflexivity | split; discriminate]).
Qed.

Lemma constant_wellFormed (c : num) : wellFormed [[c]; [lit 1]].
Proof. do 2 eexists. split; [reflexivity | split; discriminate]. Qed.

Lemma multiplyFractions_ok (f1 f2 : Fraction) :
  wellFormed f1 -> wellFormed f2 ->
  returnedOrFilterError wellFormed (multiplyFractions f1 f2).
Proof.
  intros H1 H2. destruct (multiplyFractions_wellFormed H1 H2) as (f3 & -> & H3).
  exact H3.
Qed.

Lemma addFractions_ok (f1 f2 : Fraction) :
  wellFormed f1 -> wellFormed f2 ->
  returnedOrFilterError wellFormed (addFractions f1 f2).
Proof.
  intros H1 H2. destruct (addFractions_wellFormed H1 H2) as (f3 & -> & H3).
  exact H3.
Qed.

Lemma returnedOrFilterError_fold {B : Type} (xs : list B)
    (body : B -> Fraction -> Result Fraction) :
  (forall x v, wellFormed v -> returnedOrFilterError wellFormed (body x v)) ->
  forall init : Result Fraction,
    returnedOrFilterError wellFormed init ->
    returnedOrFilterError wellFormed
      (fold_left (fun acc x => rbind acc (body x)) xs init).
Proof.
  intros Hbody. induction xs as [| x xs IH]; intros init Hinit; cbn.
  - exact Hinit.
  - apply IH. eapply returnedOrFilterError_rbind; [exact Hinit | apply Hbody].
Qed.

Ltac transfer_steps :=
  destruct filter_fractions_wellFormed as (Hlp & Hres & Hares & Hdiff);
  repeat first
    [ assumption
    | apply constant_wellFormed
    | apply Hlp | apply Hres | apply Hares | apply Hdiff
    | apply multiplyFractions_ok
    | apply addFractions_ok
    | match goal with
      | |- returnedOrFilterError _ (rbind (raise (construct _ _)) _) =>
          eapply returnedOrFilterError_rbind;
          [ apply raise_construct; setter_throws | intros ? _ ]
      | |- returnedOrFilterError _ (rbind _ _) =>
          eapply returnedOrFilterError_rbind with (P := wellFormed);
          [| intros ? ? ]
      | |- returnedOrFilterError _ (fold_left _ _ _) =>
          apply returnedOrFilterError_fold; [ intros ? ? ? |]
      | |- returnedOrFilterError _ (Returned _) => cbn [returnedOrFilterError]
      | |- returnedOrFilterError _ (if ?b then _ else _) => destruct b
      | |- wellFormed (if ?b then _ else _) => destruct b
      | |- returnedOrFilterError _ (let _ := _ in _) => cbv zeta
      end ].

Lemma cascade_ok (mp : MainParms) (fp : FrameParms) :
  returnedOrFilterError wellFormed
    (getCascadeBranchTransferFunctionCoefficients mp fp).
Proof.
  unfold getCascadeBranchTransferFunctionCoefficients. cbv zeta. transfer_steps.
Qed.

Lemma parallel_ok (mp : MainParms) (fp : FrameParms) :
  returnedOrFilterError wellFormed
    (getParallelBranchTransferFunctionCoefficients mp fp).
Proof.
  unfold getParallelBranchTransferFunctionCoefficients. cbv zeta. transfer_steps.
Qed.

(** X6.  [getVocalTractTransferFunctionCoefficients] never throws "Zero
    length arrays." and never reads a property of [undefined]: it either
    throws an error of a filter setter, or returns a fraction whose top and
    bottom polynomials each have at least one coefficient. *)
Theorem getVocalTractTransferFunctionCoefficients_result :
  forall (mp : MainParms) (fp : FrameParms),
    returnedOrFilterError wellFormed
      (getVocalTractTransferFunctionCoefficients mp fp).
Proof.
  intros mp fp. pose proof (cascade_ok mp fp). pose proof (parallel_ok mp fp).
  unfold getVocalTractTransferFunctionCoefficients. cbv zeta. transfer_steps.
Qed.

End PolynomialProperties.

Section Binary64Polynomials.

Variable M : MathLib float.

Let number : JsNumber := F64Number M.
Let numberAbs : JsMathAbs number := F64Abs M.
#[local] Existing Instance number.
#[local] Existing Instance numberAbs.

Local Open Scope js_scope.

Lemma F64_isNaN (x : float) : PrimFloat.is_nan x = true -> Prim2SF x = S754_nan.
Proof.
  unfold PrimFloat.is_nan. rewrite FloatAxioms.eqb_spec.
  destruct (Prim2SF x) as [s | s | | s m e]; try reflexivity; cbn.
  - destruct s; discriminate.
  - destruct s; discriminate.
  - unfold SFeqb, SFcompare. rewrite Z.compare_refl, Pos.compare_refl.
    destruct s; discriminate.
Qed.

Lemma F64_no_difference_from_NaN (x y eps : float) :
  PrimFloat.is_nan x = true ->
  (PrimFloat.ltb eps (PrimFloat.abs (PrimFloat.sub x y)) = false)
  /\ (PrimFloat.ltb eps (PrimFloat.abs (PrimFloat.sub y x)) = false).
Proof.
  intros Hx. apply F64_isNaN in Hx.
  rewrite !ltb_spec, !abs_spec, !sub_spec, Hx.
  split.
  - cbn. unfold SFltb, SFcompare. now destruct (Prim2SF eps).
  - assert (Hsub : SF64sub (Prim2SF y) S754_nan = S754_nan)
      by now destruct (Prim2SF y).
    rewrite Hsub. cbn. unfold SFltb, SFcompare. now destruct (Prim2SF eps).
Qed.

(** X8.  In binary64, [equalsPoly] cannot tell a [NaN] coefficient from any
    number: a polynomial whose coefficients are all [NaN] equals, for every
    [eps], every polynomial that is not longer, in both argument orders. *)
Theorem equalsPoly_NaN :
  forall (a1 a2 : Poly) (eps : num),
    Forall (fun c => isNaN c = true) a1 ->
    (length a2 <= length a1)%nat ->
    equalsPoly a1 a2 eps = true /\ equalsPoly a2 a1 eps = true.
Proof.
  intros a1 a2 eps Hnan Hlen.
  assert (Hcoef : forall i, (i < length a1)%nat -> isNaN (coefficient a1 i) = true).
  { intros i Hi. rewrite Forall_forall in Hnan. apply Hnan.
    unfold coefficient. now apply nth_In. }
  unfold equalsPoly. cbv zeta.
  split; apply forallb_forall; intros i Hi; apply in_seq in Hi;
    assert (Hi1 : (i < length a1)%nat) by lia;
    assert (H1 : (Z.of_nat i <=? Z.of_nat (length a1) - 1)%Z = true)
      by (apply Z.leb_le; lia);
    rewrite H1; apply negb_true_iff;
    match goal with
    | |- (_ >? ?eps) = false =>
        match goal with
        | |- context [coefficient a1 i - ?y] =>
            exact (proj1 (@F64_no_difference_from_NaN (coefficient a1 i) y eps
                            (Hcoef i Hi1)))
        | |- context [?y - coefficient a1 i] =>
            exact (proj2 (@F64_no_difference_from_NaN (coefficient a1 i) y eps
                            (Hcoef i Hi1)))
        end
    end.
Qed.

End Binary64Polynomials.

(* ================================================================== *)
(** * Further concrete runs *)

Section MoreRunsBinary64.

#[local] Existing Instance F64Ref.

Let abs64 : JsMathAbs F64Ref := F64Abs F64.refMath.
#[local] Existing Instance abs64.

Local Open Scope js_scope.

(** Witness of X2.  After three samples of a first frame the generator is
    within a period of 179 samples: a further call with another parameter
    object and a buffer of four samples returns. *)
Lemma generateFrame_returns_within_period_witness :
  exists first : Generator,
    Generator_new (demoMainParms impulsive) demoRandom = Ok first
    /\ (let this :=
          fst (snd (generateFrame (demoFrameParms 1) (first, repeat (lit 0) 3))) in
        sameObject (demoFrameParms 2) (fParms this) = false
        /\ withinPeriod 4 0
             (set_newFParms (Some (demoFrameParms 2)) this, repeat (lit 0) 4)
           = true
        /\ fst (generateFrame (demoFrameParms 2) (this, repeat (lit 0) 4)) = Ok tt).
Proof.
  destruct (Generator_new (demoMainParms impulsive) demoRandom)
    as [first | e] eqn:Hnew.
  2: { assert (Hok : omap (fun _ => tt)
                       (Generator_new (demoMainParms impulsive) demoRandom)
                     = Ok tt) by (vm_compute; reflexivity).
       rewrite Hnew in Hok. discriminate Hok. }
  exists first. split; [reflexivity |]. cbv zeta.
  set (this := fst (snd (generateFrame (demoFrameParms 1) (first, repeat (lit 0) 3)))).
  assert (Hreach : Reachable (demoMainParms impulsive) demoRandom this)
    by (apply Reachable_frame, Reachable_new, Hnew).
  assert (Hfresh : sameObject (demoFrameParms 2) (fParms this) = false).
  { apply (omap_Ok
             (fun g => sameObject (demoFrameParms 2)
                         (fParms (fst (snd (generateFrame (demoFrameParms 1)
                                              (g, repeat (lit 0) 3))))))
             Hnew).
    vm_compute. reflexivity. }
  assert (Hwithin : withinPeriod 4 0
                      (set_newFParms (Some (demoFrameParms 2)) this,
                       repeat (lit 0) 4) = true).
  { apply (omap_Ok
             (fun g => withinPeriod 4 0
                         (set_newFParms (Some (demoFrameParms 2))
                            (fst (snd (generateFrame (demoFrameParms 1)
                                         (g, repeat (lit 0) 3)))),
                          repeat (lit 0) 4))
             Hnew).
    vm_compute. reflexivity. }
  split; [exact Hfresh |]. split; [exact Hwithin |].
  exact (@generateFrame_returns_within_period _ (demoMainParms impulsive) demoRandom
           this (demoFrameParms 2) (repeat (lit 0) 4) Hreach Hfresh Hwithin).
Defined.

(** Witness of X4.  A first oral formant of 30000 Hz at a sample rate of
    44100 Hz: the first call throws "Invalid resonator parameters." and the
    object is active, the second call with it throws the error of a re-used
    object. *)
Lemma rejected_parameters_become_active_witness :
  exists first : Generator,
    Generator_new (demoMainParms impulsive) demoRandom = Ok first
    /\ (let parms := withOralFormantFreq [lit 30000] (demoFrameParms 1) in
        sameObject parms (fParms first) = false
        /\ atPeriodStart first = true
        /\ fst (startUsingNewFrameParameters
                  (set_newFParms None (set_fParms (Some parms) first)))
           = Throw InvalidResonatorParameters
        /\ (let result := generateFrame parms (first, [lit 0]) in
            fst result = Throw InvalidResonatorParameters
            /\ fParms (fst (snd result)) = Some parms
            /\ generateFrame parms (fst (snd result), [lit 0])
               = (Throw FrameParmsReused, (fst (snd result), [lit 0])))).
Proof.
  destruct (Generator_new (demoMainParms impulsive) demoRandom)
    as [first | e] eqn:Hnew.
  2: { assert (Hok : omap (fun _ => tt)
                       (Generator_new (demoMainParms impulsive) demoRandom)
                     = Ok tt) by (vm_compute; reflexivity).
       rewrite Hnew in Hok. discriminate Hok. }
  exists first. split; [reflexivity |]. cbv zeta.
  set (parms := withOralFormantFreq [lit 30000] (demoFrameParms 1)).
  assert (Hfresh : sameObject parms (fParms first) = false).
  { apply (omap_Ok (fun g => sameObject parms (fParms g)) Hnew).
    vm_compute. reflexivity. }
  assert (Hstart : atPeriodStart first = true).
  { apply (omap_Ok atPeriodStart Hnew). vm_compute. reflexivity. }
  assert (Hreject : fst (startUsingNewFrameParameters
                           (set_newFParms None (set_fParms (Some parms) first)))
                    = Throw InvalidResonatorParameters).
  { apply (omap_Ok
             (fun g => fst (startUsingNewFrameParameters
                              (set_newFParms None (set_fParms (Some parms) g))))
             Hnew).
    vm_compute. reflexivity. }
  assert (Hbuf : [lit 0] <> []) by discriminate.
  destruct (@rejected_parameters_become_active _ first [lit 0] parms
              InvalidResonatorParameters Hfresh Hstart Hbuf Hreject)
    as (Hthrows & _ & Hactive & _ & _ & _ & Hagain).
  split; [exact Hfresh |]. split; [exact Hstart |]. split; [exact Hreject |].
  split; [exact Hthrows |]. split; [exact Hactive |]. apply Hagain.
Defined.

(** Witness of X15.  The same parameters, whose first oral formant is 30000
    Hz: the error of the first call is one of the filter setters. *)
Lemma generateFrame_errors_witness :
  exists first : Generator,
    Generator_new (demoMainParms impulsive) demoRandom = Ok first
    /\ (let parms := withOralFormantFreq [lit 30000] (demoFrameParms 1) in
        fst (generateFrame parms (first, [lit 0])) = Throw InvalidResonatorParameters
        /\ (InvalidResonatorParameters = FrameParmsReused
            \/ filterError InvalidResonatorParameters)).
Proof.
  destruct (Generator_new (demoMainParms impulsive) demoRandom)
    as [first | e] eqn:Hnew.
  2: { assert (Hok : omap (fun _ => tt)
                       (Generator_new (demoMainParms impulsive) demoRandom)
                     = Ok tt) by (vm_compute; reflexivity).
       rewrite Hnew in Hok. discriminate Hok. }
  exists first. split; [reflexivity |]. cbv zeta.
  set (parms := withOralFormantFreq [lit 30000] (demoFrameParms 1)).
  assert (Hthrows : fst (generateFrame parms (first, [lit 0]))
                    = Throw InvalidResonatorParameters).
  { apply (omap_Ok (fun g => fst (generateFrame parms (g, [lit 0]))) Hnew).
    vm_compute. reflexivity. }
  split; [exact Hthrows |].
  exact (@generateFrame_errors _ (demoMainParms impulsive) demoRandom first parms
           [lit 0] InvalidResonatorParameters
           (@Reachable_new _ (demoMainParms impulsive) demoRandom first Hnew)
           Hthrows).
Defined.

(** Witness of X5.  One frame of a millisecond with the demo parameters,
    whose [gainDb] is [NaN]: the 44 samples are silent. *)
Lemma zero_gain_silence_witness :
  let frames := [withDuration (lit 0.001) (demoFrameParms 1)] in
  Forall (fun parms => zeroGain parms = true) frames
  /\ exists outBuf : Float64Array,
       generateSound (demoMainParms impulsive) frames demoRandom = Ok outBuf
       /\ length outBuf = 44%nat
       /\ Forall (fun v => silent v = true) outBuf.
Proof.
  intros frames.
  assert (Hzero : Forall (fun parms => zeroGain parms = true) frames)
    by (repeat constructor).
  split; [exact Hzero |].
  assert (Hlen : omap (@length num)
                   (generateSound (demoMainParms impulsive) frames demoRandom)
                 = Ok 44%nat) by (vm_compute; reflexivity).
  destruct (generateSound (demoMainParms impulsive) frames demoRandom)
    as [outBuf | e] eqn:Hrun; [| discriminate Hlen].
  exists outBuf. split; [reflexivity |].
  split; [exact (omap_Ok (@length num) eq_refl Hlen) |].
  exact (@zero_gain_silence F64.refMath (demoMainParms impulsive) frames demoRandom
           outBuf Hzero Hrun).
Defined.

(** Witness of X8.  A polynomial of two [NaN] coefficients and the constant
    1. *)
Lemma equalsPoly_NaN_witness :
  let a1 : Poly := [NaN; NaN] in
  let a2 : Poly := [lit 1] in
  Forall (fun c => isNaN c = true) a1
  /\ (length a2 <= length a1)%nat
  /\ equalsPoly a1 a2 (lit 0) = true
  /\ equalsPoly a2 a1 (lit 0) = true.
Proof.
  intros a1 a2.
  assert (Hnan : Forall (fun c => isNaN c = true) a1) by (repeat constructor).
  assert (Hlen : (length a2 <= length a1)%nat) by (cbn; lia).
  split; [exact Hnan |]. split; [exact Hlen |].
  exact (@equalsPoly_NaN F64.refMath a1 a2 (lit 0) Hnan Hlen).
Defined.

End MoreRunsBinary64.
